(** * Vortixia behaviour layer: a shallow embedding and its verified properties

    The development models the client-side scripts of the site
    ([assets/js/performance-optimizer.js] and [assets/js/script.js]):
    the [throttle] utility, the reveal-animation engine, the navigation
    overlay synchroniser, the session-visit tracker and the hero carousel.

    Part I holds the model, one module per component, each definition next
    to the name of the source function it embeds.  Part II holds the
    properties. *)

From Stdlib Require Import ZArith QArith Qminmax Lia Lqa Bool.
From Stdlib Require Import Floats.SpecFloat.
From stdpp Require Import base list gmap strings.

Local Open Scope Z_scope.

(* ===================================================================== *)
(** * Part I: the model                                                   *)
(* ===================================================================== *)

(* --------------------------------------------------------------------- *)
(** ** [throttle] (performance-optimizer.js, lines 17-28)                 *)
(* --------------------------------------------------------------------- *)

Module Throttle.

(** The closure returned by [throttle(func, limit)] owns one variable,
    [inThrottle] (initially [undefined], which is falsy).  Every
    [setTimeout] it issues is kept in the host's timer queue as the time
    at which the timer is due. *)
Record cell := Cell { inThrottle : bool; timers : list Z }.

Definition fresh : cell := Cell false [].

(** The host takes the delay of [setTimeout] as a signed integer of 32
    bits, wrapping around modulo [2^32] as a browser converts a number to
    the [long] the method is declared with, and clamps a negative delay to
    zero.  A limit of [2^31] milliseconds or more is therefore not the
    delay the timer runs with. *)
Definition to_int32 (x : Z) : Z := (x + 2 ^ 31) mod 2 ^ 32 - 2 ^ 31.

Definition delay (limit : Z) : Z := Z.max 0 (to_int32 limit).

Section closure.
Context {A : Type}.

(** A call of the returned function, with what [func] does when the
    closure applies it to the argument: the calls it makes in turn to the
    returned function, then whether it throws or returns. *)
#[local] Unset Elimination Schemes.
Inductive call := Call (arg : A) (inner : list call) (throws : bool).
#[local] Set Elimination Schemes.

Definition arg_of (k : call) : A := let 'Call arg _ _ := k in arg.
Definition inner_of (k : call) : list call := let 'Call _ inner _ := k in inner.
Definition throws_of (k : call) : bool := let 'Call _ _ throws := k in throws.

(** One call of the returned function at time [now].  The second
    component lists the arguments [func] has been applied to by this call,
    in the order of the applications.  The gate is closed and the timer
    set after [func.apply] has returned: when [func] throws, the exception
    leaves the call before the two statements run. *)
Fixpoint throttled (limit now : Z) (k : call) (c : cell) {struct k}
  : cell * list A :=
  match k with
  | Call arg inner throws =>
      if negb (inThrottle c) then
        let '(c1, log) :=
          (fix each (ks : list call) (c : cell) {struct ks} : cell * list A :=
             match ks with
             | [] => (c, [])
             | k' :: ks' =>
                 let '(c1, log1) := throttled limit now k' c in
                 let '(c2, log2) := each ks' c1 in
                 (c2, log1 ++ log2)
             end) inner c in
        if throws then (c1, arg :: log)
        else (Cell true (timers c1 ++ [now + delay limit]), arg :: log)
      else (c, [])
  end.

(** The calls [func] makes during one application, in order. *)
Fixpoint each (limit now : Z) (ks : list call) (c : cell) : cell * list A :=
  match ks with
  | [] => (c, [])
  | k :: ks' =>
      let '(c1, log1) := throttled limit now k c in
      let '(c2, log2) := each limit now ks' c1 in
      (c2, log1 ++ log2)
  end.

(** The timer callback [() => (inThrottle = false)]; it never applies
    [func]. *)
Definition timeout_cb (c : cell) : cell * list A :=
  (Cell false (timers c), []).

(** Whether a timer due at [d] has already run when a task starts at
    [now].  The order of a timer and of another task that become ready
    at the same instant is left to the host: [tie = true] runs the
    timer first. *)
Definition due (tie : bool) (now d : Z) : bool :=
  if tie then d <=? now else d <? now.

(** Run the callbacks of the listed timers, in order. *)
Fixpoint fire (ds : list Z) (c : cell) : cell * list (Z * A) :=
  match ds with
  | [] => (c, [])
  | d :: ds' =>
      let '(c1, out) := timeout_cb c in
      let '(c2, log) := fire ds' c1 in
      (c2, map (pair d) out ++ log)
  end.

(** The timers that are due at [now] run and leave the queue. *)
Definition run_timers (tie : bool) (now : Z) (c : cell) : cell * list (Z * A) :=
  fire (filter (fun d => due tie now d = true) (timers c))
       (Cell (inThrottle c)
             (filter (fun d => due tie now d <> true) (timers c))).

(** A sequence of timed calls [(t, k)]; the log lists every
    application of [func] with the time at which it happened. *)
Fixpoint run (tie : bool) (limit : Z) (calls : list (Z * call)) (c : cell)
  : cell * list (Z * A) :=
  match calls with
  | [] => (c, [])
  | (t, k) :: rest =>
      let '(c1, log1) := run_timers tie t c in
      let '(c2, out) := throttled limit t k c1 in
      let '(c3, log3) := run tie limit rest c2 in
      (c3, log1 ++ map (pair t) out ++ log3)
  end.

(** After the last call the host keeps running: every timer left in
    the queue fires. *)
Definition settle (c : cell) : cell * list (Z * A) :=
  fire (timers c) (Cell (inThrottle c) []).

(** Every application of [func] over the whole execution, from a
    freshly created closure until no timer is left. *)
Definition invocations (tie : bool) (limit : Z) (calls : list (Z * call))
  : list (Z * A) :=
  let '(c, log) := run tie limit calls fresh in
  log ++ snd (settle c).

(** Calls of a wrapped function that returns and does not call the
    returned function itself. *)
Definition returning (calls : list (Z * A)) : list (Z * call) :=
  map (fun x => (fst x, Call (snd x) [] false)) calls.

(** A call during which [func] does not call the returned function. *)
Definition flat (k : call) : bool :=
  match inner_of k with
  | [] => true
  | _ => false
  end.

(** The arguments the returned function is called with, by the host and by
    [func] itself, in the order of the calls. *)
Fixpoint attempt (k : call) : list A :=
  match k with
  | Call arg inner _ =>
      arg :: (fix all (ks : list call) : list A :=
                match ks with
                | [] => []
                | k' :: ks' => attempt k' ++ all ks'
                end) inner
  end.

Fixpoint attempt_each (ks : list call) : list A :=
  match ks with
  | [] => []
  | k :: ks' => attempt k ++ attempt_each ks'
  end.

Fixpoint attempts (calls : list (Z * call)) : list (Z * A) :=
  match calls with
  | [] => []
  | (t, k) :: rest => map (pair t) (attempt k) ++ attempts rest
  end.

(** The calls of the host, without what [func] does. *)
Definition requests (calls : list (Z * call)) : list (Z * A) :=
  map (fun x => (fst x, arg_of (snd x))) calls.

(** The contract in the words of the specification: the first call
    executes; a later call executes when the window has elapsed since
    the last execution; every other call is dropped. *)
Definition elapsed (tie : bool) (W last t : Z) : bool :=
  if tie then W <=? t - last else W <? t - last.

Fixpoint leading_edge (tie : bool) (W : Z) (last : option Z)
  (calls : list (Z * A)) : list (Z * A) :=
  match calls with
  | [] => []
  | (t, a) :: rest =>
      if match last with None => true | Some l => elapsed tie W l t end
      then (t, a) :: leading_edge tie W (Some t) rest
      else leading_edge tie W last rest
  end.

(** The same contract for a wrapped function that may throw: the window
    opens only at an execution from which [func] has returned. *)
Fixpoint gate_edge (tie : bool) (W : Z) (last : option Z)
  (calls : list (Z * call)) : list (Z * A) :=
  match calls with
  | [] => []
  | (t, k) :: rest =>
      if match last with None => true | Some l => elapsed tie W l t end
      then (t, arg_of k)
           :: gate_edge tie W (if throws_of k then None else Some t) rest
      else gate_edge tie W last rest
  end.
End closure.

Arguments call : clear implicits.

(** Call times [t0 < t1 < ...]. *)
Fixpoint increasing_from (lo : Z) (ts : list Z) : bool :=
  match ts with
  | [] => true
  | t :: r => (lo <? t) && increasing_from t r
  end.

Definition increasing (ts : list Z) : bool :=
  match ts with
  | [] => true
  | t :: r => increasing_from t r
  end.

(** A burst: every call after the first arrives before the window opened
    by the first call has elapsed. *)
Definition burst {A} (W : Z) (calls : list (Z * A)) : bool :=
  match calls with
  | [] => true
  | (t0, _) :: rest =>
      increasing_from t0 (map fst rest)
      && forallb (fun x => fst x <? t0 + W) rest
  end.

(** Call times after the last execution. *)
Definition after (last : option Z) (ts : list Z) : bool :=
  match last with
  | None => increasing ts
  | Some l => increasing_from l ts
  end.

(** Between two calls the closure is either untouched or closed by the
    timer of the last execution. *)
Definition between (limit : Z) (last : option Z) (c : cell) : Prop :=
  match last with
  | None => c = fresh
  | Some l => c = Cell true [l + delay limit]
  end.

(** The trailing-edge reading: the wrapped function is applied to the
    argument of the last call at some time of the execution. *)
Definition trailing_edge_guarantee {A} (tie : bool) (W : Z)
  (calls : list (Z * call A)) : Prop :=
  forall x, last calls = Some x ->
    exists t, (t, arg_of (snd x)) ∈ invocations tie W calls.

End Throttle.

(* --------------------------------------------------------------------- *)
(** ** JavaScript numbers                                                 *)
(* --------------------------------------------------------------------- *)

Module Number.

(** A JavaScript number is an IEEE 754 binary64 value: 53 bits of
    precision, exponents below 1024, every operation rounded to nearest
    with ties to even. *)
Definition prec : Z := 53.
Definition emax : Z := 1024.

(** An integer of the program, such as a loop index. *)
Definition of_Z (z : Z) : spec_float := binary_normalize prec emax z 0 false.

Definition of_nat (n : nat) : spec_float := of_Z (Z.of_nat n).

Definition zero : spec_float := of_Z 0.

(** [a * b] and [a / b]. *)
Definition mul : spec_float -> spec_float -> spec_float := SFmul prec emax.
Definition div : spec_float -> spec_float -> spec_float := SFdiv prec emax.

(** The decimal literal whose value is [n / d], such as [0.05] for
    [decimal 5 100]: the number nearest to the quotient. *)
Definition decimal (n d : Z) : spec_float := div (of_Z n) (of_Z d).

(** [Math.min(a, b)]: [NaN] when an argument is [NaN], and [-0] below
    [+0]. *)
Definition min (a b : spec_float) : spec_float :=
  match SFcompare a b with
  | None => S754_nan
  | Some Lt => a
  | Some Gt => b
  | Some Eq => match a with S754_zero true => a | _ => b end
  end.

(** Truthiness: [+0], [-0] and [NaN] are falsy. *)
Definition truthy (x : spec_float) : bool :=
  match x with
  | S754_zero _ | S754_nan => false
  | _ => true
  end.

(** The real number a finite value stands for. *)
Definition toQ (x : spec_float) : Q :=
  match x with
  | S754_finite s m e =>
      let v := (inject_Z (Z.pos m) * Qpower 2 e)%Q in
      if s then Qopp v else v
  | _ => 0%Q
  end.

End Number.

(* --------------------------------------------------------------------- *)
(** ** The document: token lists and elements                             *)
(* --------------------------------------------------------------------- *)

Module Dom.

(** [classList] is a DOMTokenList, an ordered set of tokens: [add] leaves
    a token that is present where it is, [remove] deletes it. *)
Definition contains (t : string) (l : list string) : bool :=
  bool_decide (t ∈ l).

Definition add (t : string) (l : list string) : list string :=
  if contains t l then l else l ++ [t].

Definition remove (t : string) (l : list string) : list string :=
  filter (fun x => x <> t) l.

(** [classList.toggle(t)]: the list and the value returned, whether the
    token is present afterwards. *)
Definition flip (t : string) (l : list string) : list string * bool :=
  if contains t l then (remove t l, false) else (l ++ [t], true).

(** [classList.toggle(t, force)]. *)
Definition toggle (t : string) (force : bool) (l : list string) : list string :=
  if force then add t l else remove t l.

(** The number of times a token is written in a list. *)
Definition occurrences (t : string) (l : list string) : nat :=
  length (filter (fun u => u = t) l).

(** What the reveal engine reads and writes on an element.  A delay is
    the JavaScript number the code has computed, in seconds. *)
Record element := Element {
  classList : list string;
  animate : option string;       (* dataset.animate *)
  animationDelay : option spec_float;  (* style property --animation-delay *)
  loading : option string        (* attribute loading *)
}.

Definition blank : element := Element [] None None None.

(** Elements are references; the document maps each reference to the
    element's current content.  A reference never written to denotes an
    element without classes, data or style. *)
Definition get (d : gmap nat element) (e : nat) : element :=
  default blank (d !! e).

(** [String(b)]. *)
Definition String_of_bool (b : bool) : string :=
  if b then "true" else "false".

(** Truthiness of a number ([0] is falsy) and of a possibly absent
    string ([undefined] and the empty string are falsy). *)
Definition truthy (q : Q) : bool := negb (Qeq_bool q 0).

Definition truthy_str (o : option string) : bool :=
  match o with
  | None => false
  | Some s => negb (bool_decide (s = ""))
  end.

(** [list.forEach((x, index) => f(index, x))]. *)
Fixpoint forEachFrom {S} (i : nat) (f : nat -> nat -> S -> S)
  (l : list nat) (st : S) : S :=
  match l with
  | [] => st
  | x :: r => forEachFrom (Datatypes.S i) f r (f i x st)
  end.

Definition forEach {S} (f : nat -> nat -> S -> S) (l : list nat) (st : S) : S :=
  forEachFrom 0 f l st.

(** A rendered page: what [document.querySelectorAll] returns for a
    selector, in document order. *)
Record page := Page { querySelectorAll : string -> list nat }.

End Dom.

(* --------------------------------------------------------------------- *)
(** ** The reveal engine: [VortixiaApp.animations] (script.js, 284-546)   *)
(* --------------------------------------------------------------------- *)

Module Reveal.
Import Dom.

Record animations := Animations {
  prefersReducedMotion : bool;       (* prefersReducedMotion.matches *)
  supportsObserver : bool;           (* 'IntersectionObserver' in window *)
  observer : option (list nat);      (* the observer and its targets *)
  animatedElements : list nat;       (* a Set, in insertion order *)
  pendingElements : list nat;
  body : list string;                (* document.body.classList *)
  document : gmap nat element
}.

Definition initial (reduced supports : bool) : animations :=
  Animations reduced supports None [] [] [] ∅.

Definition set_observer (o : option (list nat)) (st : animations) :=
  Animations (prefersReducedMotion st) (supportsObserver st) o
    (animatedElements st) (pendingElements st) (body st) (document st).

Definition set_animatedElements (l : list nat) (st : animations) :=
  Animations (prefersReducedMotion st) (supportsObserver st) (observer st)
    l (pendingElements st) (body st) (document st).

Definition set_pendingElements (l : list nat) (st : animations) :=
  Animations (prefersReducedMotion st) (supportsObserver st) (observer st)
    (animatedElements st) l (body st) (document st).

Definition set_document (d : gmap nat element) (st : animations) :=
  Animations (prefersReducedMotion st) (supportsObserver st) (observer st)
    (animatedElements st) (pendingElements st) (body st) d.

Definition update (e : nat) (f : element -> element) (st : animations) :=
  set_document (<[e := f (get (document st) e)]> (document st)) st.

Definition el (st : animations) (e : nat) : element := get (document st) e.

(** Writers on one element. *)
Definition with_classList (f : list string -> list string) (x : element) :=
  Element (f (classList x)) (animate x) (animationDelay x) (loading x).

Definition with_animate (a : string) (x : element) :=
  Element (classList x) (Some a) (animationDelay x) (loading x).

Definition with_animationDelay (q : spec_float) (x : element) :=
  Element (classList x) (animate x) (Some q) (loading x).

Definition with_loading (v : string) (x : element) :=
  Element (classList x) (animate x) (animationDelay x) (Some v).

(** [observer.observe(e)]: a target already observed is not added again;
    [observer.unobserve(e)]. *)
Definition observe (e : nat) (targets : list nat) : list nat :=
  if bool_decide (e ∈ targets) then targets else targets ++ [e].

Definition unobserve (e : nat) (targets : list nat) : list nat :=
  filter (fun x => x <> e) targets.

(** [prepareElement(element, type = 'text', delay = 0)], lines 466-490.
    [None] is a null element. *)
Definition prepareElement (element : option nat) (type : string)
  (delay : spec_float) (st : animations) : animations :=
  match element with
  | None => st
  | Some e =>
      if bool_decide (e ∈ animatedElements st) then
        if Number.truthy delay
        then update e (with_animationDelay delay) st else st
      else
        let animationType := if bool_decide (type = "") then "text" else type in
        let st1 :=
          if negb (truthy_str (animate (el st e)))
          then update e (with_animate animationType) st else st in
        let st2 :=
          if Number.truthy delay
          then update e (with_animationDelay delay) st1 else st1 in
        let st3 := set_animatedElements (animatedElements st2 ++ [e]) st2 in
        match observer st3 with
        | Some targets => set_observer (Some (observe e targets)) st3
        | None => set_pendingElements (pendingElements st3 ++ [e]) st3
        end
  end.

(** [showElement], lines 524-526, and [showAll], lines 528-532. *)
Definition showElement (e : nat) (st : animations) : animations :=
  update e (with_classList (add "is-visible")) st.

Definition showAll (st : animations) : animations :=
  foldl (fun s e => showElement e s) st (animatedElements st).

(** [registerPendingElements], lines 516-522. *)
Definition registerPendingElements (st : animations) : animations :=
  match observer st with
  | None => st
  | Some targets =>
      let items := pendingElements st in
      set_observer (Some (foldl (fun ts e => observe e ts) targets items))
        (set_pendingElements [] st)
  end.

(** [setupIntersectionObserver], lines 492-514. *)
Definition setupIntersectionObserver (st : animations) : animations :=
  if prefersReducedMotion st || negb (supportsObserver st) then
    set_pendingElements [] (showAll st)
  else
    registerPendingElements (set_observer (Some []) st).

(** The callback given to the observer, lines 501-507; an entry is a
    target and its [isIntersecting] flag. *)
Definition observerCallback (entries : list (nat * bool)) (st : animations)
  : animations :=
  foldl (fun (s : animations) (entry : nat * bool) =>
           if snd entry then
             let s1 := showElement (fst entry) s in
             match observer s1 with
             | Some targets =>
                 set_observer (Some (unobserve (fst entry) targets)) s1
             | None => s1
             end
           else s) st entries.

(** The host calls back only a connected observer, and only about its
    targets. *)
Definition deliver (entries : list (nat * bool)) (st : animations) : animations :=
  match observer st with
  | None => st
  | Some targets =>
      observerCallback
        (filter (fun entry : nat * bool => fst entry ∈ targets) entries) st
  end.

(** [resetObserver], lines 534-546. *)
Definition resetObserver (st : animations) : animations :=
  let st1 := set_observer None st in
  let st2 :=
    foldl (fun s e => update e (with_classList (remove "is-visible")) s)
      st1 (animatedElements st1) in
  let st3 := set_pendingElements (animatedElements st2) st2 in
  setupIntersectionObserver st3.

(** The listener of the preference's [change] event, lines 297-304.  The
    host has updated [matches] before it runs the listener. *)
Definition onChange (matches : bool) (st : animations) : animations :=
  let st1 :=
    Animations matches (supportsObserver st) (observer st)
      (animatedElements st) (pendingElements st)
      (toggle "reduced-motion" matches (body st)) (document st) in
  if matches then showAll st1 else resetObserver st1.

(** [prepareTextBlocks], lines 381-402. *)
Definition textSelectors : list string :=
  [".section-description"; ".about-section p"; ".services-section p";
   ".projects-section p"; ".team-section p"; ".careers-section p";
   ".values-section p"; ".contact-section p"; ".footer-description";
   ".job-card p"; ".value-card p"; ".why-choose-card p"; ".team-member p";
   ".project-card p"].

Definition number (index : nat) : spec_float := Number.of_nat index.

Definition prepareTextBlocks (p : page) (st : animations) : animations :=
  forEach (fun index element =>
             prepareElement (Some element) "text"
               (Number.mul (number (index mod 5)) (Number.decimal 5 100)))
    (querySelectorAll p (String.concat "," textSelectors)) st.

(** [prepareCards], lines 404-424. *)
Definition groupedSelectors : list (string * string * spec_float) :=
  [(".service-card", "card", Number.decimal 8 100);
   (".project-card", "card", Number.decimal 1 10);
   (".team-member", "card", Number.decimal 8 100);
   (".value-card", "card", Number.decimal 8 100);
   (".job-card", "card", Number.decimal 8 100);
   (".career-card", "card", Number.decimal 8 100);
   (".highlight-card", "card", Number.decimal 8 100);
   (".contact-card", "card", Number.decimal 8 100);
   (".contact-info-card", "card", Number.decimal 8 100);
   (".stat-card", "card", Number.decimal 8 100)].

Definition prepareCardGroup (p : page) (group : string * string * spec_float)
  (st : animations) : animations :=
  let '(selector, type, stagger) := group in
  forEach (fun index element =>
             prepareElement (Some element) type
               (Number.mul (number index) stagger))
    (querySelectorAll p selector) st.

Definition prepareCards (p : page) (st : animations) : animations :=
  foldl (fun s group => prepareCardGroup p group s) st groupedSelectors.

(** [prepareImages], lines 444-452. *)
Definition prepareImages (p : page) (st : animations) : animations :=
  forEach (fun index image s =>
             let s1 :=
               if negb (bool_decide (is_Some (loading (el s image))))
               then update image
                      (with_loading (if (index <? 2)%nat then "eager" else "lazy")) s
               else s in
             prepareElement (Some image) "image"
               (Number.min (Number.mul (number index) (Number.decimal 2 100))
                  (Number.decimal 2 10)) s1)
    (querySelectorAll p "img") st.

(** What can happen to the engine after [init] has created it. *)
Inductive event :=
| Prepare (element : option nat) (type : string) (delay : spec_float)
| Setup
| Intersect (entries : list (nat * bool))
| MotionChange (matches : bool).

Definition step (st : animations) (ev : event) : animations :=
  match ev with
  | Prepare element type delay => prepareElement element type delay st
  | Setup => setupIntersectionObserver st
  | Intersect entries => deliver entries st
  | MotionChange matches => onChange matches st
  end.

Definition run (evs : list event) (st : animations) : animations :=
  foldl step st evs.

(** The two states of a revealable element. *)
Definition visible (st : animations) (e : nat) : bool :=
  contains "is-visible" (classList (el st e)).

(** The reveal delay in force on an element, as a real number; without
    the style property the stylesheet's default, no delay, applies. *)
Definition delay_of (st : animations) (e : nat) : Q :=
  Number.toQ (default Number.zero (animationDelay (el st e))).

(** A trace without a reset: the preference is never turned off. *)
Definition is_reset (ev : event) : bool :=
  match ev with
  | MotionChange false => true
  | _ => false
  end.

Definition no_reset (evs : list event) : bool :=
  forallb (fun ev => negb (is_reset ev)) evs.

(** How many steps of a trace take an element from pending to visible. *)
Fixpoint reveals (e : nat) (st : animations) (evs : list event) : nat :=
  match evs with
  | [] => 0
  | ev :: rest =>
      ((if negb (visible st e) && visible (step st ev) e then 1 else 0)
       + reveals e (step st ev) rest)%nat
  end.

(** Every visible element of [st] is visible in [st']. *)
Definition grows (st st' : animations) : Prop :=
  forall e, visible st e = true -> visible st' e = true.

(** The delay an element carries after a registration that passes [d]. *)
Definition assigned (d : spec_float) (st : animations) (e : nat)
  : option spec_float :=
  if Number.truthy d then Some d else animationDelay (el st e).

(** A loop body that passes [f index] as the delay of its element. *)
Definition passes (f : nat -> spec_float)
  (g : nat -> nat -> animations -> animations) :=
  forall i e st,
    animationDelay (el (g i e st) e) = assigned (f i) st e
    /\ forall e', e <> e' ->
         animationDelay (el (g i e st) e') = animationDelay (el st e').

End Reveal.

(* --------------------------------------------------------------------- *)
(** ** The navigation overlay (performance-optimizer.js, 32-82, and       *)
(**    script.js, 159-203)                                                *)
(* --------------------------------------------------------------------- *)

Module Overlay.
Import Dom.

(** The hamburger button, the overlay, the scroll lock of the body and
    the class lists of the [.mobile-submenu] panels, in document order. *)
Record nav := Nav {
  hamburger_classList : list string;
  aria_expanded : option string;     (* on the hamburger *)
  overlay_classList : list string;
  aria_hidden : option string;       (* on the overlay *)
  overflow : string;                 (* document.body.style.overflow *)
  submenus : list (list string)
}.

Definition with_submenus (f : list (list string) -> list (list string))
  (n : nav) : nav :=
  Nav (hamburger_classList n) (aria_expanded n) (overlay_classList n)
    (aria_hidden n) (overflow n) (f (submenus n)).

(** [syncOverlayState], lines 41-46: the reaction of the mutation observer
    registered on the overlay's [class] attribute. *)
Definition syncOverlayState (n : nav) : nav :=
  let isActive := contains "active" (overlay_classList n) in
  Nav (hamburger_classList n) (Some (String_of_bool isActive))
    (overlay_classList n) (Some (String_of_bool (negb isActive)))
    (if isActive then "hidden" else "") (submenus n).

(** A listener returns the new state and whether it wrote the overlay's
    class list, which is what wakes the mutation observer. *)

(** The listeners of the optimizer, lines 56-77: a click on the overlay
    or on a menu link closes the menu, and so does the escape key when the
    overlay is open. *)
Definition close (n : nav) : nav * bool :=
  (Nav (remove "active" (hamburger_classList n)) (aria_expanded n)
     (remove "active" (overlay_classList n)) (aria_hidden n) (overflow n)
     (submenus n),
   true).

Definition onEscape (n : nav) : nav * bool :=
  if contains "active" (overlay_classList n) then close n else (n, false).

(** [toggleNav] of script.js, lines 164-169. *)
Definition toggleNav (n : nav) : nav * bool :=
  let '(hamburger, isActive) := flip "active" (hamburger_classList n) in
  (Nav hamburger (Some (String_of_bool isActive))
     (fst (flip "active" (overlay_classList n))) (aria_hidden n)
     (if isActive then "hidden" else "") (submenus n),
   true).

(** [closeNav], lines 171-176: the menu is toggled when the hamburger is
    active, and on every call each panel matching
    [.mobile-submenu.active] loses [active]. *)
Definition collapseSubmenus (n : nav) : nav :=
  with_submenus (map (remove "active")) n.

Definition closeNav (n : nav) : nav * bool :=
  let r :=
    if contains "active" (hamburger_classList n) then toggleNav n
    else (n, false) in
  (collapseSubmenus (fst r), snd r).

(** The [keydown] listener of script.js, lines 183-185, for the escape
    key: [closeNav] is called only when the hamburger is active. *)
Definition escapeNav (n : nav) : nav * bool :=
  if contains "active" (hamburger_classList n) then closeNav n else (n, false).

(** The listeners of a sub-menu trigger and of a back button, lines
    187-198: the panel the trigger names, or the panel around the button,
    gains or loses [active]; [i] is the position of that panel, and
    nothing happens when there is no such panel. *)
Definition openSubmenu (i : nat) (n : nav) : nav * bool :=
  (with_submenus (alter (add "active") i) n, false).

Definition backSubmenu (i : nat) (n : nav) : nav * bool :=
  (with_submenus (alter (remove "active") i) n, false).

(** The code paths that write the overlay's class list or a panel's,
    each with the listeners it runs, in the order in which the two scripts
    install them; [Programmatic] stands for any other script. *)
Inductive action :=
| HamburgerClick
| OverlayClick
| LinkClick
| Escape
| ResizeWide
| SubmenuTrigger (i : nat)
| BackButton (i : nat)
| Programmatic (f : list string -> list string).

Definition listeners (a : action) : list (nav -> nav * bool) :=
  match a with
  | HamburgerClick => [toggleNav]
  | OverlayClick => [closeNav; close]
  | LinkClick => [close]
  | Escape => [escapeNav; onEscape]
  | ResizeWide => [closeNav]
  | SubmenuTrigger i => [openSubmenu i]
  | BackButton i => [backSubmenu i]
  | Programmatic f =>
      [fun n => (Nav (hamburger_classList n) (aria_expanded n)
                   (f (overlay_classList n)) (aria_hidden n) (overflow n)
                   (submenus n),
                 true)]
  end.

(** After a listener the observer reacts when the class list was
    written. *)
Definition react (r : nav * bool) : nav :=
  if snd r then syncOverlayState (fst r) else fst r.

Definition perform (n : nav) (a : action) : nav :=
  foldl (fun m listener => react (listener m)) n (listeners a).

Definition run (acts : list action) (n : nav) : nav := foldl perform n acts.

(** The overlay's open/closed state, and the attributes agreeing with it. *)
Definition isOpen (n : nav) : bool := contains "active" (overlay_classList n).

Definition synced (n : nav) : Prop :=
  aria_expanded n = Some (String_of_bool (isOpen n))
  /\ aria_hidden n = Some (String_of_bool (negb (isOpen n)))
  /\ overflow n = (if isOpen n then "hidden" else "").

End Overlay.

(* --------------------------------------------------------------------- *)
(** ** The session visit tracker (performance-optimizer.js, 185-210)      *)
(* --------------------------------------------------------------------- *)

Module Session.
Import Dom.

Definition STORAGE_KEY : string := "vortixia-visited".
Definition NAME_MARKER : string := "__vortixiaVisited__".

(** The part of the host the tracker touches.  [getItem] and [setItem]
    may throw (storage disabled, privacy mode, quota). *)
Record window := Window {
  hasDOM : bool;
  protocol : option string;          (* window.location.protocol *)
  name : string;                     (* window.name *)
  items : gmap string string;        (* the content of sessionStorage *)
  getItem_throws : bool;
  setItem_throws : bool
}.

Inductive result (A : Type) :=
| Returns (a : A)
| Throws.
Arguments Returns {A} a.
Arguments Throws {A}.

Definition getItem (w : window) (key : string) : result (option string) :=
  if getItem_throws w then Throws else Returns (items w !! key).

Definition setItem (w : window) (key value : string) : result window :=
  if setItem_throws w then Throws
  else Returns (Window (hasDOM w) (protocol w) (name w)
                  (<[key := value]> (items w))
                  (getItem_throws w) (setItem_throws w)).

(** [markWithWindowName], lines 191-195. *)
Definition markWithWindowName (w : window) : bool * window :=
  let isFirst := negb (bool_decide (name w = NAME_MARKER)) in
  (isFirst,
   Window (hasDOM w) (protocol w) NAME_MARKER (items w)
     (getItem_throws w) (setItem_throws w)).

(** [isFirstSessionLoad], lines 185-210: the value returned and the host
    afterwards. *)
Definition isFirstSessionLoad (w : window) : bool * window :=
  if negb (hasDOM w) then (false, w)
  else if bool_decide (protocol w = Some "file:") then markWithWindowName w
  else
    match getItem w STORAGE_KEY with
    | Throws => markWithWindowName w
    | Returns v =>
        let isFirst := negb (truthy_str v) in
        if isFirst then
          match setItem w STORAGE_KEY "true" with
          | Throws => markWithWindowName w
          | Returns w' => (isFirst, w')
          end
        else (isFirst, w)
    end.

(** The values returned by [n] successive calls. *)
Fixpoint calls (n : nat) (w : window) : list bool * window :=
  match n with
  | O => ([], w)
  | S n' =>
      let '(b, w1) := isFirstSessionLoad w in
      let '(bs, w2) := calls n' w1 in
      (b :: bs, w2)
  end.

(** A new session is a new browsing context of the same host: its
    session storage is empty and its name is the empty string. *)
Definition new_session (w : window) : window :=
  Window (hasDOM w) (protocol w) "" ∅ (getItem_throws w) (setItem_throws w).

(** A session nobody has visited yet. *)
Definition unvisited (w : window) : Prop :=
  items w !! STORAGE_KEY = None /\ name w <> NAME_MARKER.

(** The fallback path is taken when the page is a local file or the
    storage throws. *)
Definition fallback (w : window) : bool :=
  bool_decide (protocol w = Some "file:")
  || getItem_throws w || setItem_throws w.

(** What a first call leaves behind, on each path. *)
Definition visited (w : window) : Prop :=
  if bool_decide (protocol w = Some "file:") || getItem_throws w
  then name w = NAME_MARKER
  else if setItem_throws w
       then items w !! STORAGE_KEY = None /\ name w = NAME_MARKER
       else items w !! STORAGE_KEY = Some "true".

Definition same_host (w w' : window) : Prop :=
  hasDOM w' = hasDOM w /\ protocol w' = protocol w
  /\ getItem_throws w' = getItem_throws w
  /\ setItem_throws w' = setItem_throws w.

End Session.

(* --------------------------------------------------------------------- *)
(** ** The hero carousel: [setupCarousel] (script.js, 648-678)            *)
(* --------------------------------------------------------------------- *)

Module Carousel.
Import Dom.

(** The class lists of the slides and of the dots, and the closure
    variable [currentSlide]. *)
Record carousel := Carousel {
  slides : list (list string);
  dots : list (list string);
  currentSlide : nat
}.

(** [list.forEach((x, i) => x.classList.toggle('active', i === index))]. *)
Definition mark (index : nat) (l : list (list string)) : list (list string) :=
  imap (fun i x => toggle "active" (bool_decide (i = index)) x) l.

Definition showSlide (index : nat) (c : carousel) : carousel :=
  Carousel (mark index (slides c)) (mark index (dots c)) (currentSlide c).

Definition nextSlide (c : carousel) : carousel :=
  let current := ((currentSlide c + 1) mod length (slides c))%nat in
  showSlide current (Carousel (slides c) (dots c) current).

(** The click listener of the dot at position [index]; it also restarts
    the interval, whose firings are the [Tick] events below. *)
Definition dotClick (index : nat) (c : carousel) : carousel :=
  showSlide index (Carousel (slides c) (dots c) index).

(** The interval fires, or one of the dots is clicked.  Without slides
    [setupCarousel] returns before it installs anything, and a dot that
    does not exist has no listener. *)
Inductive event :=
| Tick
| DotClick (index : nat).

Definition step (c : carousel) (ev : event) : carousel :=
  if bool_decide (length (slides c) = 0%nat) then c
  else
    match ev with
    | Tick => nextSlide c
    | DotClick index =>
        if bool_decide (index < length (dots c))%nat then dotClick index c else c
    end.

Definition run (evs : list event) (c : carousel) : carousel := foldl step c evs.

(** The positions of the elements that carry the active marker. *)
Fixpoint active_from (i : nat) (l : list (list string)) : list nat :=
  match l with
  | [] => []
  | x :: r =>
      if contains "active" x then i :: active_from (S i) r
      else active_from (S i) r
  end.

Definition active (l : list (list string)) : list nat := active_from 0 l.

(** The carousel after at least one step: the index is in range, exactly
    the current slide is active and at most one dot. *)
Definition shown (c : carousel) : Prop :=
  (currentSlide c < length (slides c))%nat
  /\ active (slides c) = [currentSlide c]
  /\ (length (active (dots c)) <= 1)%nat.

End Carousel.

(* --------------------------------------------------------------------- *)
(** ** Scenarios used by the examples                                     *)
(* --------------------------------------------------------------------- *)

(** The engine with one registered element, on a host with an intersection
    observer and without reduced motion. *)
Definition one_element : Reveal.animations :=
  Reveal.run [Reveal.Prepare (Some 0%nat) "text" Number.zero; Reveal.Setup]
    (Reveal.initial false true).

(** The element is seen, the preference is turned on, then off, and the
    element is seen again. *)
Definition seen_reset_seen : list Reveal.event :=
  [Reveal.Intersect [(0%nat, true)]; Reveal.MotionChange true;
   Reveal.MotionChange false; Reveal.Intersect [(0%nat, true)]].

(** Two elements registered while reduced motion is active. *)
Definition two_registered : Reveal.animations :=
  Reveal.run [Reveal.Prepare (Some 0%nat) "text" Number.zero;
              Reveal.Prepare (Some 1%nat) "card" (Number.decimal 8 100)]
    (Reveal.initial true true).

(** An element whose markup carries [data-animate="card"], before any
    registration. *)
Definition marked_in_markup : Reveal.animations :=
  Reveal.update 0 (Reveal.with_animate "card") (Reveal.initial false true).

(** A page with twelve images, the elements 0 to 11 in document order. *)
Definition twelve_images : Dom.page :=
  Dom.Page (fun selector => if bool_decide (selector = "img") then seq 0 12 else []).

Definition gallery : Reveal.animations :=
  Reveal.prepareImages twelve_images (Reveal.initial false true).

(** A page opened from a local file, in a browsing context nobody named. *)
Definition local_file : Session.window :=
  Session.Window true (Some "file:") "" ∅ false false.

(** One slide and two dots. *)
Definition one_slide_two_dots : Carousel.carousel :=
  Carousel.Carousel [["hero-slide"; "active"]] [["dot"; "active"]; ["dot"]] 0.

(* --------------------------------------------------------------------- *)
(** ** Measures on throttled executions                                   *)
(* --------------------------------------------------------------------- *)

Module Rate.
Import Throttle.

(** Successive times, each at least a window after the one before. *)
Fixpoint spaced_from (tie : bool) (W last : Z) (ts : list Z) : bool :=
  match ts with
  | [] => true
  | t :: r => elapsed tie W last t && spaced_from tie W t r
  end.

Definition spaced (tie : bool) (W : Z) (ts : list Z) : bool :=
  match ts with
  | [] => true
  | t :: r => spaced_from tie W t r
  end.

(** A closed gate always has a timer that will reopen it. *)
Definition recoverable (c : cell) : Prop :=
  inThrottle c = true -> timers c <> [].

End Rate.

(* --------------------------------------------------------------------- *)
(** ** The menu as its listeners leave it                                 *)
(* --------------------------------------------------------------------- *)

Module Menu.
Import Dom Overlay.

(** The hamburger and the overlay carry the [active] class together. *)
Definition agree (n : nav) : Prop :=
  contains "active" (hamburger_classList n) = contains "active" (overlay_classList n).

(** The actions of the two scripts' own listeners. *)
Definition scripted (a : action) : bool :=
  match a with
  | Programmatic _ => false
  | _ => true
  end.

(** The actions that are meant to close the menu whatever its state. *)
Definition closing (a : action) : bool :=
  match a with
  | OverlayClick | LinkClick | Escape => true
  | _ => false
  end.

(** The menu closed, as the assistive attributes and the scroll lock show
    it. *)
Definition closed (n : nav) : Prop :=
  isOpen n = false
  /\ contains "active" (hamburger_classList n) = false
  /\ aria_expanded n = Some "false"
  /\ aria_hidden n = Some "true"
  /\ overflow n = "".

End Menu.

(* --------------------------------------------------------------------- *)
(** ** The life of the reveal engine: [init] (script.js, lines 290-313)   *)
(* --------------------------------------------------------------------- *)

Module Lifecycle.
Import Dom Reveal.

(** [init] registers elements, then sets the scheduler up once; from then on
    the engine only hears from the observer and from the preference. *)
Definition is_prepare (ev : event) : bool :=
  match ev with
  | Prepare _ _ _ => true
  | _ => false
  end.

Definition is_report (ev : event) : bool :=
  match ev with
  | Intersect _ | MotionChange _ => true
  | _ => false
  end.

(** The engine after the registrations [regs] and the set-up. *)
Definition started (reduced supports : bool) (regs : list event) : animations :=
  setupIntersectionObserver (run regs (initial reduced supports)).

(** The element is a target of the observer. *)
Definition observed (st : animations) (e : nat) : Prop :=
  match observer st with
  | Some targets => e ∈ targets
  | None => False
  end.

(** While elements are registered: no observer yet, and the pending queue
    is the registry, without repetition. *)
Definition registering (st : animations) : Prop :=
  observer st = None
  /\ pendingElements st = animatedElements st
  /\ NoDup (animatedElements st).

(** Every registered element carries a category. *)
Definition categorised (st : animations) : Prop :=
  forall e, e ∈ animatedElements st -> truthy_str (animate (el st e)) = true.

(** After the set-up: nothing is queued, and every registered element is
    visible or watched. *)
Definition armed (st : animations) : Prop :=
  NoDup (animatedElements st)
  /\ pendingElements st = []
  /\ forall e, e ∈ animatedElements st -> visible st e = true \/ observed st e.

End Lifecycle.

(* --------------------------------------------------------------------- *)
(** ** What the images and the observer's targets are left with          *)
(* --------------------------------------------------------------------- *)

Module Reports.
Import Dom Reveal.

(** The [loading] attribute of the image at position [index] once
    [prepareImages] has passed: the one it came with, or [eager] for the
    first two images and [lazy] for the others. *)
Definition loading_after (index : nat) (before : option string) : string :=
  match before with
  | Some v => v
  | None => if (index <? 2)%nat then "eager" else "lazy"
  end.

(** The element is reported as intersecting by one of the entries. *)
Definition reported (entries : list (nat * bool)) (e : nat) : Prop :=
  (e, true) ∈ entries.

(** The body of the loop of [prepareImages]. *)
Definition image_step (index image : nat) (s : animations) : animations :=
  prepareElement (Some image) "image"
    (Number.min (Number.mul (number index) (Number.decimal 2 100))
       (Number.decimal 2 10))
    (if negb (bool_decide (is_Some (loading (el s image))))
     then update image
            (with_loading (if (index <? 2)%nat then "eager" else "lazy")) s
     else s).

End Reports.

(* --------------------------------------------------------------------- *)
(** ** The first-load mark: [setupPageVisibility]                         *)
(**    (performance-optimizer.js, lines 212-225)                          *)
(* --------------------------------------------------------------------- *)

Module Visibility.
Import Dom Session.

(** [main.page-content]: its classes and the three style properties the
    function writes. *)
Record main := Main {
  classList : list string;
  opacity : string;
  visibility : string;
  transform : string
}.

(** The element as the function leaves it. *)
Definition reveal (shouldAnimate : bool) (m : main) : main :=
  Main (toggle "first-load" shouldAnimate (classList m)) "1" "visible"
    "translateY(0)".

(** One page load: the host, and the page's [main.page-content] when it
    has one. *)
Definition setupPageVisibility (w : window) (mainContent : option main)
  : window * option main :=
  if negb (hasDOM w) then (w, mainContent)
  else
    match mainContent with
    | None => (w, None)
    | Some m =>
        let '(shouldAnimate, w') := isFirstSessionLoad w in
        (w', Some (reveal shouldAnimate m))
    end.

(** The pages loaded one after the other in a browsing context, each with
    the [main.page-content] of its own markup. *)
Fixpoint loads (w : window) (pages : list (option main)) : list (option main) :=
  match pages with
  | [] => []
  | page :: rest =>
      let '(w', shown) := setupPageVisibility w page in
      shown :: loads w' rest
  end.

End Visibility.

(* --------------------------------------------------------------------- *)
(** ** The theme switch: [VortixiaApp.theme] (script.js, lines 39-84)     *)
(* --------------------------------------------------------------------- *)

Module Theme.
Import Dom.

Record switch := Switch {
  aria_checked : option string;
  aria_label : option string
}.

Record theme := Theme {
  html : list string;                (* document.documentElement.classList *)
  body : list string;                (* document.body.classList *)
  storage : gmap string string;      (* localStorage *)
  setItem_throws : bool;
  toggles : list switch              (* .theme-toggle, .mobile-theme-toggle *)
}.

(** [syncToggles], lines 69-74. *)
Definition syncToggles (isDark : bool) (t : theme) : theme :=
  Theme (html t) (body t) (storage t) (setItem_throws t)
    (map (fun _ =>
            Switch (Some (String_of_bool isDark))
              (Some (if isDark then "Switch to light mode"
                     else "Switch to dark mode")))
       (toggles t)).

(** [set], lines 49-67.  The second component tells whether the call
    returned; when [localStorage.setItem] throws, the exception leaves the
    function after the classes have been written. *)
Definition set (isDark : bool) (t : theme) : theme * bool :=
  let themeClass := if isDark then "dark-theme" else "light-theme" in
  let removeClass := if isDark then "light-theme" else "dark-theme" in
  let t1 :=
    Theme (add themeClass (remove removeClass (html t)))
      (add themeClass (remove removeClass (body t)))
      (storage t) (setItem_throws t) (toggles t) in
  if setItem_throws t1 then (t1, false)
  else
    (syncToggles isDark
       (Theme (html t1) (body t1)
          (<["theme" := if isDark then "dark" else "light"]> (storage t1))
          (setItem_throws t1) (toggles t1)),
     true).

(** The click listener of a toggle, lines 78-81. *)
Definition click (t : theme) : theme * bool :=
  set (negb (contains "dark-theme" (body t))) t.

(** [init], lines 40-47; the argument is [window.__INITIAL_THEME__]. *)
Definition init (initial : option string) (t : theme) : theme :=
  let currentTheme := if truthy_str initial then default "" initial else "light" in
  syncToggles (bool_decide (currentTheme = "dark")) t.

(** The page shows the dark theme. *)
Definition dark (t : theme) : bool := contains "dark-theme" (body t).

(** Every toggle announces the theme [isDark]. *)
Definition announced (isDark : bool) (t : theme) : Prop :=
  Forall (fun s => aria_checked s = Some (String_of_bool isDark)) (toggles t).

End Theme.

(* --------------------------------------------------------------------- *)
(** ** The scroll-aware navigation bar: [setupNavScroll]                  *)
(**    (script.js, lines 205-260)                                         *)
(* --------------------------------------------------------------------- *)

Module NavScroll.
Import Dom.

(** [nav.style.transform]: not written yet, or [translateY(<px>px)]. *)
Inductive transform :=
| Unset
| TranslateY (px : Q).

(** The fields of [navigation] the function uses and the style of the
    bar. *)
Record bar := Bar {
  lastScrollTop : Q;
  isNavHidden : bool;
  style_transform : transform;
  style_transition : option string
}.

Definition initial : bar := Bar 0 false Unset None.

Definition easing : string := "transform 0.3s cubic-bezier(0.4, 0, 0.2, 1)".

(** Comparisons of numbers. *)
Definition lt (a b : Q) : bool := negb (Qle_bool b a).
Definition le (a b : Q) : bool := Qle_bool a b.

(** [window.pageYOffset || document.documentElement.scrollTop]. *)
Record viewport := Viewport { pageYOffset : Q; scrollTop : Q }.

Definition currentScroll (v : viewport) : Q :=
  if truthy (pageYOffset v) then pageYOffset v else scrollTop v.

(** [updateNavPosition], lines 222-249, for a bar of height [navHeight];
    the bar is hidden by moving it up by its height and 50 pixels more. *)
Definition updateNavPosition (navHeight : Q) (v : viewport) (b : bar) : bar :=
  let current := currentScroll v in
  let scrollingDown := lt (lastScrollTop b) current in
  let scrollingUp := lt current (lastScrollTop b) in
  let b1 :=
    if scrollingDown && lt (navHeight * (3 # 2)) current then
      if negb (isNavHidden b)
      then Bar (lastScrollTop b) true (TranslateY (- (navHeight + 50)))
             (Some easing)
      else b
    else if scrollingUp || le current navHeight then
      if isNavHidden b || le current navHeight
      then Bar (lastScrollTop b) false (TranslateY 0) (Some easing)
      else b
    else b in
  Bar (if le current 0 then 0 else current) (isNavHidden b1)
    (style_transform b1) (style_transition b1).

(** The scroll listener, lines 251-259: the bar, the closure variable
    [ticking], the number of callbacks waiting for the next animation frame
    and the position of the viewport. *)
Record scroller := Scroller {
  nav : bar;
  ticking : bool;
  queued : nat;
  view : viewport
}.

Inductive event :=
| Scroll (v : viewport)
| Frame.

Definition step (navHeight : Q) (s : scroller) (ev : event) : scroller :=
  match ev with
  | Scroll v =>
      if negb (ticking s) then Scroller (nav s) true (S (queued s)) v
      else Scroller (nav s) (ticking s) (queued s) v
  | Frame =>
      Nat.iter (queued s)
        (fun s' => Scroller (updateNavPosition navHeight (view s') (nav s'))
                     false (queued s') (view s'))
        (Scroller (nav s) (ticking s) 0 (view s))
  end.

Definition run (navHeight : Q) (evs : list event) (s : scroller) : scroller :=
  foldl (step navHeight) s evs.

Definition idle (v : viewport) : scroller := Scroller initial false 0 v.

(** The flag and the style of the bar tell the same story. *)
Definition consistent (navHeight : Q) (b : bar) : Prop :=
  (isNavHidden b = true ->
   style_transform b = TranslateY (- (navHeight + 50)))
  /\ (isNavHidden b = false ->
      style_transform b = Unset \/ style_transform b = TranslateY 0)
  /\ (0 <= lastScrollTop b)%Q.

End NavScroll.

(* --------------------------------------------------------------------- *)
(** ** [PagePerformanceOptimizer] (performance-optimizer.js, 229-297)     *)
(* --------------------------------------------------------------------- *)

Module LazyImages.
Import Dom.

(** What [optimizeImages] reads and writes on an image. *)
Record image := Image {
  loading : option string;
  src : option string;
  data_src : option string           (* dataset.src *)
}.

Definition blank : image := Image None None None.

(** The images of the document and the targets of [imageObserver]. *)
Record optimizer := Optimizer {
  images : gmap nat image;
  targets : list nat
}.

Definition img (o : optimizer) (e : nat) : image := default blank (images o !! e).

Definition write (e : nat) (f : image -> image) (o : optimizer) : optimizer :=
  Optimizer (<[e := f (img o e)]> (images o)) (targets o).

(** [optimizeImages], lines 240-262, on the images [all] of the document:
    the images without a [loading] attribute become lazy, and a new observer
    watches the images that have a [data-src] attribute.  The function
    builds the observer without asking whether the host has
    [IntersectionObserver] ([supports]); on a host without it the
    expression [new IntersectionObserver] of line 246 throws once the
    [loading] attributes are written, and no image is observed.  The second
    component tells whether the call has returned. *)
Definition lazy (x : image) : image := Image (Some "lazy") (src x) (data_src x).

Definition optimizeImages (supports : bool) (all : list nat) (o : optimizer)
  : optimizer * bool :=
  let o1 :=
    foldl (fun s e => write e lazy s)
      o (filter (fun e => loading (img o e) = None) all) in
  if supports then
    (Optimizer (images o1)
       (foldl (fun ts e => Reveal.observe e ts) []
          (filter (fun e => is_Some (data_src (img o1 e))) all)),
     true)
  else (o1, false).

(** The callback of [imageObserver], lines 246-257. *)
Definition imageCallback (entries : list (nat * bool)) (o : optimizer) : optimizer :=
  foldl (fun (s : optimizer) (entry : nat * bool) =>
           if snd entry then
             if truthy_str (data_src (img s (fst entry))) then
               let s1 :=
                 write (fst entry)
                   (fun x => Image (loading x) (data_src x) None) s in
               Optimizer (images s1) (Reveal.unobserve (fst entry) (targets s1))
             else s
           else s) o entries.

(** The host reports on targets only. *)
Definition deliver (entries : list (nat * bool)) (o : optimizer) : optimizer :=
  imageCallback (filter (fun entry : nat * bool => fst entry ∈ targets o) entries) o.

(** [preconnectToExternalDomains], lines 282-296, on the [link] elements of
    the document. *)
Record link := Link { rel : string; href : string }.

Definition externalDomains : list string :=
  ["https://fonts.googleapis.com"; "https://cdnjs.cloudflare.com"].

(** The selector [link[rel="preconnect"][href="..."]]: in an HTML
    document the value of [rel] is compared without regard to the case of
    ASCII letters, the value of [href] as it is written. *)
Definition lower_ascii (c : Ascii.ascii) : Ascii.ascii :=
  let n := Ascii.nat_of_ascii c in
  if (65 <=? n)%nat && (n <=? 90)%nat then Ascii.ascii_of_nat (n + 32) else c.

Fixpoint lower (s : string) : string :=
  match s with
  | EmptyString => EmptyString
  | String c r => String (lower_ascii c) (lower r)
  end.

Definition preconnects (domain : string) (l : link) : bool :=
  bool_decide (lower (rel l) = "preconnect") && bool_decide (href l = domain).

(** The body of the loop: a hint for [domain] unless the document has
    one. *)
Definition hint (domain : string) (ls : list link) : list link :=
  if negb (existsb (preconnects domain) ls)
  then ls ++ [Link "preconnect" domain] else ls.

Definition preconnectToExternalDomains (links : list link) : list link :=
  foldl (fun ls domain => hint domain ls) links externalDomains.

(** [init], lines 234-238, as far as the images and the links go:
    [preconnectToExternalDomains] runs only when [optimizeImages] has
    returned.  ([setupIntersectionObserver], between the two, writes
    neither, and builds its observer on the same host.) *)
Definition init (supports : bool) (all : list nat)
  (s : optimizer * list link) : optimizer * list link :=
  let '(o, returned) := optimizeImages supports all (fst s) in
  (o, if returned then preconnectToExternalDomains (snd s) else snd s).

End LazyImages.

(* --------------------------------------------------------------------- *)
(** ** Buttons, links and grids (script.js, 548-623 and 723-740)          *)
(* --------------------------------------------------------------------- *)

Module Interactions.
Import Dom.

(** A button: its classes, and whether [createRipple] listens to its
    clicks (the host keeps one registration of the same listener). *)
Record button := Button { classList : list string; ripples : bool }.

Definition blank : button := Button [] false.

Definition btn (d : gmap nat button) (e : nat) : button := default blank (d !! e).

(** The button carries the class that marks it as set up. *)
Definition marked (d : gmap nat button) (e : nat) : bool :=
  contains "interactive-button" (classList (btn d e)).

(** [setupButtonInteractions], lines 615-623, on the matched buttons. *)
Definition setupButtonInteractions (matched : list nat) (d : gmap nat button)
  : gmap nat button :=
  foldl (fun s e =>
           if contains "interactive-button" (classList (btn s e)) then s
           else <[e := Button (add "interactive-button" (classList (btn s e))) true]> s)
    d matched.

(** The parts of a URL the click listener of [setupPageTransitions]
    compares; [new URL(href, window.location.href)] is taken to return. *)
Record url := Url { origin : string; pathname : string; hash : string }.

Record click := Click {
  metaKey : bool; ctrlKey : bool; shiftKey : bool; altKey : bool;
  attr_href : option string;         (* link.getAttribute('href') *)
  destination : url                  (* new URL(href, window.location.href) *)
}.

(** The listener, lines 562-590: whether it takes the navigation over
    (prevents the default, fades the page out and navigates 260 ms later). *)
Definition intercepts (current : url) (c : click) : bool :=
  if metaKey c || ctrlKey c || shiftKey c || altKey c then false
  else
    match attr_href c with
    | None => false
    | Some href =>
        if bool_decide (href = "") || String.prefix "#" href
           || String.prefix "mailto:" href || String.prefix "tel:" href
        then false
        else if negb (bool_decide (origin (destination c) = origin current))
        then false
        else if bool_decide (pathname (destination c) = pathname current)
        then
          if negb (bool_decide (hash (destination c) = ""))
             && negb (bool_decide (hash (destination c) = hash current))
          then false
          else if bool_decide (hash (destination c) = hash current) then false
          else true
        else true
    end.

(** [fixGridAlignment], lines 723-740, on one grid: [natural] lists the
    [offsetHeight] of the items once their height is [auto]; the result
    lists the heights written, in pixels. *)
Definition fixGrid (natural : list Z) : list Z :=
  match natural with
  | [] => []
  | h :: hs =>
      let maxHeight := foldl Z.max h hs in
      map (fun _ => maxHeight) natural
  end.

End Interactions.

(* --------------------------------------------------------------------- *)
(** ** Headings split into words: [prepareHeadings]                       *)
(**    (script.js, lines 326-364)                                         *)
(* --------------------------------------------------------------------- *)

Module Headings.
Import Dom Reveal.

(** The child nodes of a heading: a text node, a word wrapper made by the
    split, or any other node (an element or a comment) with the text it
    contains. *)
Inductive node :=
| Text (data : string)
| Span (className : string) (text : string) (delay : spec_float)
| Other (text : string).

Definition textOf (n : node) : string :=
  match n with
  | Text data => data
  | Span _ text _ => text
  | Other text => text
  end.

Definition isText (n : node) : bool :=
  match n with
  | Text _ => true
  | _ => false
  end.

Record content := Content {
  childNodes : list node;
  headingProcessed : option string      (* dataset.headingProcessed *)
}.

(** The engine, and the contents of the headings. *)
Record state := State {
  engine : animations;
  contents : gmap nat content
}.

Definition content_of (s : state) (heading : nat) : content :=
  default (Content [] None) (contents s !! heading).

(** [node.textContent]. *)
Definition textContent (c : content) : string :=
  String.concat "" (map textOf (childNodes c)).

(** The two string methods the function calls, [String.prototype.trim] and
    [split(/\s+/)], belong to the host. *)
Record strings := Strings {
  trim : string -> string;
  split : string -> list string
}.

(** The fragment built by [forEach((word, index, words) => ...)]: a wrapper
    for each word and a space between two of them. *)
Fixpoint fragment_from (index total : nat) (words : list string) : list node :=
  match words with
  | [] => []
  | word :: rest =>
      Span "heading-word" word (Number.mul (number index) (Number.decimal 8 100))
      :: (if (Z.of_nat index <? Z.of_nat total - 1)%Z then [Text " "] else [])
      ++ fragment_from (S index) total rest
  end.

Definition fragment (words : list string) : list node :=
  fragment_from 0 (length words) words.

(** The body of the loop over the matched headings. *)
Definition prepareHeading (js : strings) (heading : nat) (s : state) : state :=
  let c := content_of s heading in
  if bool_decide (headingProcessed c = Some "true") then s
  else
    let hasChildElements := existsb (fun n => negb (isText n)) (childNodes c) in
    let s1 :=
      if negb hasChildElements then
        let text := trim js (textContent c) in
        if (0 <? String.length text)%nat then
          State (update heading (with_classList (add "has-split-heading")) (engine s))
            (<[heading := Content (fragment (split js text)) (headingProcessed c)]>
               (contents s))
        else s
      else s in
    State (prepareElement (Some heading) "heading" Number.zero (engine s1))
      (<[heading := Content (childNodes (content_of s1 heading)) (Some "true")]>
         (contents s1)).

Definition prepareHeadings (js : strings) (matched : list nat) (s : state) : state :=
  foldl (fun s heading => prepareHeading js heading s) s matched.

(** The wrappers among the child nodes. *)
Definition isSpan (n : node) : bool :=
  match n with
  | Span _ _ _ => true
  | _ => false
  end.

Definition spans (c : content) : list node :=
  filter (fun n => isSpan n = true) (childNodes c).

End Headings.

(* ===================================================================== *)
(** * Part II: properties                                                 *)
(* ===================================================================== *)

Section ThrottleFacts.
Import Throttle.
Context {A : Type}.
Implicit Types (calls : list (Z * A)) (c : cell).

(** The calls of one application run one after the other. *)
Lemma throttled_eq limit now (k : call A) c :
  throttled limit now k c
  = if negb (inThrottle c) then
      let '(c1, log) := each limit now (inner_of k) c in
      if throws_of k then (c1, arg_of k :: log)
      else (Cell true (timers c1 ++ [now + delay limit]), arg_of k :: log)
    else (c, []).
Proof.
  destruct k as [arg inner throws]. cbn [throttled inner_of throws_of arg_of].
  destruct (negb (inThrottle c)); [|done].
  assert (E : forall ks c0,
    (fix each (ks : list (call A)) (c : cell) {struct ks} : cell * list A :=
       match ks with
       | [] => (c, [])
       | k' :: ks' =>
           let '(c1, log1) := throttled limit now k' c in
           let '(c2, log2) := each ks' c1 in
           (c2, log1 ++ log2)
       end) ks c0 = each limit now ks c0).
  { induction ks as [|k' ks' IH]; intros c0; [done|].
    cbn [each]. destruct (throttled limit now k' c0) as [c1 log1].
    by rewrite IH. }
  by rewrite E.
Qed.

Lemma throttled_closed limit now (k : call A) c :
  inThrottle c = true -> throttled limit now k c = (c, []).
Proof. intros H. rewrite throttled_eq, H. done. Qed.

Lemma throttled_flat limit now (k : call A) c :
  flat k = true ->
  throttled limit now k c
  = if inThrottle c then (c, [])
    else if throws_of k then (c, [arg_of k])
    else (Cell true (timers c ++ [now + delay limit]), [arg_of k]).
Proof.
  intros Hk. rewrite throttled_eq. unfold flat in Hk.
  destruct (inner_of k); [|done]. by destruct (inThrottle c).
Qed.

Lemma call_ind' (P : call A -> Prop) :
  (forall arg inner throws, Forall P inner -> P (Call arg inner throws)) ->
  forall k, P k.
Proof.
  intros H. fix IH 1. intros [arg inner throws]. apply H.
  induction inner as [|k ks IHks]; constructor; [apply IH|exact IHks].
Qed.

Lemma attempt_eq (k : call A) :
  attempt k = arg_of k :: attempt_each (inner_of k).
Proof.
  destruct k as [arg inner throws]. reflexivity.
Qed.

Lemma fire_log (ds : list Z) c : snd (fire (A:=A) ds c) = [].
Proof.
  revert c; induction ds as [|d ds IH]; intros c; simpl; [done|].
  specialize (IH (Cell false (timers c))).
  destruct (fire ds (Cell false (timers c))) as [c2 log]; simpl in *.
  by subst.
Qed.

Lemma settle_log c : snd (settle (A:=A) c) = [].
Proof. apply fire_log. Qed.

Lemma due_elapsed tie D l t : due tie t (l + D) = elapsed tie D l t.
Proof.
  unfold due, elapsed. destruct tie.
  - destruct (Z.leb_spec (l + D) t), (Z.leb_spec D (t - l)); lia || done.
  - destruct (Z.ltb_spec (l + D) t), (Z.ltb_spec D (t - l)); lia || done.
Qed.

(** A limit the timer can take is the delay it runs with. *)
Lemma delay_window W : 0 <= W < 2 ^ 31 -> delay W = W.
Proof.
  intros HW. unfold delay, to_int32.
  rewrite Z.mod_small by lia. lia.
Qed.

Lemma delay_nonpos W : - 2 ^ 31 <= W <= 0 -> delay W = 0.
Proof.
  intros HW. unfold delay, to_int32.
  rewrite Z.mod_small by lia. lia.
Qed.

Lemma delay_bounds W : 0 <= delay W < 2 ^ 31.
Proof.
  unfold delay, to_int32.
  pose proof (Z.mod_pos_bound (W + 2 ^ 31) (2 ^ 32) ltac:(lia)). lia.
Qed.

Lemma run_timers_fresh tie t : run_timers (A:=A) tie t fresh = (fresh, []).
Proof. done. Qed.

Lemma run_timers_closed tie D l t :
  run_timers (A:=A) tie t (Cell true [l + D])
  = if due tie t (l + D)
    then (Cell false [], [])
    else (Cell true [l + D], []).
Proof.
  unfold run_timers; simpl. rewrite !filter_cons, !filter_nil.
  destruct (due tie t (l + D)) eqn:E.
  - rewrite decide_True by done. rewrite decide_False by (intros H; by apply H).
    reflexivity.
  - rewrite decide_False by done. rewrite decide_True by done. reflexivity.
Qed.

Lemma after_dropped l t (ts : list Z) :
  l < t -> increasing_from t ts = true -> increasing_from l ts = true.
Proof.
  intros Hlt. destruct ts as [|t' ts]; [done|]. simpl.
  intros H. apply andb_true_iff in H as [Hlt' ?]. apply Z.ltb_lt in Hlt'.
  apply andb_true_iff; split; [apply Z.ltb_lt; lia|done].
Qed.

Lemma after_thrown t (ts : list Z) :
  increasing_from t ts = true -> increasing ts = true.
Proof.
  destruct ts as [|t' ts]; [done|]. simpl.
  intros H. by apply andb_true_iff in H as [_ ?].
Qed.

(** The closure implements the contract, for a wrapped function that does
    not call the returned function. *)
Lemma run_gate_edge tie limit (ks : list (Z * call A)) : forall last c,
  forallb flat (map snd ks) = true ->
  between limit last c ->
  after last (map fst ks) = true ->
  snd (run tie limit ks c) = gate_edge tie (delay limit) last ks.
Proof.
  induction ks as [|[t k] rest IH]; intros last c Hflat Hc Hinc; [done|].
  simpl in Hflat. apply andb_true_iff in Hflat as [Hk Hflat].
  simpl in Hinc. cbn [run gate_edge].
  destruct last as [l|]; simpl in Hc, Hinc; subst c.
  - apply andb_true_iff in Hinc as [Hlt Hrest]. apply Z.ltb_lt in Hlt.
    rewrite run_timers_closed, <- (due_elapsed tie (delay limit) l t).
    destruct (due tie t (l + delay limit)).
    + rewrite throttled_flat by done. cbn [inThrottle timers].
      destruct (throws_of k).
      * specialize (IH None fresh Hflat eq_refl (after_thrown _ _ Hrest)).
        change (Cell false []) with fresh.
        destruct (run tie limit rest fresh) as [c3 log3]; simpl in *.
        by subst.
      * specialize (IH (Some t) (Cell true [t + delay limit]) Hflat eq_refl Hrest).
        cbn [app].
        destruct (run tie limit rest _) as [c3 log3]; simpl in *. by subst.
    + rewrite throttled_closed by done.
      specialize (IH (Some l) (Cell true [l + delay limit]) Hflat eq_refl
                    (after_dropped _ _ _ Hlt Hrest)).
      destruct (run tie limit rest _) as [c3 log3]; simpl in *. done.
  - rewrite run_timers_fresh. rewrite throttled_flat by done.
    cbn [inThrottle timers fresh].
    destruct (throws_of k).
    + specialize (IH None fresh Hflat eq_refl (after_thrown _ _ Hinc)).
      destruct (run tie limit rest fresh) as [c3 log3]; simpl in *.
      by subst.
    + specialize (IH (Some t) (Cell true [t + delay limit]) Hflat eq_refl Hinc).
      cbn [app].
      destruct (run tie limit rest _) as [c3 log3]; simpl in *. by subst.
Qed.

Lemma returning_flat calls : forallb flat (map snd (returning calls)) = true.
Proof. induction calls as [|[t a] rest IH]; [done|]. simpl. exact IH. Qed.

Lemma returning_times calls : map fst (returning calls) = map fst calls.
Proof. induction calls as [|[t a] rest IH]; [done|]. simpl. by rewrite IH. Qed.

Lemma requests_returning calls : requests (returning calls) = calls.
Proof.
  induction calls as [|[t a] rest IH]; [done|].
  unfold requests, returning in *. simpl. by rewrite IH.
Qed.

Lemma attempts_returning calls : attempts (returning calls) = calls.
Proof.
  induction calls as [|[t a] rest IH]; [done|].
  unfold returning in *. simpl. by rewrite IH.
Qed.

Lemma gate_edge_returning tie D calls : forall last,
  gate_edge tie D last (returning calls) = leading_edge tie D last calls.
Proof.
  induction calls as [|[t a] rest IH]; intros last; [done|].
  unfold returning in *. cbn [map gate_edge leading_edge fst snd arg_of throws_of].
  destruct (match last with Some l => elapsed tie D l t | None => true end);
    by rewrite IH.
Qed.

Lemma invocations_gate_edge tie limit (ks : list (Z * call A)) :
  forallb flat (map snd ks) = true ->
  increasing (map fst ks) = true ->
  invocations tie limit ks = gate_edge tie (delay limit) None ks.
Proof.
  intros Hflat Hinc. unfold invocations.
  pose proof (run_gate_edge tie limit ks None fresh Hflat eq_refl Hinc) as H.
  pose proof (settle_log (fst (run tie limit ks fresh))) as Hs.
  destruct (run tie limit ks fresh) as [c log]; simpl in *.
  rewrite Hs, app_nil_r. done.
Qed.

Lemma invocations_leading_edge tie limit calls :
  increasing (map fst calls) = true ->
  invocations tie limit (returning calls)
  = leading_edge tie (delay limit) None calls.
Proof.
  intros Hinc. rewrite invocations_gate_edge.
  - apply gate_edge_returning.
  - apply returning_flat.
  - by rewrite returning_times.
Qed.

(** For call times that increase, two windows that are both at most zero
    make the same contract. *)
Lemma leading_edge_nonpos tie D D' calls : forall last,
  D <= 0 -> D' <= 0 ->
  after last (map fst calls) = true ->
  leading_edge tie D last calls = leading_edge tie D' last calls.
Proof.
  induction calls as [|[t a] rest IH]; intros last HD HD' Hinc; [done|].
  cbn [leading_edge]. destruct last as [l|]; simpl in Hinc.
  - apply andb_true_iff in Hinc as [Hlt Hrest]. apply Z.ltb_lt in Hlt.
    assert (E : forall X, X <= 0 -> elapsed tie X l t = true).
    { intros X HX. unfold elapsed.
      destruct tie; [apply Z.leb_le|apply Z.ltb_lt]; lia. }
    rewrite !E by done. f_equal. by apply IH.
  - f_equal. by apply IH.
Qed.

(** Inside the window opened at [t0] nothing executes, whatever the
    wrapped function would have done. *)
Lemma run_dropped tie limit t0 (ks : list (Z * call A)) :
  forallb (fun x => fst x <? t0 + delay limit) ks = true ->
  run tie limit ks (Cell true [t0 + delay limit])
  = (Cell true [t0 + delay limit], []).
Proof.
  induction ks as [|[t k] rest IH]; intros Hall; [done|].
  simpl in Hall. apply andb_true_iff in Hall as [Ht Hrest].
  apply Z.ltb_lt in Ht. cbn [run].
  rewrite run_timers_closed.
  replace (due tie t (t0 + delay limit)) with false.
  - rewrite throttled_closed by done. by rewrite IH.
  - unfold due. destruct tie; symmetry; [apply Z.leb_gt|apply Z.ltb_ge]; lia.
Qed.

(** C1 (as amended): the throttle is leading-edge only.  In a burst, that
    is a sequence of calls at increasing times that all arrive before the
    window opened by the first call has elapsed, when the wrapped function
    returns from the first call without calling the returned function
    itself, it is applied to the first call and to no other, at any later
    time.  The window is the delay the timer runs with, which is the limit
    when the limit is a number of milliseconds from 0 to [2^31 - 1]. *)
Theorem throttle_burst_leading_only tie W t0 (a0 : A) (rest : list (Z * call A)) :
  burst (delay W) ((t0, Call a0 [] false) :: rest) = true ->
  invocations tie W ((t0, Call a0 [] false) :: rest) = [(t0, a0)]
  /\ (0 <= W < 2 ^ 31 -> delay W = W).
Proof.
  intros Hb. split; [|apply delay_window].
  simpl in Hb. apply andb_true_iff in Hb as [Hinc Hwin].
  unfold invocations. cbn [run]. rewrite run_timers_fresh.
  rewrite throttled_flat by done. cbn [inThrottle throws_of arg_of timers fresh app].
  rewrite run_dropped by done. cbn [map app].
  by rewrite settle_log.
Qed.

(** C4 (as amended): for a wrapped function that returns and does not call
    the returned function itself, and calls at times [t0 < t1 < ...], the
    applications of the wrapped function are exactly those of the
    leading-edge contract for the window the timer runs with: the first
    call executes at once, a call that arrives when the window has elapsed
    since the last execution executes at once, every other call is
    dropped.  That window is the limit for every limit below [2^31]
    milliseconds. *)
Theorem throttle_leading_edge tie W calls :
  increasing (map fst calls) = true ->
  invocations tie W (returning calls) = leading_edge tie (delay W) None calls
  /\ (- 2 ^ 31 <= W < 2 ^ 31 ->
      invocations tie W (returning calls) = leading_edge tie W None calls).
Proof.
  intros Hinc. split; [by apply invocations_leading_edge|].
  intros HW. rewrite invocations_leading_edge by done.
  destruct (decide (0 <= W)) as [Hpos|Hneg].
  - by rewrite delay_window by lia.
  - rewrite delay_nonpos by lia. apply leading_edge_nonpos; [lia|lia|done].
Qed.

End ThrottleFacts.

(** The harness of the repository: window 50, calls at 0 and 30, then a call
    at 80. *)
Example throttle_0_30_80 tie :
  Throttle.invocations tie 50
    (Throttle.returning [(0, 1%nat); (30, 2%nat); (80, 3%nat)])
  = [(0, 1%nat); (80, 3%nat)].
Proof. by destruct tie. Qed.

Lemma throttle_leading_edge_witness :
  Throttle.increasing (map fst [(0, 1%nat); (30, 2%nat); (80, 3%nat)]) = true
  /\ Throttle.invocations true 50
       (Throttle.returning [(0, 1%nat); (30, 2%nat); (80, 3%nat)])
     = [(0, 1%nat); (80, 3%nat)].
Proof.
  split; [reflexivity|].
  destruct (throttle_leading_edge true 50 [(0, 1%nat); (30, 2%nat); (80, 3%nat)]
              eq_refl) as [_ H].
  rewrite H; [reflexivity|lia].
Defined.

(** C4 (counterexample): the contract is not kept for every wrapped
    function and every window.  With a window of 50, when the wrapped
    function throws at the call at 0 the call at 10 executes too; and with
    a window of [2^31], which the timer does not take, the calls at 0 and
    50 both execute.  The contract admits the first call only, in both
    cases, whichever way the host orders simultaneous tasks. *)
Lemma throttle_window_not_kept :
  (forall tie,
     Throttle.invocations tie 50
       [(0, Throttle.Call 1%nat [] true); (10, Throttle.Call 2%nat [] false)]
     = [(0, 1%nat); (10, 2%nat)]
     /\ Throttle.leading_edge tie 50 None [(0, 1%nat); (10, 2%nat)]
        = [(0, 1%nat)])
  /\ (forall tie,
     Throttle.invocations tie (2 ^ 31)
       (Throttle.returning [(0, 1%nat); (50, 2%nat)])
     = [(0, 1%nat); (50, 2%nat)]
     /\ Throttle.leading_edge tie (2 ^ 31) None [(0, 1%nat); (50, 2%nat)]
        = [(0, 1%nat)]).
Proof. split; intros []; split; vm_compute; reflexivity. Qed.

Lemma throttle_burst_leading_only_witness :
  Throttle.burst (Throttle.delay 50)
    [(0, Throttle.Call 1%nat [] false); (30, Throttle.Call 2%nat [] false)] = true
  /\ Throttle.invocations false 50
       [(0, Throttle.Call 1%nat [] false); (30, Throttle.Call 2%nat [] false)]
     = [(0, 1%nat)].
Proof.
  split; [reflexivity|].
  apply (throttle_burst_leading_only false 50 0 1%nat
           [(30, Throttle.Call 2%nat [] false)]).
  reflexivity.
Defined.

(** C1 (counterexample): window 50, calls at 0 and 30, a wrapped function
    that returns.  The two calls form a burst, and the final call, the one
    at 30, is never applied, whichever way the host orders simultaneous
    tasks. *)
Lemma throttle_no_trailing_edge :
  Throttle.burst 50 [(0, 1%nat); (30, 2%nat)] = true
  /\ (forall tie,
        Throttle.invocations tie 50 (Throttle.returning [(0, 1%nat); (30, 2%nat)])
        = [(0, 1%nat)])
  /\ (forall tie,
        ~ Throttle.trailing_edge_guarantee tie 50
            (Throttle.returning [(0, 1%nat); (30, 2%nat)])).
Proof.
  split; [reflexivity|]. split; [by intros []|].
  intros tie H. destruct (H (30, Throttle.Call 2%nat [] false) eq_refl) as [t Ht].
  replace (Throttle.invocations tie 50
             (Throttle.returning [(0, 1%nat); (30, 2%nat)]))
    with [(0, 1%nat)] in Ht by (by destruct tie).
  apply list_elem_of_singleton in Ht. discriminate Ht.
Qed.

(* --------------------------------------------------------------------- *)
(** ** The reveal engine                                                  *)
(* --------------------------------------------------------------------- *)

Section RevealFacts.
Import Dom Reveal.
Implicit Types (st : animations) (e : nat) (x : element).

(** *** Reading an element after a write *)

Lemma el_update_eq st e f : el (update e f st) e = f (el st e).
Proof. unfold el, update, get; simpl. by rewrite lookup_insert_eq. Qed.

Lemma el_update_ne st e e' f : e <> e' -> el (update e f st) e' = el st e'.
Proof. intros ?. unfold el, update, get; simpl. by rewrite lookup_insert_ne. Qed.

Lemma update_update st e f g :
  update e g (update e f st) = update e (fun x => g (f x)) st.
Proof.
  unfold update, set_document, get; simpl.
  by rewrite lookup_insert_eq, insert_insert_eq.
Qed.

(** *** Token lists *)

Lemma contains_true t (l : list string) : contains t l = true <-> t ∈ l.
Proof. unfold contains. apply bool_decide_eq_true. Qed.

Lemma contains_add t (l : list string) : contains t (add t l) = true.
Proof.
  unfold add. destruct (contains t l) eqn:E; [done|].
  apply contains_true. set_solver.
Qed.

Lemma contains_add_mono t u (l : list string) :
  contains u l = true -> contains u (add t l) = true.
Proof.
  unfold add. destruct (contains t l); [done|].
  rewrite !contains_true. set_solver.
Qed.

Lemma add_add t (l : list string) : add t (add t l) = add t l.
Proof. unfold add at 1. by rewrite contains_add. Qed.

Lemma NoDup_add t (l : list string) : NoDup l -> NoDup (add t l).
Proof.
  intros Hl. unfold add. destruct (contains t l) eqn:E; [done|].
  apply NoDup_app. split_and!; [done| |apply NoDup_singleton].
  intros u Hu Ht. apply list_elem_of_singleton in Ht as ->.
  apply contains_true in Hu. congruence.
Qed.

Lemma occurrences_absent t (l : list string) :
  t ∉ l -> occurrences t l = 0%nat.
Proof.
  unfold occurrences. induction l as [|u l IH]; intros Hin; [done|].
  apply not_elem_of_cons in Hin as [Hne Hin].
  rewrite filter_cons_False by (intros ->; done). by apply IH.
Qed.

Lemma occurrences_NoDup t (l : list string) :
  NoDup l -> t ∈ l -> occurrences t l = 1%nat.
Proof.
  induction 1 as [|u l Hu Hl IH]; intros Hin.
  - by apply elem_of_nil in Hin.
  - unfold occurrences. apply elem_of_cons in Hin as [->|Hin].
    + rewrite filter_cons_True by done. simpl. f_equal.
      by apply occurrences_absent.
    + rewrite filter_cons_False by (intros ->; done). by apply IH.
Qed.

(** *** [showElement] *)

Lemma visible_showElement st e : visible (showElement e st) e = true.
Proof. unfold visible, showElement. rewrite el_update_eq. apply contains_add. Qed.

Lemma visible_showElement_mono st e e' :
  visible st e' = true -> visible (showElement e st) e' = true.
Proof.
  unfold visible, showElement. intros H.
  destruct (decide (e = e')) as [->|Hne].
  - rewrite el_update_eq. simpl. by apply contains_add_mono.
  - by rewrite el_update_ne.
Qed.

(** C8: revealing an element twice leaves it exactly as revealing it once
    did.  The element carries the visible class, and on an element whose
    class list is a token set the class is written exactly once. *)
Theorem showElement_twice st e :
  NoDup (classList (el st e)) ->
  showElement e (showElement e st) = showElement e st
  /\ visible (showElement e st) e = true
  /\ occurrences "is-visible"
       (classList (el (showElement e (showElement e st)) e)) = 1%nat.
Proof.
  intros Hnd.
  assert (Hidem : showElement e (showElement e st) = showElement e st).
  { unfold showElement. rewrite update_update. unfold update. f_equal. f_equal.
    unfold with_classList; simpl. by rewrite add_add. }
  split; [exact Hidem|]. split; [apply visible_showElement|].
  rewrite Hidem. unfold showElement. rewrite el_update_eq. simpl.
  apply occurrences_NoDup; [by apply NoDup_add|].
  apply contains_true, contains_add.
Qed.

(** *** Registration *)

Lemma prepareElement_registered st e ty d :
  e ∈ animatedElements st ->
  prepareElement (Some e) ty d st
  = if Number.truthy d then update e (with_animationDelay d) st else st.
Proof. intros H. unfold prepareElement. by rewrite bool_decide_eq_true_2. Qed.

Lemma prepareElement_registers st e ty d :
  e ∈ animatedElements (prepareElement (Some e) ty d st).
Proof.
  unfold prepareElement. case_bool_decide as Hin.
  - by destruct (Number.truthy d).
  - destruct (negb (truthy_str _)), (Number.truthy d); simpl;
      destruct (observer st); simpl;
      apply elem_of_app; right; apply list_elem_of_singleton; done.
Qed.

Lemma prepareElement_marked st e ty d :
  truthy_str (animate (el st e)) = true ->
  animate (el (prepareElement (Some e) ty d st) e) = animate (el st e).
Proof.
  intros Hmark. unfold prepareElement. case_bool_decide.
  - destruct (Number.truthy d); [|done]. by rewrite el_update_eq.
  - rewrite Hmark. simpl.
    destruct (Number.truthy d); simpl; destruct (observer st);
      unfold el, update, get; simpl; rewrite ?lookup_insert_eq; done.
Qed.

Lemma prepareElement_fresh st e ty d :
  e ∉ animatedElements st ->
  animatedElements (prepareElement (Some e) ty d st) = animatedElements st ++ [e]
  /\ (truthy_str (animate (el st e)) = false ->
      animate (el (prepareElement (Some e) ty d st) e)
      = Some (if bool_decide (ty = "") then "text" else ty)).
Proof.
  intros Hin. unfold prepareElement. rewrite bool_decide_eq_false_2 by done.
  split.
  - destruct (negb (truthy_str _)), (Number.truthy d); simpl;
      by destruct (observer st).
  - intros ->. simpl.
    destruct (Number.truthy d); simpl; destruct (observer st);
      unfold el, update, get; simpl; rewrite ?lookup_insert_eq; done.
Qed.

(** C7 (as amended): registration is idempotent.  After an element has
    been matched a first time (type [ty1]), a second match (type [ty2])
    finds it registered: it is not added to the registry, to the pending
    queue or to the observer again, its category marker and its classes
    stay as they are, no other element changes, and only its delay is
    rewritten (when the new delay is not zero).  An element that came
    unregistered has been added once.  Its category is that of the first
    match when it came without a category marker; a marker it carried
    before the first match, as one written in the markup, is kept, and no
    match decides the category. *)
Theorem registration_idempotent st e ty1 d1 ty2 d2 :
  let st1 := prepareElement (Some e) ty1 d1 st in
  let st2 := prepareElement (Some e) ty2 d2 st1 in
  e ∈ animatedElements st1
  /\ animatedElements st2 = animatedElements st1
  /\ pendingElements st2 = pendingElements st1
  /\ observer st2 = observer st1
  /\ animate (el st2 e) = animate (el st1 e)
  /\ classList (el st2 e) = classList (el st1 e)
  /\ loading (el st2 e) = loading (el st1 e)
  /\ animationDelay (el st2 e)
     = (if Number.truthy d2 then Some d2 else animationDelay (el st1 e))
  /\ (forall e', e' <> e -> el st2 e' = el st1 e')
  /\ (e ∉ animatedElements st ->
      animatedElements st2 = animatedElements st ++ [e])
  /\ (e ∉ animatedElements st -> truthy_str (animate (el st e)) = false ->
      animate (el st2 e) = Some (if bool_decide (ty1 = "") then "text" else ty1))
  /\ (truthy_str (animate (el st e)) = true ->
      animate (el st2 e) = animate (el st e)).
Proof.
  intros st1 st2.
  pose proof (prepareElement_registers st e ty1 d1) as Hreg. fold st1 in Hreg.
  assert (Hst2 : st2 = if Number.truthy d2
                       then update e (with_animationDelay d2) st1 else st1)
    by (by apply prepareElement_registered).
  assert (Hframe :
    animatedElements st2 = animatedElements st1
    /\ animate (el st2 e) = animate (el st1 e)).
  { rewrite Hst2. destruct (Number.truthy d2); [|done].
    by rewrite el_update_eq. }
  destruct Hframe as [Hset Hcat].
  split_and!; try done.
  - rewrite Hst2. by destruct (Number.truthy d2).
  - rewrite Hst2. by destruct (Number.truthy d2).
  - rewrite Hst2. destruct (Number.truthy d2); [|done]. by rewrite el_update_eq.
  - rewrite Hst2. destruct (Number.truthy d2); [|done]. by rewrite el_update_eq.
  - rewrite Hst2. destruct (Number.truthy d2); [|done]. by rewrite el_update_eq.
  - intros e' Hne. rewrite Hst2. destruct (Number.truthy d2); [|done].
    by rewrite el_update_ne.
  - intros Hin. rewrite Hset. by apply prepareElement_fresh.
  - intros Hin Hmark. rewrite Hcat. by apply prepareElement_fresh.
  - intros Hmark. rewrite Hcat. by apply prepareElement_marked.
Qed.

(** C7 (counterexample): an element whose markup carries
    [data-animate="card"] is matched as a text block first and as an image
    afterwards.  It is registered once, and its category is the one of the
    markup, not the one of the first match. *)
Lemma markup_category_wins :
  let st1 := prepareElement (Some 0%nat) "text" Number.zero marked_in_markup in
  let st2 := prepareElement (Some 0%nat) "image" Number.zero st1 in
  (0%nat ∉ animatedElements marked_in_markup)
  /\ animatedElements st1 = [0%nat]
  /\ animatedElements st2 = [0%nat]
  /\ animate (el st1 0) = Some "card"
  /\ animate (el st2 0) = Some "card"
  /\ animate (el st2 0) <> Some "text".
Proof.
  cbv zeta. split; [apply not_elem_of_nil|].
  split_and!; [vm_compute; reflexivity..|vm_compute; discriminate].
Qed.

(** *** Degraded mode *)

Lemma showEach_frame (l : list nat) : forall st,
  let st' := foldl (fun s e => showElement e s) st l in
  animatedElements st' = animatedElements st
  /\ pendingElements st' = pendingElements st
  /\ observer st' = observer st.
Proof.
  induction l as [|a l IH]; intros st; [done|]. simpl.
  destruct (IH (showElement a st)) as (-> & -> & ->). done.
Qed.

Lemma showEach_mono (l : list nat) e : forall st,
  visible st e = true ->
  visible (foldl (fun s e => showElement e s) st l) e = true.
Proof.
  induction l as [|a l IH]; intros st Hv; [done|]. simpl.
  by apply IH, visible_showElement_mono.
Qed.

Lemma showEach_visible (l : list nat) e : forall st,
  e ∈ l -> visible (foldl (fun s e => showElement e s) st l) e = true.
Proof.
  induction l as [|a l IH]; intros st Hin; [by apply elem_of_nil in Hin|].
  simpl. apply elem_of_cons in Hin as [->|Hin]; [|by apply IH].
  apply showEach_mono, visible_showElement.
Qed.

(** C5: when reduced motion is active or the host has no intersection
    observer, and no observer exists yet (as at initialisation), then right
    after [setupIntersectionObserver] every registered element is visible,
    the pending queue is empty and there is still no observer. *)
Theorem degraded_setup_reveals_all st :
  prefersReducedMotion st || negb (supportsObserver st) = true ->
  observer st = None ->
  let st' := setupIntersectionObserver st in
  (forall e, e ∈ animatedElements st -> visible st' e = true)
  /\ animatedElements st' = animatedElements st
  /\ pendingElements st' = []
  /\ observer st' = None.
Proof.
  intros Hdeg Hobs st'. subst st'. unfold setupIntersectionObserver.
  rewrite Hdeg. unfold showAll.
  destruct (showEach_frame (animatedElements st) st) as (Hset & _ & Ho).
  split_and!; simpl; [|done|done|by rewrite Ho].
  intros e Hin. unfold visible, el; simpl.
  by apply (showEach_visible (animatedElements st) e st).
Qed.

(** *** Visibility along a trace *)

Lemma classList_update_keep st e e' f :
  (forall x, classList (f x) = classList x) ->
  classList (el (update e f st) e') = classList (el st e').
Proof.
  intros Hf. destruct (decide (e = e')) as [->|Hne].
  - by rewrite el_update_eq.
  - by rewrite el_update_ne.
Qed.

Lemma prepareElement_classList element ty d st e' :
  classList (el (prepareElement element ty d st) e') = classList (el st e').
Proof.
  destruct element as [e|]; [|done]. unfold prepareElement.
  case_bool_decide.
  - destruct (Number.truthy d); [|done]. by apply classList_update_keep.
  - destruct (negb (truthy_str _)), (Number.truthy d); simpl;
      destruct (observer st); unfold el, update, get; simpl;
      (destruct (decide (e = e')) as [->|Hne];
       [by rewrite ?lookup_insert_eq; simpl; rewrite ?lookup_insert_eq
       |by rewrite ?lookup_insert_ne by done]).
Qed.

Lemma observerCallback_grows entries : forall st,
  grows st (observerCallback entries st).
Proof.
  unfold observerCallback.
  induction entries as [|[t b] entries IH]; intros st e Hv; [done|]. simpl.
  apply IH. destruct b; [|done]. simpl.
  pose proof (visible_showElement_mono st t e Hv) as Hs.
  by destruct (observer st).
Qed.

Lemma setup_grows st : grows st (setupIntersectionObserver st).
Proof.
  intros e Hv. unfold setupIntersectionObserver.
  destruct (prefersReducedMotion st || negb (supportsObserver st)).
  - unfold visible, el; simpl.
    by apply (showEach_mono (animatedElements st) e st).
  - done.
Qed.

Lemma step_grows st ev : is_reset ev = false -> grows st (step st ev).
Proof.
  intros Hev e Hv. destruct ev as [element ty d| |entries|[|]]; simpl.
  - unfold visible. by rewrite prepareElement_classList.
  - by apply setup_grows.
  - unfold deliver. destruct (observer st); [|done].
    by apply observerCallback_grows.
  - unfold onChange, showAll. simpl. by apply showEach_mono.
  - done.
Qed.

Lemma run_grows evs : forall st, no_reset evs = true -> grows st (run evs st).
Proof.
  induction evs as [|ev evs IH]; intros st Hn e Hv; [done|].
  simpl in Hn. apply andb_true_iff in Hn as [Hev Hn].
  apply negb_true_iff in Hev. simpl.
  apply IH; [done|]. by apply step_grows.
Qed.

Lemma reveals_visible evs e : forall st,
  no_reset evs = true -> visible st e = true -> reveals e st evs = 0%nat.
Proof.
  induction evs as [|ev evs IH]; intros st Hn Hv; [done|].
  simpl in Hn. apply andb_true_iff in Hn as [Hev Hn].
  apply negb_true_iff in Hev. simpl. rewrite Hv. simpl.
  apply IH; [done|]. by apply step_grows.
Qed.

(** C2 (as amended): as long as the reduced-motion preference is not
    turned off, the transition from pending to visible is one-way: a
    visible element stays visible under every sequence of registrations,
    scheduler set-ups, intersection reports and switches to reduced motion,
    and along such a sequence an element becomes visible at most once. *)
Theorem visible_until_reset st evs e :
  no_reset evs = true ->
  (visible st e = true -> visible (run evs st) e = true)
  /\ (reveals e st evs <= 1)%nat.
Proof.
  intros Hn. split; [by apply run_grows|].
  revert st. induction evs as [|ev evs IH]; intros st; [simpl; lia|].
  simpl in Hn. apply andb_true_iff in Hn as [Hev Hn]. simpl.
  destruct (negb (visible st e) && visible (step st ev) e) eqn:E.
  - apply andb_true_iff in E as [_ Hv].
    rewrite (reveals_visible evs e (step st ev)) by done. lia.
  - specialize (IH Hn (step st ev)). lia.
Qed.

(** *** Reveal delays *)

Lemma prepareElement_delay st e ty d :
  animationDelay (el (prepareElement (Some e) ty d st) e) = assigned d st e.
Proof.
  unfold prepareElement, assigned. case_bool_decide.
  - destruct (Number.truthy d); [|done]. by rewrite el_update_eq.
  - destruct (negb (truthy_str _)), (Number.truthy d); simpl;
      destruct (observer st); unfold el, update, get; simpl;
      by rewrite ?lookup_insert_eq; simpl; rewrite ?lookup_insert_eq.
Qed.

Lemma prepareElement_delay_ne st e e' ty d :
  e <> e' ->
  animationDelay (el (prepareElement (Some e) ty d st) e')
  = animationDelay (el st e').
Proof.
  intros Hne. unfold prepareElement. case_bool_decide.
  - destruct (Number.truthy d); [|done]. by rewrite el_update_ne.
  - destruct (negb (truthy_str _)), (Number.truthy d); simpl;
      destruct (observer st); unfold el, update, get; simpl;
      by rewrite ?lookup_insert_ne by done.
Qed.

Lemma forEachFrom_delay_other f g (Hg : passes f g) (l : list nat) e :
  forall k st, e ∉ l ->
    animationDelay (el (forEachFrom k g l st) e) = animationDelay (el st e).
Proof.
  induction l as [|a l IH]; intros k st Hin; [done|]. simpl.
  apply not_elem_of_cons in Hin as [Hne Hin].
  rewrite IH by done. by apply Hg.
Qed.

Lemma forEachFrom_delay f g (Hg : passes f g) (l : list nat) :
  forall k st i e, NoDup l -> l !! i = Some e ->
    animationDelay (el (forEachFrom k g l st) e) = assigned (f (k + i)%nat) st e.
Proof.
  induction l as [|a l IH]; intros k st i e Hnd Hi; [done|].
  apply NoDup_cons in Hnd as [Ha Hnd]. simpl. destruct i as [|i]; simpl in Hi.
  - injection Hi as ->.
    rewrite (forEachFrom_delay_other f g Hg) by done.
    rewrite Nat.add_0_r. by apply Hg.
  - assert (a <> e) by (intros ->; apply Ha; by eapply list_elem_of_lookup_2).
    rewrite (IH (S k) (g k a st) i e) by done.
    replace (S k + i)%nat with (k + S i)%nat by lia.
    unfold assigned. destruct (Number.truthy (f (k + S i)%nat)); [done|].
    by apply Hg.
Qed.

Lemma passes_prepareElement ty f :
  passes f (fun index element => prepareElement (Some element) ty (f index)).
Proof.
  intros i e st. split; [apply prepareElement_delay|].
  intros e' Hne. by apply prepareElement_delay_ne.
Qed.

Lemma passes_image :
  passes (fun index =>
            Number.min (Number.mul (number index) (Number.decimal 2 100))
              (Number.decimal 2 10))
    (fun index image s =>
       let s1 :=
         if negb (bool_decide (is_Some (loading (el s image))))
         then update image
                (with_loading (if (index <? 2)%nat then "eager" else "lazy")) s
         else s in
       prepareElement (Some image) "image"
         (Number.min (Number.mul (number index) (Number.decimal 2 100))
            (Number.decimal 2 10)) s1).
Proof.
  intros i e st. cbv zeta. split.
  - rewrite prepareElement_delay. unfold assigned.
    destruct (Number.truthy _); [done|].
    destruct (negb (bool_decide _)); [|done]. by rewrite el_update_eq.
  - intros e' Hne. rewrite prepareElement_delay_ne by done.
    destruct (negb (bool_decide _)); [|done]. by rewrite el_update_ne.
Qed.

Lemma prepareCardGroup_delay (p : page) selector type stagger st index element :
  NoDup (querySelectorAll p selector) ->
  querySelectorAll p selector !! index = Some element ->
  animationDelay (el (prepareCardGroup p (selector, type, stagger) st) element)
  = assigned (Number.mul (number index) stagger) st element.
Proof.
  intros Hnd Hi. unfold prepareCardGroup, forEach.
  exact (forEachFrom_delay (fun index => Number.mul (number index) stagger)
           _ (passes_prepareElement type _) _ 0%nat st index element Hnd Hi).
Qed.

Lemma prepareCardGroup_delay_other (p : page) group st element :
  element ∉ querySelectorAll p (fst (fst group)) ->
  animationDelay (el (prepareCardGroup p group st) element)
  = animationDelay (el st element).
Proof.
  destruct group as [[selector type] stagger]. intros Hin.
  unfold prepareCardGroup, forEach.
  exact (forEachFrom_delay_other
           (fun index => Number.mul (number index) stagger)
           _ (passes_prepareElement type _) _ element 0%nat st Hin).
Qed.

Lemma cardGroups_delay_other (p : page) groups element : forall st,
  (forall g, g ∈ groups -> element ∉ querySelectorAll p (fst (fst g))) ->
  animationDelay
    (el (foldl (fun s group => prepareCardGroup p group s) st groups) element)
  = animationDelay (el st element).
Proof.
  induction groups as [|g groups IH]; intros st Hout; [done|]. simpl.
  rewrite IH.
  - apply prepareCardGroup_delay_other, Hout. by left.
  - intros g' Hg'. apply Hout. by right.
Qed.

(** An element that one group only matches takes its delay from that
    group, whatever the other groups do. *)
Lemma prepareCards_delay (p : page) st k selector type stagger index element :
  groupedSelectors !! k = Some (selector, type, stagger) ->
  NoDup (querySelectorAll p selector) ->
  querySelectorAll p selector !! index = Some element ->
  (forall k' g, k' <> k -> groupedSelectors !! k' = Some g ->
     element ∉ querySelectorAll p (fst (fst g))) ->
  animationDelay (el (prepareCards p st) element)
  = assigned (Number.mul (number index) stagger) st element.
Proof.
  intros Hk Hnd Hi Hout. unfold prepareCards.
  rewrite <- (take_drop_middle _ _ _ Hk), foldl_app. cbn [foldl]. cbv beta.
  rewrite cardGroups_delay_other.
  - rewrite (prepareCardGroup_delay p selector type stagger _ index) by done.
    unfold assigned.
    destruct (Number.truthy _); [done|].
    apply cardGroups_delay_other.
    intros g Hg. apply list_elem_of_lookup in Hg as [j Hj].
    pose proof (lookup_lt_Some _ _ _ Hj) as Hlt.
    rewrite length_take in Hlt.
    rewrite lookup_take_lt in Hj by lia.
    apply (Hout j); [lia|done].
  - intros g Hg. apply list_elem_of_lookup in Hg as [j Hj].
    rewrite lookup_drop in Hj. apply (Hout (S k + j)%nat); [lia|done].
Qed.

(** C3 (as amended): the delay passed for the element at position [index]
    of the matched list is the binary64 product [(index mod 5) * 0.05] for
    text blocks; the binary64 product [index * stagger] for the cards of a
    group, without a cycle, where the stagger is [0.1] for project cards
    and [0.08] for the nine other groups; and
    [Math.min(index * 0.02, 0.2)] for images, a cap and not a cycle.  The
    element carries that delay afterwards; a delay of zero is not written,
    so the element keeps the delay it had.  The products are those of
    JavaScript's arithmetic, rounded to the nearest binary64 number. *)
Theorem reveal_delays (p : page) st :
  (forall index element,
      NoDup (querySelectorAll p (String.concat "," textSelectors)) ->
      querySelectorAll p (String.concat "," textSelectors) !! index
        = Some element ->
      animationDelay (el (prepareTextBlocks p st) element)
      = assigned (Number.mul (number (index mod 5)) (Number.decimal 5 100))
          st element)
  /\ (forall selector type stagger index element,
      NoDup (querySelectorAll p selector) ->
      querySelectorAll p selector !! index = Some element ->
      animationDelay
        (el (prepareCardGroup p (selector, type, stagger) st) element)
      = assigned (Number.mul (number index) stagger) st element)
  /\ (forall k selector type stagger index element,
      groupedSelectors !! k = Some (selector, type, stagger) ->
      NoDup (querySelectorAll p selector) ->
      querySelectorAll p selector !! index = Some element ->
      (forall k' g, k' <> k -> groupedSelectors !! k' = Some g ->
         element ∉ querySelectorAll p (fst (fst g))) ->
      animationDelay (el (prepareCards p st) element)
      = assigned (Number.mul (number index) stagger) st element)
  /\ (forall group, group ∈ groupedSelectors ->
      snd group = (if bool_decide (fst (fst group) = ".project-card")
                   then Number.decimal 1 10 else Number.decimal 8 100))
  /\ (forall index element,
      NoDup (querySelectorAll p "img") ->
      querySelectorAll p "img" !! index = Some element ->
      animationDelay (el (prepareImages p st) element)
      = assigned (Number.min (Number.mul (number index) (Number.decimal 2 100))
                    (Number.decimal 2 10)) st element).
Proof.
  split_and!.
  - intros i e Hnd Hi. unfold prepareTextBlocks, forEach.
    exact (forEachFrom_delay
             (fun index =>
                Number.mul (number (index mod 5)) (Number.decimal 5 100))
             _ (passes_prepareElement "text" _) _ 0%nat st i e Hnd Hi).
  - intros sel ty stagger i e Hnd Hi. by apply prepareCardGroup_delay.
  - intros k sel ty stagger i e Hk Hnd Hi Hout.
    by apply (prepareCards_delay p st k sel ty).
  - intros group Hg. unfold groupedSelectors in Hg.
    repeat (apply elem_of_cons in Hg as [->|Hg]; [reflexivity|]).
    by apply elem_of_nil in Hg.
  - intros i e Hnd Hi. unfold prepareImages, forEach.
    exact (forEachFrom_delay _ _ passes_image _ 0%nat st i e Hnd Hi).
Qed.

(** The products are not those of decimal arithmetic: the fourth text
    block of a run, the fourth project card and the thirty-sixth card of
    another group carry 0.15000000000000002, 0.30000000000000004 and
    2.8000000000000003 seconds. *)
Remark delays_are_binary64 :
  Number.mul (number (3 mod 5)) (Number.decimal 5 100)
    = S754_finite false 5404319552844596 (-55)
  /\ Number.decimal 15 100 = S754_finite false 5404319552844595 (-55)
  /\ Number.mul (number 3) (Number.decimal 1 10)
     = S754_finite false 5404319552844596 (-54)
  /\ Number.decimal 3 10 = S754_finite false 5404319552844595 (-54)
  /\ Number.mul (number 35) (Number.decimal 8 100)
     = S754_finite false 6305039478318695 (-51)
  /\ Number.decimal 28 10 = S754_finite false 6305039478318694 (-51).
Proof. vm_compute. done. Qed.

End RevealFacts.

Lemma showElement_twice_witness :
  NoDup (Dom.classList (Reveal.el (Reveal.initial false true) 0%nat))
  /\ Reveal.showElement 0 (Reveal.showElement 0 (Reveal.initial false true))
     = Reveal.showElement 0 (Reveal.initial false true).
Proof.
  split; [apply NoDup_nil_2|].
  apply (showElement_twice (Reveal.initial false true) 0%nat). apply NoDup_nil_2.
Defined.

(** C2 (counterexample): after the first intersection report the element is
    visible; turning reduced motion on and off again returns it to pending;
    the next report makes it visible a second time. *)
Lemma visible_twice_across_reset :
  Reveal.visible (Reveal.run (take 1 seen_reset_seen) one_element) 0 = true
  /\ Reveal.visible (Reveal.run (take 3 seen_reset_seen) one_element) 0 = false
  /\ Reveal.visible (Reveal.run seen_reset_seen one_element) 0 = true
  /\ Reveal.reveals 0 one_element seen_reset_seen = 2%nat.
Proof. vm_compute. done. Qed.

Lemma visible_until_reset_witness :
  Reveal.no_reset [Reveal.Intersect [(0%nat, true)]; Reveal.MotionChange true] = true
  /\ Reveal.visible
       (Reveal.run [Reveal.Intersect [(0%nat, true)]; Reveal.MotionChange true]
          (Reveal.showElement 0 one_element)) 0 = true.
Proof.
  split; [reflexivity|].
  apply (visible_until_reset (Reveal.showElement 0 one_element)
           [Reveal.Intersect [(0%nat, true)]; Reveal.MotionChange true] 0%nat);
    reflexivity.
Defined.

Lemma degraded_setup_reveals_all_witness :
  Reveal.pendingElements two_registered = [0%nat; 1%nat]
  /\ Reveal.visible (Reveal.setupIntersectionObserver two_registered) 1 = true
  /\ Reveal.pendingElements (Reveal.setupIntersectionObserver two_registered) = []
  /\ Reveal.observer (Reveal.setupIntersectionObserver two_registered) = None.
Proof.
  split; [reflexivity|].
  destruct (degraded_setup_reveals_all two_registered eq_refl eq_refl)
    as (Hvis & _ & Hpending & Hobs).
  split; [|by split].
  apply Hvis. apply elem_of_cons. right. apply elem_of_cons. by left.
Defined.

(** The delays of the twelve images as the program computes them: no
    delay on the first image, then the binary64 products [index * 0.02] up
    to the eleventh image, whose product is the number [0.2] itself, and
    the cap [0.2] on the twelfth. *)
Lemma gallery_delays :
  map (fun i => Dom.animationDelay (Reveal.el gallery i)) (seq 0 12)
  = [None;
     Some (S754_finite false 5764607523034235 (-58));
     Some (S754_finite false 5764607523034235 (-57));
     Some (S754_finite false 8646911284551352 (-57));
     Some (S754_finite false 5764607523034235 (-56));
     Some (S754_finite false 7205759403792794 (-56));
     Some (S754_finite false 8646911284551352 (-56));
     Some (S754_finite false 5044031582654956 (-55));
     Some (S754_finite false 5764607523034235 (-55));
     Some (S754_finite false 6485183463413514 (-55));
     Some (Number.decimal 2 10);
     Some (Number.decimal 2 10)].
Proof. vm_compute. reflexivity. Qed.

(** The same delays as real numbers. *)
Lemma gallery_delay i :
  (i < 12)%nat ->
  Reveal.delay_of gallery i
  = nth i [0; 5764607523034235 # 288230376151711744;
           5764607523034235 # 144115188075855872;
           8646911284551352 # 144115188075855872;
           5764607523034235 # 72057594037927936;
           7205759403792794 # 72057594037927936;
           8646911284551352 # 72057594037927936;
           5044031582654956 # 36028797018963968;
           5764607523034235 # 36028797018963968;
           6485183463413514 # 36028797018963968;
           7205759403792794 # 36028797018963968;
           7205759403792794 # 36028797018963968]%Q 0%Q.
Proof.
  intros Hi. do 12 (destruct i as [|i]; [vm_compute; reflexivity|]). lia.
Qed.

(** Write the numerals of a hypothesis about delays as fractions. *)
Ltac norm H :=
  unfold inject_Z in H; cbn [nth] in H;
  repeat match type of H with
         | context [Z.of_nat ?n] =>
             let v := eval vm_compute in (Z.of_nat n) in
             change (Z.of_nat n) with v in H
         end.

(** C3 (counterexample): on a page with twelve images no base delay,
    increment and cycle length reproduce, as real numbers, the delays the
    images carry: the delays climb by about 0.02 up to the eleventh image
    and stay at the cap afterwards. *)
Lemma image_delays_not_cyclic :
  ~ exists (base inc : Q) (N : nat),
      (0 < N)%nat
      /\ forall i, (i < 12)%nat ->
           (Reveal.delay_of gallery i
            == base + inject_Z (Z.of_nat (i mod N)) * inc)%Q.
Proof.
  intros (base & inc & N & HN & H).
  assert (Hbase : (base == 0)%Q).
  { pose proof (H 0%nat ltac:(lia)) as H0.
    rewrite gallery_delay, Nat.Div0.mod_0_l in H0 by lia.
    norm H0. lra. }
  destruct (decide (N < 12)%nat) as [Hlt|Hge].
  - pose proof (H N Hlt) as HNN.
    rewrite gallery_delay, Nat.Div0.mod_same in HNN by lia.
    do 12 (destruct N as [|N]; [norm HNN; lra || lia|]). lia.
  - pose proof (H 1%nat ltac:(lia)) as H1.
    pose proof (H 10%nat ltac:(lia)) as H10.
    pose proof (H 11%nat ltac:(lia)) as H11.
    rewrite gallery_delay, Nat.mod_small in H1, H10, H11 by lia.
    norm H1. norm H10. norm H11. lra.
Qed.

Lemma reveal_delays_witness :
  Dom.animationDelay (Reveal.el gallery 11) = Some (Number.decimal 2 10).
Proof.
  destruct (reveal_delays twelve_images (Reveal.initial false true))
    as (_ & _ & _ & _ & Himg).
  unfold gallery. rewrite (Himg 11%nat 11%nat); [reflexivity| |reflexivity].
  simpl. apply (bool_decide_unpack _). vm_compute. exact I.
Defined.
(* --------------------------------------------------------------------- *)
(** ** The navigation overlay                                             *)
(* --------------------------------------------------------------------- *)

Section OverlayFacts.
Import Dom Overlay.
Implicit Types (n : nav) (a : action).

Lemma synced_sync n : synced (syncOverlayState n).
Proof. done. Qed.

(** Writing the panels leaves the agreement alone. *)
Lemma synced_with_submenus f n : synced n -> synced (with_submenus f n).
Proof. done. Qed.

(** A listener that does not write the overlay's class list leaves the
    attributes in agreement. *)
Lemma listener_silent a (l : nav -> nav * bool) n :
  l ∈ listeners a -> snd (l n) = false -> synced n -> synced (fst (l n)).
Proof.
  intros Hl. destruct a; simpl in Hl;
    repeat (apply elem_of_cons in Hl as [->|Hl]);
    try (by apply elem_of_nil in Hl);
    unfold escapeNav, closeNav, onEscape, toggleNav, close,
      openSubmenu, backSubmenu;
    repeat (destruct (contains _ _) || destruct (flip _ _)); simpl; done.
Qed.

Lemma react_synced a (l : nav -> nav * bool) n :
  l ∈ listeners a -> synced n -> synced (react (l n)).
Proof.
  intros Hl Hn. unfold react. destruct (snd (l n)) eqn:E.
  - apply synced_sync.
  - by apply (listener_silent a l n Hl E).
Qed.

Lemma perform_synced a n : synced n -> synced (perform n a).
Proof.
  unfold perform.
  assert (H : forall ls, (forall l, l ∈ ls -> l ∈ listeners a) ->
                forall m, synced m ->
                  synced (foldl (fun m l => react (l m)) m ls)).
  { induction ls as [|l ls IH]; intros Hsub m Hm; [done|]. simpl.
    apply IH; [intros l' Hl'; apply Hsub; by right|].
    apply (react_synced a); [apply Hsub; by left|done]. }
  by apply H.
Qed.

(** C9: the reaction to a change of the overlay's class list leaves the
    class list as it is and sets the hamburger's [aria-expanded] to the
    overlay's open state, the overlay's [aria-hidden] to its negation and
    the scroll lock exactly when open.  Hence, once the attributes agree
    with the overlay's state, as they do after the reaction that
    [setupHamburgerMenu] runs itself, they agree after every task, whichever
    code path wrote the class list. *)
Theorem overlay_attributes_agree n (acts : list action) :
  let n' := syncOverlayState n in
  overlay_classList n' = overlay_classList n
  /\ aria_expanded n' = Some (String_of_bool (isOpen n))
  /\ aria_hidden n' = Some (String_of_bool (negb (isOpen n)))
  /\ overflow n' = (if isOpen n then "hidden" else "")
  /\ synced (run acts n').
Proof.
  simpl. split_and!; try done.
  generalize (synced_sync n). generalize (syncOverlayState n).
  unfold run. induction acts as [|a acts IH]; intros m Hm; [done|]. simpl.
  by apply IH, perform_synced.
Qed.

End OverlayFacts.

(* --------------------------------------------------------------------- *)
(** ** The session visit tracker                                          *)
(* --------------------------------------------------------------------- *)

Section SessionFacts.
Import Dom Session.
Implicit Types (w : window).

Ltac host_simpl :=
  cbn [hasDOM protocol name items getItem_throws setItem_throws
       fst snd negb orb] in *.

Lemma first_call w :
  hasDOM w = true -> unvisited w ->
  fst (isFirstSessionLoad w) = true
  /\ visited (snd (isFirstSessionLoad w))
  /\ same_host w (snd (isFirstSessionLoad w)).
Proof.
  intros Hdom [Hkey Hname]. destruct w as [dom proto nm its gt st].
  host_simpl. subst dom.
  unfold isFirstSessionLoad, visited, same_host, markWithWindowName,
    getItem, setItem; host_simpl.
  rewrite (bool_decide_eq_false_2 _ Hname), Hkey.
  destruct (bool_decide (proto = Some "file:")) eqn:Ef; host_simpl.
  - rewrite Ef. done.
  - destruct gt; host_simpl; [by rewrite Ef|].
    cbn [truthy_str]. host_simpl.
    destruct st; host_simpl; rewrite Ef; host_simpl; [done|].
    by rewrite lookup_insert_eq.
Qed.

Lemma later_call w :
  hasDOM w = true -> visited w -> isFirstSessionLoad w = (false, w).
Proof.
  intros Hdom Hv. destruct w as [dom proto nm its gt st].
  host_simpl. subst dom.
  unfold isFirstSessionLoad, visited, markWithWindowName, getItem, setItem in *;
    host_simpl.
  destruct (bool_decide (proto = Some "file:")) eqn:Ef; host_simpl.
  - subst nm. by rewrite bool_decide_eq_true_2.
  - destruct gt; host_simpl.
    + subst nm. by rewrite bool_decide_eq_true_2.
    + destruct st; host_simpl.
      * destruct Hv as [-> ->]. cbn [truthy_str]. host_simpl.
        by rewrite bool_decide_eq_true_2.
      * by rewrite Hv.
Qed.

Lemma later_calls n : forall w,
  hasDOM w = true -> visited w -> calls n w = (repeat false n, w).
Proof.
  induction n as [|n IH]; intros w Hdom Hv; [done|]. simpl.
  rewrite later_call by done. by rewrite IH.
Qed.

Lemma new_session_unvisited w : unvisited (new_session w).
Proof. split; [apply lookup_empty|done]. Qed.


End SessionFacts.


(** Emptying the session storage alone does not start a new session on the
    fallback path: the marker lives in the name of the browsing context. *)
Remark fallback_keeps_marker :
  let w := snd (Session.isFirstSessionLoad local_file) in
  fst (Session.isFirstSessionLoad
         (Session.Window (Session.hasDOM w) (Session.protocol w) (Session.name w)
            ∅ (Session.getItem_throws w) (Session.setItem_throws w))) = false.
Proof. reflexivity. Qed.

(* --------------------------------------------------------------------- *)
(** ** The hero carousel                                                  *)
(* --------------------------------------------------------------------- *)

Section CarouselFacts.
Import Dom Carousel.
Implicit Types (c : carousel) (l : list (list string)).

Lemma contains_remove t (x : list string) : contains t (remove t x) = false.
Proof.
  unfold contains, remove. apply bool_decide_eq_false.
  intros H. apply list_elem_of_filter in H as [H _]. done.
Qed.

Lemma length_mark index l : length (mark index l) = length l.
Proof. apply length_imap. Qed.

(** After marking, the marker sits at [index] when that position exists,
    and nowhere otherwise. *)
Lemma active_mark_from index l : forall k,
  active_from k
    (imap (fun i x => toggle "active" (bool_decide ((k + i)%nat = index)) x) l)
  = if bool_decide (k <= index < k + length l)%nat then [index] else [].
Proof.
  induction l as [|x l IH]; intros k.
  - simpl. rewrite bool_decide_eq_false_2 by lia. done.
  - rewrite imap_cons. cbn [active_from length].
    rewrite (imap_ext _
               (fun i x => toggle "active" (bool_decide ((S k + i)%nat = index)) x));
      [|intros i y _; simpl; do 2 f_equal;
        apply bool_decide_ext; lia].
    rewrite IH. unfold toggle. case_bool_decide as Hk.
    + rewrite contains_add. rewrite Nat.add_0_r in Hk. subst k.
      rewrite bool_decide_eq_false_2 by lia.
      by rewrite bool_decide_eq_true_2 by lia.
    + rewrite contains_remove. apply (f_equal (fun b : bool => if b then [index] else [])).
      apply bool_decide_ext. lia.
Qed.

Lemma active_mark index l :
  active (mark index l) = if bool_decide (index < length l)%nat then [index] else [].
Proof.
  unfold active.
  change (mark index l)
    with (imap (fun i x => toggle "active" (bool_decide ((0 + i)%nat = index)) x) l).
  rewrite (active_mark_from index l 0).
  apply (f_equal (fun b : bool => if b then [index] else [])).
  apply bool_decide_ext. lia.
Qed.

Lemma showSlide_shown index c :
  (index < length (slides c))%nat ->
  active (slides (showSlide index c)) = [index]
  /\ (length (active (dots (showSlide index c))) <= 1)%nat
  /\ length (slides (showSlide index c)) = length (slides c)
  /\ length (dots (showSlide index c)) = length (dots c).
Proof.
  intros Hi. simpl. rewrite !active_mark, !length_mark.
  rewrite bool_decide_eq_true_2 by done.
  split_and!; try done. case_bool_decide; simpl; lia.
Qed.

Lemma step_shown c ev :
  slides c <> [] ->
  (length (dots c) <= length (slides c))%nat ->
  (currentSlide c < length (slides c))%nat ->
  (currentSlide (step c ev) < length (slides (step c ev)))%nat
  /\ length (slides (step c ev)) = length (slides c)
  /\ length (dots (step c ev)) = length (dots c)
  /\ (step c ev = c \/ shown (step c ev)).
Proof.
  intros Hne Hdots Hcur. unfold step.
  rewrite bool_decide_eq_false_2 by (by destruct (slides c)).
  assert (Hlen : (0 < length (slides c))%nat) by lia.
  destruct ev as [|index].
  - unfold nextSlide.
    set (i := ((currentSlide c + 1) mod length (slides c))%nat).
    assert (Hi : (i < length (slides c))%nat) by (apply Nat.mod_upper_bound; lia).
    destruct (showSlide_shown i (Carousel (slides c) (dots c) i) Hi)
      as (Hs & Hd & Hl & Hl').
    simpl in *. rewrite !length_mark. split_and!; try done.
    right. unfold shown. simpl. by rewrite length_mark.
  - case_bool_decide as Hidx; [|by split_and!; try done; left].
    assert (Hi : (index < length (slides c))%nat) by lia.
    destruct (showSlide_shown index (Carousel (slides c) (dots c) index) Hi)
      as (Hs & Hd & Hl & Hl').
    simpl in *. rewrite !length_mark. split_and!; try done.
    right. unfold shown. simpl. by rewrite length_mark.
Qed.

(** C10 (as amended): with at least one slide and no more dots than
    slides, every carousel step keeps the current-slide index in range;
    [nextSlide] advances the index modulo the number of slides; and after
    [showSlide i] with [i] below the number of slides exactly the [i]-th
    slide and at most one dot carry the active marker. *)
Theorem carousel_in_range c (evs : list event) :
  slides c <> [] ->
  (length (dots c) <= length (slides c))%nat ->
  (currentSlide c < length (slides c))%nat ->
  (currentSlide (run evs c) < length (slides (run evs c)))%nat
  /\ currentSlide (nextSlide c)
     = ((currentSlide c + 1) mod length (slides c))%nat
  /\ (forall i, (i < length (slides c))%nat ->
        active (slides (showSlide i c)) = [i]
        /\ (length (active (dots (showSlide i c))) <= 1)%nat).
Proof.
  intros Hne Hdots Hcur. split_and!.
  - revert c Hne Hdots Hcur. unfold run.
    induction evs as [|ev evs IH]; intros c Hne Hdots Hcur; [done|]. simpl.
    destruct (step_shown c ev Hne Hdots Hcur) as (Hc & Hl & Hl' & _).
    apply IH; [|lia|done].
    intros Hnil. rewrite Hnil in Hl. simpl in Hl.
    destruct (slides c); [done|discriminate].
  - done.
  - intros i Hi. destruct (showSlide_shown i c Hi) as (Hs & Hd & _). done.
Qed.

End CarouselFacts.

(** C10 (counterexample): with one slide and two dots a click on the second
    dot sets the index to 1, out of range, and leaves no slide active. *)
Lemma dot_click_out_of_range :
  let c := Carousel.step one_slide_two_dots (Carousel.DotClick 1) in
  Carousel.slides one_slide_two_dots <> []
  /\ Carousel.currentSlide c = 1%nat
  /\ length (Carousel.slides c) = 1%nat
  /\ Carousel.active (Carousel.slides c) = [].
Proof. split; [discriminate|]. vm_compute. done. Qed.

Lemma carousel_in_range_witness :
  let c := Carousel.Carousel [["hero-slide"; "active"]; ["hero-slide"]]
             [["dot"; "active"]; ["dot"]] 0 in
  (Carousel.currentSlide
     (Carousel.run [Carousel.Tick; Carousel.DotClick 1; Carousel.Tick] c)
   < length (Carousel.slides
               (Carousel.run [Carousel.Tick; Carousel.DotClick 1; Carousel.Tick] c)))%nat.
Proof.
  intros c.
  apply (carousel_in_range c [Carousel.Tick; Carousel.DotClick 1; Carousel.Tick]);
    [discriminate|simpl; lia|simpl; lia].
Defined.

(* --------------------------------------------------------------------- *)
(** ** More on [throttle]                                                 *)
(* --------------------------------------------------------------------- *)

Section RateFacts.
Import Throttle Rate.
Context {A : Type}.
Implicit Types (calls : list (Z * A)) (c : cell).

Lemma leading_edge_spaced tie W calls : forall l,
  spaced_from tie W l (map fst (leading_edge tie W (Some l) calls)) = true.
Proof.
  induction calls as [|[t a] rest IH]; intros l; [done|].
  cbn [leading_edge]. destruct (elapsed tie W l t) eqn:E; [|apply IH].
  simpl. rewrite E. apply IH.
Qed.

(** X1: the rate limit.  When the wrapped function returns and does not
    call the returned function itself, in the log of an execution with
    increasing call times each application of the wrapped function comes at
    least a window after the one before it; the window is the delay the
    timer runs with, the limit itself when it is below [2^31]. *)
Theorem throttle_rate_limited tie W calls :
  increasing (map fst calls) = true ->
  spaced tie (delay W) (map fst (invocations tie W (returning calls))) = true
  /\ (0 <= W < 2 ^ 31 ->
      spaced tie W (map fst (invocations tie W (returning calls))) = true).
Proof.
  intros Hinc.
  assert (H : spaced tie (delay W)
                (map fst (invocations tie W (returning calls))) = true).
  { rewrite invocations_leading_edge by done.
    destruct calls as [|[t a] rest]; [done|]. cbn [leading_edge].
    simpl. apply leading_edge_spaced. }
  split; [exact H|]. intros HW. by rewrite delay_window in H.
Qed.

(** What one call applies the wrapped function to is part of what the
    returned function was called with, in order. *)
Lemma throttled_sublist W t (k : call A) : forall c,
  sublist (snd (throttled W t k c)) (attempt k).
Proof.
  induction k as [arg inner throws IH] using call_ind'. intros c.
  rewrite throttled_eq, attempt_eq. cbn [inner_of throws_of arg_of].
  destruct (negb (inThrottle c)); [|apply sublist_nil_l].
  assert (Heach : forall c0,
            sublist (snd (each W t inner c0)) (attempt_each inner)).
  { clear c. induction IH as [|k' ks' Hk' _ IHks]; intros c0; [constructor|].
    cbn [each attempt_each].
    specialize (Hk' c0). destruct (throttled W t k' c0) as [c1 log1].
    specialize (IHks c1). destruct (each W t ks' c1) as [c2 log2].
    simpl in *. by apply sublist_app. }
  specialize (Heach c). destruct (each W t inner c) as [c1 log].
  destruct throws; simpl in *; by apply sublist_skip.
Qed.

Lemma run_timers_log tie t c : snd (run_timers (A:=A) tie t c) = [].
Proof. apply fire_log. Qed.

Lemma run_sublist tie W (ks : list (Z * call A)) : forall c,
  sublist (snd (run tie W ks c)) (attempts ks).
Proof.
  induction ks as [|[t k] rest IH]; intros c; [constructor|].
  cbn [run attempts].
  pose proof (run_timers_log tie t c) as H1.
  destruct (run_timers tie t c) as [c1 log1]. simpl in H1. subst log1.
  pose proof (throttled_sublist W t k c1) as H2.
  destruct (throttled W t k c1) as [c2 out]. simpl in H2.
  specialize (IH c2). destruct (run tie W rest c2) as [c3 log3].
  simpl in *. apply sublist_app; [|done].
  by apply (fmap_sublist (pair t)).
Qed.

(** X2: the wrapped function is applied only to arguments the returned
    function was called with, at the time of the call and in the order of
    the calls: the log is a sublist of the calls, those of the wrapped
    function to the returned function included.  This holds whatever the
    wrapped function does and whatever the call times are. *)
Theorem throttle_invokes_calls_only tie W (ks : list (Z * call A)) :
  sublist (invocations tie W ks) (attempts ks)
  /\ forall calls, sublist (invocations tie W (returning calls)) calls.
Proof.
  assert (H : forall ks' : list (Z * call A),
            sublist (invocations tie W ks') (attempts ks')).
  { intros ks'. unfold invocations.
    pose proof (run_sublist tie W ks' fresh) as Hr.
    pose proof (settle_log (A:=A) (fst (run tie W ks' fresh))) as Hs.
    destruct (run tie W ks' fresh) as [c log]. simpl in *.
    by rewrite Hs, app_nil_r. }
  split; [apply H|]. intros calls.
  rewrite <- (attempts_returning calls) at 2. apply H.
Qed.

Lemma gate_edge_all tie D (ks : list (Z * call A)) : forall last,
  match last with
  | Some l => spaced_from tie D l (map fst ks)
  | None => spaced tie D (map fst ks)
  end = true ->
  gate_edge tie D last ks = requests ks.
Proof.
  induction ks as [|[t k] rest IH]; intros last Hs; [done|].
  cbn [gate_edge requests map fst snd].
  assert (Hrest : forall b : bool,
            spaced_from tie D t (map fst rest) = true ->
            gate_edge tie D (if b then None else Some t) rest = requests rest).
  { intros b Hr. apply IH. destruct b; [|done].
    destruct rest as [|[t' k'] rest']; [done|]. simpl in *.
    by apply andb_true_iff in Hr as [_ ?]. }
  destruct last as [l|]; simpl in Hs.
  - apply andb_true_iff in Hs as [He Hs]. rewrite He. f_equal. by apply Hrest.
  - f_equal. by apply Hrest.
Qed.

Lemma elapsed_mono tie D D' l t :
  D' <= D -> elapsed tie D l t = true -> elapsed tie D' l t = true.
Proof.
  unfold elapsed. intros HD. destruct tie; intros H.
  - apply Z.leb_le in H. apply Z.leb_le. lia.
  - apply Z.ltb_lt in H. apply Z.ltb_lt. lia.
Qed.

Lemma spaced_from_delay tie W (ts : list Z) : forall l,
  - 2 ^ 31 <= W ->
  increasing_from l ts = true ->
  spaced_from tie W l ts = true -> spaced_from tie (delay W) l ts = true.
Proof.
  induction ts as [|t r IH]; intros l HW Hinc Hs; [done|]. simpl in *.
  apply andb_true_iff in Hinc as [Hlt Hinc]. apply Z.ltb_lt in Hlt.
  apply andb_true_iff in Hs as [He Hs].
  apply andb_true_iff. split; [|by apply IH].
  destruct (decide (W < 0)) as [Hneg|Hpos].
  - rewrite delay_nonpos by lia. unfold elapsed.
    destruct tie; [apply Z.leb_le|apply Z.ltb_lt]; lia.
  - destruct (decide (W < 2 ^ 31)) as [Hs31|Hb].
    + by rewrite delay_window by lia.
    + apply (elapsed_mono tie W); [|done].
      pose proof (delay_bounds W). lia.
Qed.

(** X3: calls that are each a window apart all execute: nothing is
    dropped, whether the wrapped function returns or throws, as long as it
    does not call the returned function itself.  A window is the delay the
    timer runs with, and so is the limit, when it is not below [-2^31]. *)
Theorem throttle_spaced_calls_all_run tie W (ks : list (Z * call A)) :
  forallb flat (map snd ks) = true ->
  increasing (map fst ks) = true ->
  spaced tie (delay W) (map fst ks) = true
  \/ (- 2 ^ 31 <= W /\ spaced tie W (map fst ks) = true) ->
  invocations tie W ks = requests ks.
Proof.
  intros Hflat Hinc Hs. rewrite invocations_gate_edge by done.
  apply gate_edge_all. destruct Hs as [Hs|[HW Hs]]; [done|].
  destruct ks as [|[t k] rest]; [done|]. simpl in *.
  by apply spaced_from_delay.
Qed.

Lemma fire_state (ds : list Z) c :
  fst (fire (A:=A) ds c) = match ds with [] => c | _ => Cell false (timers c) end.
Proof.
  revert c. induction ds as [|d ds IH]; intros c; [done|]. simpl.
  specialize (IH (Cell false (timers c))).
  destruct (fire ds (Cell false (timers c))) as [c2 log]; simpl in *.
  subst c2. by destruct ds.
Qed.

Lemma run_timers_recoverable tie now c :
  recoverable c -> recoverable (fst (run_timers (A:=A) tie now c)).
Proof.
  intros Hc. unfold run_timers. rewrite fire_state.
  destruct (filter _ (timers c)) as [|d ds] eqn:E; unfold recoverable; simpl.
  - intros Hin. specialize (Hc Hin).
    destruct (timers c) as [|t ts]; [done|].
    rewrite filter_cons in E |- *.
    destruct (decide (due tie now t = true)) as [Hd|Hd]; [done|].
    by rewrite decide_True.
  - done.
Qed.

Lemma throttled_recoverable W t (k : call A) : forall c,
  recoverable c -> recoverable (fst (throttled W t k c)).
Proof.
  induction k as [arg inner throws IH] using call_ind'. intros c Hc.
  rewrite throttled_eq. cbn [inner_of throws_of arg_of].
  destruct (negb (inThrottle c)); [|done].
  assert (Heach : forall c0, recoverable c0 ->
            recoverable (fst (each W t inner c0))).
  { clear c Hc. induction IH as [|k' ks' Hk' _ IHks]; intros c0 Hc0; [done|].
    cbn [each]. specialize (Hk' c0 Hc0).
    destruct (throttled W t k' c0) as [c1 log1]. simpl in Hk'.
    specialize (IHks c1 Hk'). by destruct (each W t ks' c1). }
  specialize (Heach c Hc). destruct (each W t inner c) as [c1 log].
  destruct throws; simpl in *; [done|].
  intros _. by destruct (timers c1).
Qed.

Lemma run_recoverable tie W (ks : list (Z * call A)) : forall c,
  recoverable c -> recoverable (fst (run tie W ks c)).
Proof.
  induction ks as [|[t k] rest IH]; intros c Hc; [done|].
  cbn [run].
  pose proof (run_timers_recoverable tie t c Hc) as H1.
  destruct (run_timers tie t c) as [c1 log1]; simpl in H1.
  pose proof (throttled_recoverable W t k c1 H1) as H2.
  destruct (throttled W t k c1) as [c2 out]; simpl in H2.
  specialize (IH c2 H2). by destruct (run tie W rest c2).
Qed.

(** X4: the gate never stays closed.  Whatever the calls, their times and
    what the wrapped function does, once the timers left in the queue have
    fired the closure is as it was when [throttle] created it, so the next
    call executes: the wrapped function is applied to its argument, before
    anything it may do itself. *)
Theorem throttle_reopens tie W (ks : list (Z * call A)) (t : Z) :
  let c := fst (settle (A:=A) (fst (run tie W ks fresh))) in
  c = fresh
  /\ (forall k : call A,
        exists rest, snd (throttled W t k c) = arg_of k :: rest)
  /\ (forall (a : A) throws,
        snd (throttled W t (Call a [] throws) c) = [a]).
Proof.
  assert (H : fst (settle (A:=A) (fst (run tie W ks fresh))) = fresh).
  { pose proof (run_recoverable tie W ks fresh) as Hr.
    destruct (fst (run tie W ks fresh)) as [b ts].
    unfold settle. rewrite fire_state. simpl.
    destruct ts as [|d ds]; [|done].
    destruct b; [|done]. exfalso. by apply Hr. }
  cbv zeta. rewrite H. split_and!; [done| |].
  - intros k. rewrite throttled_eq. cbn [fresh inThrottle negb].
    destruct (each W t (inner_of k) fresh) as [c1 log].
    exists log. by destruct (throws_of k).
  - intros a throws. by destruct throws.
Qed.

End RateFacts.

Lemma throttle_rate_limited_witness :
  Throttle.increasing (map fst [(0, 1%nat); (30, 2%nat); (80, 3%nat)]) = true
  /\ Rate.spaced true 50
       (map fst (Throttle.invocations true 50
                   (Throttle.returning [(0, 1%nat); (30, 2%nat); (80, 3%nat)])))
     = true.
Proof.
  split; [reflexivity|].
  destruct (throttle_rate_limited true 50 [(0, 1%nat); (30, 2%nat); (80, 3%nat)]
              eq_refl) as [_ H].
  apply H. lia.
Defined.

(** The wrapped function calls the returned function itself, and throws at
    the last call. *)
Lemma throttle_invokes_calls_only_witness :
  sublist
    (Throttle.invocations false 50
       [(0, Throttle.Call 1%nat [Throttle.Call 2%nat [] false] false);
        (30, Throttle.Call 3%nat [] false);
        (80, Throttle.Call 4%nat [] true)])
    [(0, 1%nat); (0, 2%nat); (30, 3%nat); (80, 4%nat)].
Proof.
  apply (throttle_invokes_calls_only false 50
           [(0, Throttle.Call 1%nat [Throttle.Call 2%nat [] false] false);
            (30, Throttle.Call 3%nat [] false);
            (80, Throttle.Call 4%nat [] true)]).
Defined.

(** The second case of the repository's test: two calls 70 apart under a
    window of 50, with the amounts 5 and 3. *)
Lemma throttle_spaced_calls_all_run_witness :
  Throttle.increasing (map fst [(0, 5); (70, 3)]) = true
  /\ Rate.spaced false 50 (map fst [(0, 5); (70, 3)]) = true
  /\ Throttle.invocations false 50 (Throttle.returning [(0, 5); (70, 3)])
     = [(0, 5); (70, 3)].
Proof.
  split; [reflexivity|]. split; [reflexivity|].
  apply (throttle_spaced_calls_all_run false 50
           (Throttle.returning [(0, 5); (70, 3)]));
    [reflexivity|reflexivity|by left].
Defined.

(* --------------------------------------------------------------------- *)
(** ** More on the navigation overlay                                     *)
(* --------------------------------------------------------------------- *)

Section MenuFacts.
Import Dom Overlay Menu.
Implicit Types (n : nav) (a : action).

Lemma contains_app_singleton t (l : list string) : contains t (l ++ [t]) = true.
Proof. apply contains_true, elem_of_app. right. by apply list_elem_of_singleton. Qed.

Lemma contains_flip t (l : list string) :
  contains t (fst (flip t l)) = negb (contains t l).
Proof.
  unfold flip. destruct (contains t l) eqn:E; simpl.
  - apply contains_remove.
  - apply contains_app_singleton.
Qed.

Lemma flip_returns t (l : list string) : snd (flip t l) = negb (contains t l).
Proof. unfold flip. by destruct (contains t l). Qed.

(** What one listener followed by the observer's reaction does to the two
    [active] classes. *)
Lemma react_toggleNav n :
  let m := react (toggleNav n) in
  contains "active" (hamburger_classList m)
  = negb (contains "active" (hamburger_classList n))
  /\ isOpen m = negb (isOpen n) /\ synced m.
Proof.
  unfold toggleNav, react, isOpen.
  pose proof (contains_flip "active" (hamburger_classList n)) as Hh.
  pose proof (contains_flip "active" (overlay_classList n)) as Ho.
  destruct (flip "active" (hamburger_classList n)) as [h b]. simpl in *.
  split_and!; done.
Qed.

Lemma react_close n :
  let m := react (close n) in
  contains "active" (hamburger_classList m) = false
  /\ isOpen m = false /\ synced m.
Proof.
  unfold close, react, isOpen. simpl. rewrite !contains_remove. done.
Qed.

Lemma closed_of n :
  contains "active" (hamburger_classList n) = false ->
  isOpen n = false -> synced n -> closed n.
Proof.
  intros Hh Ho (He & Ha & Hf). unfold closed. rewrite He, Ha, Hf, Ho. done.
Qed.

(** [closeNav] is the conditional toggle followed by the collapse of the
    panels, and the collapse shows in none of the properties of the menu. *)
Lemma react_closeNav n :
  react (closeNav n)
  = collapseSubmenus
      (react (if contains "active" (hamburger_classList n) then toggleNav n
              else (n, false))).
Proof.
  unfold closeNav, react. cbv zeta. cbn [fst snd].
  by destruct (snd _).
Qed.

Lemma collapse_closed n : closed n -> closed (collapseSubmenus n).
Proof. done. Qed.

Lemma collapse_agree n : agree n -> agree (collapseSubmenus n).
Proof. done. Qed.

Lemma react_escapeNav n :
  let m := react (escapeNav n) in
  contains "active" (hamburger_classList m) = false
  /\ (synced n -> synced m)
  /\ (agree n -> isOpen m = false).
Proof.
  unfold escapeNav. destruct (contains "active" (hamburger_classList n)) eqn:Eh.
  - rewrite react_closeNav, Eh.
    destruct (react_toggleNav n) as (Hh & Ho & Hs).
    rewrite Eh in Hh. split_and!; [done|done|].
    intros Hn. unfold agree in Hn. rewrite Eh in Hn.
    change (isOpen (react (toggleNav n)) = false).
    rewrite Ho. unfold isOpen. by rewrite <- Hn.
  - change (react (n, false)) with n. cbv zeta. split_and!; [done|done|].
    intros Hn. unfold agree in Hn. unfold isOpen. by rewrite <- Hn.
Qed.

(** X5: on a menu whose attributes agree with the overlay, as they do from
    the set-up on, a click on the overlay, a click on a menu link and the
    escape key leave the menu closed, whatever the two [active] classes were
    before: both classes are gone, [aria-expanded] is false, [aria-hidden]
    is true and the scroll lock is released. *)
Theorem closing_actions_close n a :
  closing a = true -> synced n -> closed (perform n a).
Proof.
  intros Ha Hn. unfold perform.
  destruct a; try discriminate Ha; simpl.
  - (* overlay click: closeNav, then close *)
    destruct (react_close (react (closeNav n))) as (? & ? & ?).
    by apply closed_of.
  - destruct (react_close n) as (? & ? & ?). by apply closed_of.
  - (* escape: the listener of script.js, then onEscape *)
    destruct (react_escapeNav n) as (Hh & Hs & _). specialize (Hs Hn).
    unfold onEscape. fold (isOpen (react (escapeNav n))).
    destruct (isOpen (react (escapeNav n))) eqn:Eo.
    + destruct (react_close (react (escapeNav n))) as (? & ? & ?).
      by apply closed_of.
    + change (closed (react (escapeNav n))). by apply closed_of.
Qed.

(** X6: the listeners of the two scripts keep the hamburger and the overlay
    together: when both carry the [active] class or neither does, the same
    holds after each of their actions. *)
Theorem scripted_actions_keep_agreement n (acts : list action) :
  forallb scripted acts = true -> agree n -> agree (run acts n).
Proof.
  revert n. unfold run.
  induction acts as [|a acts IH]; intros n Hs Hn; [done|].
  simpl in Hs. apply andb_true_iff in Hs as [Ha Hs]. simpl.
  apply IH; [done|]. clear IH Hs. unfold perform in *.
  assert (Hclose : forall m, agree (react (close m))).
  { intros m. destruct (react_close m) as (Hh & Ho & _).
    unfold agree. unfold isOpen in Ho. by rewrite Hh, Ho. }
  assert (Htoggle : forall m, agree m -> agree (react (toggleNav m))).
  { intros m Hm. destruct (react_toggleNav m) as (Hh & Ho & _).
    unfold agree in *. unfold isOpen in Ho. by rewrite Hh, Ho, Hm. }
  assert (HcloseNav : forall m, agree m -> agree (react (closeNav m))).
  { intros m Hm. rewrite react_closeNav. apply collapse_agree.
    destruct (contains "active" (hamburger_classList m)); [by apply Htoggle|done]. }
  assert (HescapeNav : forall m, agree m -> agree (react (escapeNav m))).
  { intros m Hm. unfold escapeNav.
    destruct (contains "active" (hamburger_classList m)) eqn:E;
      [by apply HcloseNav|done]. }
  destruct a; try discriminate Ha; cbn [listeners foldl].
  - by apply Htoggle.
  - apply Hclose.
  - apply Hclose.
  - unfold onEscape.
    destruct (contains "active" (overlay_classList (react (escapeNav n))));
      [apply Hclose|by apply HescapeNav].
  - by apply HcloseNav.
  - exact Hn.
  - exact Hn.
Qed.

(** X7: a click on the hamburger flips the overlay between open and closed
    and leaves the attributes in agreement with the new state; a second
    click restores the state before the first. *)
Theorem hamburger_click_flips n :
  let m := perform n HamburgerClick in
  isOpen m = negb (isOpen n)
  /\ synced m
  /\ isOpen (perform m HamburgerClick) = isOpen n.
Proof.
  unfold perform. simpl.
  destruct (react_toggleNav n) as (_ & Ho & Hs).
  destruct (react_toggleNav (react (toggleNav n))) as (_ & Ho' & _).
  split_and!; [done|done|]. rewrite Ho', Ho. apply negb_involutive.
Qed.

(** X8: on a menu that is closed, with the hamburger in agreement, the
    escape key writes nothing and a resize above the breakpoint writes
    only the panels of the sub-menus, which lose [active]; on one that is
    open, again in agreement, the resize closes it; and after the resize no
    panel is active, whatever the menu was. *)
Theorem resize_and_escape_on_menu n :
  agree n ->
  (isOpen n = false ->
     perform n Escape = n /\ perform n ResizeWide = collapseSubmenus n)
  /\ (isOpen n = true -> isOpen (perform n ResizeWide) = false)
  /\ submenus (perform n ResizeWide) = map (remove "active") (submenus n)
  /\ Forall (fun panel => contains "active" panel = false)
       (submenus (perform n ResizeWide)).
Proof.
  intros Hn.
  assert (Hsub : submenus (perform n ResizeWide)
                 = map (remove "active") (submenus n)).
  { unfold perform. cbn [listeners foldl]. rewrite react_closeNav.
    destruct (contains "active" (hamburger_classList n)); [|done].
    unfold toggleNav. by destruct (flip _ _). }
  unfold agree in Hn. split_and!.
  - intros Ho. unfold isOpen in Ho. rewrite Ho in Hn. unfold perform.
    cbn [listeners foldl]. rewrite react_closeNav. unfold escapeNav.
    rewrite Hn. change (react (n, false)) with n.
    unfold onEscape. rewrite Ho. done.
  - intros Ho. unfold isOpen in Ho. rewrite Ho in Hn. unfold perform.
    cbn [listeners foldl]. rewrite react_closeNav, Hn.
    destruct (react_toggleNav n) as (_ & Ho' & _).
    change (isOpen (react (toggleNav n)) = false).
    rewrite Ho'. unfold isOpen. by rewrite Ho.
  - exact Hsub.
  - rewrite Hsub. apply Forall_forall. intros panel Hp.
    apply list_elem_of_fmap in Hp as (l & -> & _). apply contains_remove.
Qed.

End MenuFacts.

(** The menu open, as a click on the hamburger leaves it. *)
Lemma closing_actions_close_witness :
  Menu.closed
    (Overlay.perform
       (Overlay.syncOverlayState
          (Overlay.Nav ["hamburger"; "active"] None
             ["mobile-nav-overlay"; "active"] None "" []))
       Overlay.Escape).
Proof.
  apply (closing_actions_close
           (Overlay.syncOverlayState
              (Overlay.Nav ["hamburger"; "active"] None
                 ["mobile-nav-overlay"; "active"] None "" []))
           Overlay.Escape); [reflexivity|].
  apply synced_sync.
Defined.

Lemma scripted_actions_keep_agreement_witness :
  Menu.agree
    (Overlay.run [Overlay.HamburgerClick; Overlay.Escape; Overlay.HamburgerClick]
       (Overlay.Nav ["hamburger"] None ["mobile-nav-overlay"] None "" [])).
Proof.
  apply (scripted_actions_keep_agreement
           (Overlay.Nav ["hamburger"] None ["mobile-nav-overlay"] None "" [])
           [Overlay.HamburgerClick; Overlay.Escape; Overlay.HamburgerClick]);
    reflexivity.
Defined.

(** An open menu with an open panel, resized above the breakpoint. *)
Lemma resize_and_escape_on_menu_witness :
  Overlay.isOpen
    (Overlay.perform
       (Overlay.Nav ["hamburger"; "active"] None
          ["mobile-nav-overlay"; "active"] None ""
          [["mobile-submenu"; "active"]])
       Overlay.ResizeWide) = false
  /\ Overlay.submenus
       (Overlay.perform
          (Overlay.Nav ["hamburger"; "active"] None
             ["mobile-nav-overlay"; "active"] None ""
             [["mobile-submenu"; "active"]])
          Overlay.ResizeWide) = [["mobile-submenu"]].
Proof.
  destruct (resize_and_escape_on_menu
              (Overlay.Nav ["hamburger"; "active"] None
                 ["mobile-nav-overlay"; "active"] None ""
                 [["mobile-submenu"; "active"]]) eq_refl)
    as (_ & Hopen & Hsub & _).
  split; [by apply Hopen|]. rewrite Hsub. reflexivity.
Defined.

(* --------------------------------------------------------------------- *)
(** ** The life of the reveal engine                                      *)
(* --------------------------------------------------------------------- *)

Section LifecycleFacts.
Import Dom Reveal Lifecycle.
Implicit Types (st : animations) (e : nat).

(** *** Registration *)

Lemma prepareElement_registering element ty d st :
  registering st -> registering (prepareElement element ty d st).
Proof.
  intros (Ho & Hp & Hnd). destruct element as [e|]; [|done].
  unfold prepareElement. case_bool_decide as Hin.
  - by destruct (Number.truthy d).
  - destruct (negb (truthy_str _)), (Number.truthy d); simpl; rewrite Ho; simpl;
      (split_and!; [done|by rewrite Hp|];
       apply NoDup_app; split_and!; [done| |apply NoDup_singleton];
       intros x Hx Hx'; apply list_elem_of_singleton in Hx'; by subst x).
Qed.

Lemma animationType_truthy ty :
  truthy_str (Some (if bool_decide (ty = "") then "text" else ty)) = true.
Proof.
  case_bool_decide as Hty; simpl; [done|].
  by rewrite bool_decide_eq_false_2.
Qed.

Lemma animate_update_delay st e e' d :
  animate (el (update e (with_animationDelay d) st) e') = animate (el st e').
Proof.
  destruct (decide (e = e')) as [->|Hne].
  - by rewrite el_update_eq.
  - by rewrite el_update_ne.
Qed.

Lemma prepareElement_animate_ne st e e' ty d :
  e <> e' ->
  animate (el (prepareElement (Some e) ty d st) e') = animate (el st e').
Proof.
  intros Hne. unfold prepareElement. case_bool_decide.
  - destruct (Number.truthy d); [|done]. by rewrite el_update_ne.
  - destruct (negb (truthy_str _)), (Number.truthy d); simpl;
      destruct (observer st); unfold el, update, get; simpl;
      by rewrite ?lookup_insert_ne by done.
Qed.

Lemma prepareElement_animate st e ty d :
  truthy_str (animate (el (prepareElement (Some e) ty d st) e)) = true
  \/ (e ∈ animatedElements st
      /\ animate (el (prepareElement (Some e) ty d st) e) = animate (el st e)).
Proof.
  unfold prepareElement. case_bool_decide as Hin.
  - right. split; [done|]. destruct (Number.truthy d); [|done].
    apply animate_update_delay.
  - left. destruct (truthy_str (animate (el st e))) eqn:Em; simpl.
    + destruct (Number.truthy d); simpl; destruct (observer st);
        unfold el, update, get in *; simpl;
        rewrite ?lookup_insert_eq; simpl; done.
    + pose proof (animationType_truthy ty) as Ht.
      destruct (Number.truthy d); simpl; destruct (observer st);
        unfold el, update, get; simpl;
        rewrite ?lookup_insert_eq; simpl; rewrite ?lookup_insert_eq; simpl;
        exact Ht.
Qed.

Lemma prepareElement_animated element ty d st e' :
  e' ∈ animatedElements (prepareElement element ty d st) ->
  e' ∈ animatedElements st \/ element = Some e'.
Proof.
  destruct element as [e|]; [|by left]. unfold prepareElement.
  case_bool_decide as Hin.
  - destruct (Number.truthy d); by left.
  - destruct (negb (truthy_str _)), (Number.truthy d); simpl;
      destruct (observer st); simpl; intros H;
      apply elem_of_app in H as [H|H]; try (by left);
      apply list_elem_of_singleton in H; subst; by right.
Qed.

Lemma prepareElement_categorised element ty d st :
  categorised st -> categorised (prepareElement element ty d st).
Proof.
  intros Hc e' Hin. destruct element as [e|]; [|by apply Hc].
  destruct (decide (e = e')) as [<-|Hne].
  - destruct (prepareElement_animate st e ty d) as [H|[Hreg ->]]; [done|].
    by apply Hc.
  - rewrite prepareElement_animate_ne by done. apply Hc.
    apply prepareElement_animated in Hin as [H|H]; [done|congruence].
Qed.

Lemma registration_queues_each_once_aux reduced supports (regs : list event) :
  forallb is_prepare regs = true ->
  registering (run regs (initial reduced supports))
  /\ categorised (run regs (initial reduced supports)).
Proof.
  intros Hregs.
  assert (H : forall st0, registering st0 -> categorised st0 ->
            registering (run regs st0) /\ categorised (run regs st0)).
  { unfold run. induction regs as [|ev regs IH]; intros st0 Hr Hc; [done|].
    simpl in Hregs. apply andb_true_iff in Hregs as [Hev Hregs]. simpl.
    destruct ev as [element ty d| | |]; try discriminate Hev.
    apply IH; [done| |]; simpl.
    - by apply prepareElement_registering.
    - by apply prepareElement_categorised. }
  apply H.
  - split_and!; [done|done|apply NoDup_nil_2].
  - intros e He. by apply elem_of_nil in He.
Qed.

(** X9: registration.  From the engine as [init] finds it, after any
    sequence of [prepareElement] calls there is no observer, the pending
    queue lists exactly the registered elements, each of them once, and every
    registered element carries a category that is not empty. *)
Theorem registration_queues_each_once reduced supports (regs : list event) :
  forallb is_prepare regs = true ->
  let st := run regs (initial reduced supports) in
  observer st = None
  /\ pendingElements st = animatedElements st
  /\ NoDup (animatedElements st)
  /\ categorised st.
Proof.
  intros Hregs st.
  destruct (registration_queues_each_once_aux reduced supports regs Hregs)
    as ((Ho & Hp & Hnd) & Hc).
  done.
Qed.

(** *** Set-up *)

Lemma observe_elem e x (ts : list nat) : e ∈ ts -> e ∈ observe x ts.
Proof.
  intros H. unfold observe. case_bool_decide; [done|].
  apply elem_of_app. by left.
Qed.

Lemma observe_self e (ts : list nat) : e ∈ observe e ts.
Proof.
  unfold observe. case_bool_decide; [done|].
  apply elem_of_app. right. by apply list_elem_of_singleton.
Qed.

Lemma observeEach_elem (l : list nat) e : forall ts,
  e ∈ ts \/ e ∈ l -> e ∈ foldl (fun ts e => observe e ts) ts l.
Proof.
  induction l as [|x l IH]; intros ts [H|H]; simpl.
  - done.
  - by apply elem_of_nil in H.
  - apply IH. left. by apply observe_elem.
  - apply elem_of_cons in H as [->|H].
    + apply IH. left. apply observe_self.
    + apply IH. by right.
Qed.

Lemma setup_armed st :
  NoDup (animatedElements st) ->
  pendingElements st = animatedElements st ->
  armed (setupIntersectionObserver st).
Proof.
  intros Hnd Hp. unfold setupIntersectionObserver.
  destruct (prefersReducedMotion st || negb (supportsObserver st)).
  - unfold showAll.
    destruct (showEach_frame (animatedElements st) st) as (Hset & _ & _).
    split_and!; simpl; [by rewrite Hset|done|].
    rewrite Hset. intros e He. left. unfold visible, el; simpl.
    by apply (showEach_visible (animatedElements st) e st).
  - unfold registerPendingElements. simpl.
    split_and!; [done|done|]. simpl. intros e He. right.
    unfold observed. simpl. apply observeEach_elem. right. by rewrite Hp.
Qed.

(** *** Reports *)

Lemma unobserve_elem e x (ts : list nat) : e <> x -> e ∈ ts -> e ∈ unobserve x ts.
Proof. intros Hne H. unfold unobserve. by apply list_elem_of_filter. Qed.

Lemma observerCallback_frame entries : forall st,
  animatedElements (observerCallback entries st) = animatedElements st
  /\ pendingElements (observerCallback entries st) = pendingElements st.
Proof.
  unfold observerCallback.
  induction entries as [|[t b] entries IH]; intros st; [done|]. cbn [foldl].
  match goal with
  | |- context [foldl _ ?s entries] => destruct (IH s) as [-> ->]
  end.
  destruct b; [|done]. simpl. by destruct (observer st).
Qed.

Lemma observerCallback_kept entries e : forall st,
  visible st e = true \/ observed st e ->
  visible (observerCallback entries st) e = true
  \/ observed (observerCallback entries st) e.
Proof.
  unfold observerCallback.
  induction entries as [|[t b] entries IH]; intros st H; [done|]. simpl.
  apply IH. destruct b; [|done]. simpl.
  destruct (decide (e = t)) as [->|Hne].
  - left. pose proof (visible_showElement st t) as Hv.
    by destruct (observer st).
  - destruct H as [H|H].
    + left. pose proof (visible_showElement_mono st t e H) as Hv.
      by destruct (observer st).
    + right. unfold observed in *. simpl.
      destruct (observer st) as [ts|]; [|done]. simpl.
      by apply unobserve_elem.
Qed.

Lemma hideEach_frame (l : list nat) : forall st,
  let st' := foldl (fun s e => update e (with_classList (remove "is-visible")) s)
               st l in
  animatedElements st' = animatedElements st
  /\ pendingElements st' = pendingElements st
  /\ observer st' = observer st
  /\ prefersReducedMotion st' = prefersReducedMotion st
  /\ supportsObserver st' = supportsObserver st.
Proof.
  induction l as [|a l IH]; intros st; [done|]. simpl.
  destruct (IH (update a (with_classList (remove "is-visible")) st))
    as (-> & -> & -> & -> & ->). done.
Qed.

Lemma showEach_host (l : list nat) : forall st,
  let st' := foldl (fun s e => showElement e s) st l in
  prefersReducedMotion st' = prefersReducedMotion st
  /\ supportsObserver st' = supportsObserver st.
Proof.
  induction l as [|a l IH]; intros st; [done|]. simpl.
  destruct (IH (showElement a st)) as (-> & ->). done.
Qed.

Lemma showAll_armed st :
  NoDup (animatedElements st) -> pendingElements st = [] -> armed (showAll st).
Proof.
  intros Hnd Hp. unfold showAll.
  destruct (showEach_frame (animatedElements st) st) as (Hset & Hpend & _).
  split_and!; [by rewrite Hset|by rewrite Hpend|].
  rewrite Hset. intros e He. left.
  by apply (showEach_visible (animatedElements st) e st).
Qed.

Lemma resetObserver_armed st :
  NoDup (animatedElements st) -> armed (resetObserver st).
Proof.
  intros Hnd. unfold resetObserver.
  destruct (hideEach_frame (animatedElements (set_observer None st))
              (set_observer None st)) as (Hset & _).
  apply setup_armed; cbn [animatedElements pendingElements set_pendingElements];
    by rewrite Hset.
Qed.

Lemma step_armed st ev :
  is_report ev = true -> armed st -> armed (step st ev).
Proof.
  intros Hev (Hnd & Hp & Hk).
  destruct ev as [| |entries|[|]]; try discriminate Hev; cbn [step].
  - (* a report of the observer *)
    unfold deliver. destruct (observer st) as [ts|] eqn:Eo; [|done].
    destruct (observerCallback_frame
                (filter (fun entry : nat * bool => fst entry ∈ ts) entries) st)
      as [Hset Hpend].
    split_and!; [by rewrite Hset|by rewrite Hpend|].
    rewrite Hset. intros e He. by apply observerCallback_kept, Hk.
  - (* reduced motion turned on *)
    unfold onChange. by apply showAll_armed.
  - (* reduced motion turned off *)
    unfold onChange. by apply resetObserver_armed.
Qed.

(** X10: no registered element is lost.  After [init] has registered
    elements and set the scheduler up, under every sequence of observer
    reports and preference changes the pending queue is empty and every
    registered element is visible or is a target of the observer. *)
Theorem registered_elements_are_kept reduced supports (regs evs : list event) :
  forallb is_prepare regs = true ->
  forallb is_report evs = true ->
  armed (run evs (started reduced supports regs)).
Proof.
  intros Hregs Hevs.
  destruct (registration_queues_each_once_aux reduced supports regs Hregs)
    as ((_ & Hp & Hnd) & _).
  assert (H0 : armed (started reduced supports regs))
    by (by apply setup_armed).
  revert H0. generalize (started reduced supports regs). unfold run.
  induction evs as [|ev evs IH]; intros st Hst; [done|].
  simpl in Hevs. apply andb_true_iff in Hevs as [Hev Hevs]. simpl.
  apply IH; [done|]. by apply step_armed.
Qed.

End LifecycleFacts.

Lemma registration_queues_each_once_witness :
  Reveal.pendingElements two_registered = Reveal.animatedElements two_registered
  /\ NoDup (Reveal.animatedElements two_registered).
Proof.
  destruct (registration_queues_each_once true true
              [Reveal.Prepare (Some 0%nat) "text" Number.zero;
               Reveal.Prepare (Some 1%nat) "card" (Number.decimal 8 100)] eq_refl)
    as (_ & Hp & Hnd & _).
  split; [exact Hp|exact Hnd].
Defined.

Lemma registered_elements_are_kept_witness :
  Lifecycle.armed
    (Reveal.run seen_reset_seen
       (Lifecycle.started false true [Reveal.Prepare (Some 0%nat) "text" Number.zero])).
Proof.
  apply (registered_elements_are_kept false true
           [Reveal.Prepare (Some 0%nat) "text" Number.zero] seen_reset_seen);
    reflexivity.
Defined.

(* --------------------------------------------------------------------- *)
(** ** Preference changes, reports and image attributes                   *)
(* --------------------------------------------------------------------- *)

Section ReportFacts.
Import Dom Reveal Lifecycle Reports.
Implicit Types (st : animations) (e : nat).

Lemma remove_absent t (l : list string) : contains t l = false -> remove t l = l.
Proof.
  intros H. unfold remove. induction l as [|x l IH]; [done|].
  unfold contains in H. apply bool_decide_eq_false in H.
  apply not_elem_of_cons in H as [Hne H].
  rewrite filter_cons_True by done. f_equal. apply IH.
  by apply bool_decide_eq_false.
Qed.

Lemma visible_hide st e : 
  visible (update e (with_classList (remove "is-visible")) st) e = false.
Proof. unfold visible. rewrite el_update_eq. apply contains_remove. Qed.

Lemma visible_hide_mono st e e' :
  visible st e' = false ->
  visible (update e (with_classList (remove "is-visible")) st) e' = false.
Proof.
  intros H. destruct (decide (e = e')) as [->|Hne]; [apply visible_hide|].
  unfold visible. by rewrite el_update_ne.
Qed.

Lemma hideEach_hidden (l : list nat) e : forall st,
  e ∈ l \/ visible st e = false ->
  visible (foldl (fun s x => update x (with_classList (remove "is-visible")) s)
             st l) e = false.
Proof.
  induction l as [|a l IH]; intros st [H|H]; simpl.
  - by apply elem_of_nil in H.
  - done.
  - apply elem_of_cons in H as [->|H]; apply IH.
    + right. apply visible_hide.
    + by left.
  - apply IH. right. by apply visible_hide_mono.
Qed.

Lemma hideEach_body (l : list nat) : forall st,
  body (foldl (fun s x => update x (with_classList (remove "is-visible")) s) st l)
  = body st.
Proof. induction l as [|a l IH]; intros st; [done|]. simpl. by rewrite IH. Qed.

Lemma setup_normal st :
  prefersReducedMotion st = false ->
  supportsObserver st = true ->
  let st' := setupIntersectionObserver st in
  document st' = document st
  /\ animatedElements st' = animatedElements st
  /\ pendingElements st' = []
  /\ observer st'
     = Some (foldl (fun ts e => observe e ts) [] (pendingElements st))
  /\ body st' = body st
  /\ prefersReducedMotion st' = false.
Proof.
  intros Hr Hs. cbv zeta. unfold setupIntersectionObserver. rewrite Hr, Hs.
  cbn [orb negb]. unfold registerPendingElements. simpl. by rewrite Hr.
Qed.

Lemma resetObserver_normal st :
  prefersReducedMotion st = false ->
  supportsObserver st = true ->
  let st' := resetObserver st in
  (forall e, e ∈ animatedElements st -> visible st' e = false /\ observed st' e)
  /\ animatedElements st' = animatedElements st
  /\ pendingElements st' = []
  /\ prefersReducedMotion st' = false
  /\ body st' = body st.
Proof.
  intros Hr Hs. cbv zeta. unfold resetObserver.
  pose proof (hideEach_frame (animatedElements (set_observer None st))
                (set_observer None st)) as Hf.
  pose proof (fun e => hideEach_hidden (animatedElements (set_observer None st))
                         e (set_observer None st)) as Hh.
  pose proof (hideEach_body (animatedElements (set_observer None st))
                (set_observer None st)) as Hb.
  cbv zeta in Hf.
  remember (foldl (fun s e => update e (with_classList (remove "is-visible")) s)
              (set_observer None st) (animatedElements (set_observer None st)))
    as st2 eqn:E2.
  destruct Hf as (Hset & Hpend & Hobs & Hred & Hsup).
  destruct (setup_normal (set_pendingElements (animatedElements st2) st2))
    as (Hd & Ha & Hp & Ho & Hbody & Hrm).
  { cbn [prefersReducedMotion set_pendingElements]. by rewrite Hred. }
  { cbn [supportsObserver set_pendingElements]. by rewrite Hsup. }
  cbn [document animatedElements pendingElements body set_pendingElements]
    in Hd, Ha, Hp, Ho, Hbody.
  cbn [animatedElements set_observer] in Hset, Hh.
  split_and!.
  - intros e He. split.
    + unfold visible, el. rewrite Hd. apply Hh. by left.
    + unfold observed. rewrite Ho. apply observeEach_elem. right.
      by rewrite Hset.
  - by rewrite Ha, Hset.
  - done.
  - done.
  - by rewrite Hbody, Hb.
Qed.

(** X11: the re-arm.  On a host with an intersection observer, when
    reduced motion is turned off every registered element is pending again
    and is a target of the new observer; the pending queue is empty and the
    body has lost the [reduced-motion] class. *)
Theorem reduced_motion_off_rearms st :
  supportsObserver st = true ->
  let st' := onChange false st in
  (forall e, e ∈ animatedElements st -> visible st' e = false /\ observed st' e)
  /\ animatedElements st' = animatedElements st
  /\ pendingElements st' = []
  /\ prefersReducedMotion st' = false
  /\ contains "reduced-motion" (body st') = false.
Proof.
  intros Hs. cbv zeta. unfold onChange.
  destruct (resetObserver_normal
              (Animations false (supportsObserver st) (observer st)
                 (animatedElements st) (pendingElements st)
                 (toggle "reduced-motion" false (body st)) (document st)))
    as (Hk & Ha & Hp & Hr & Hb); [done|done|].
  split_and!; try done.
  rewrite Hb. apply contains_remove.
Qed.

Lemma setup_degraded st e :
  prefersReducedMotion st || negb (supportsObserver st) = true ->
  e ∈ animatedElements st ->
  visible (setupIntersectionObserver st) e = true.
Proof.
  intros Hdeg He. unfold setupIntersectionObserver. rewrite Hdeg.
  unfold visible, el, showAll. cbn [document set_pendingElements].
  by apply (showEach_visible (animatedElements st) e st).
Qed.

Lemma resetObserver_degraded st e :
  supportsObserver st = false ->
  e ∈ animatedElements st ->
  visible (resetObserver st) e = true.
Proof.
  intros Hs He. unfold resetObserver. cbv zeta.
  pose proof (hideEach_frame (animatedElements (set_observer None st))
                (set_observer None st)) as Hf.
  cbv zeta in Hf.
  remember (foldl (fun s e => update e (with_classList (remove "is-visible")) s)
              (set_observer None st) (animatedElements (set_observer None st)))
    as st2 eqn:E2.
  destruct Hf as (Hset & _ & _ & _ & Hsup).
  cbn [animatedElements supportsObserver set_observer] in Hset, Hsup.
  apply setup_degraded.
  - cbn [prefersReducedMotion supportsObserver set_pendingElements].
    rewrite Hsup, Hs. apply orb_true_r.
  - cbn [animatedElements set_pendingElements]. by rewrite Hset.
Qed.

(** X12: when reduced motion is turned on, every registered element is
    visible at once; on a host without an intersection observer every
    registered element is visible after a change of the preference in either
    direction. *)
Theorem preference_change_reveals st (matches : bool) :
  matches = true \/ supportsObserver st = false ->
  forall e, e ∈ animatedElements st -> visible (onChange matches st) e = true.
Proof.
  intros Hm e He. destruct matches.
  - unfold onChange, showAll.
    by apply (showEach_visible (animatedElements st) e).
  - destruct Hm as [Hm|Hm]; [discriminate Hm|].
    unfold onChange. by apply resetObserver_degraded.
Qed.

End ReportFacts.

Lemma reduced_motion_off_rearms_witness :
  Reveal.visible (Reveal.onChange false (Reveal.showElement 0 one_element)) 0 = false
  /\ Lifecycle.observed (Reveal.onChange false (Reveal.showElement 0 one_element)) 0.
Proof.
  destruct (reduced_motion_off_rearms (Reveal.showElement 0 one_element) eq_refl)
    as (Hk & _).
  apply Hk. apply elem_of_cons. by left.
Defined.

Lemma preference_change_reveals_witness :
  Reveal.visible (Reveal.onChange true one_element) 0 = true.
Proof.
  apply (preference_change_reveals one_element true); [by left|].
  apply elem_of_cons. by left.
Defined.

Section DeliveryFacts.
Import Dom Reveal Lifecycle Reports.
Implicit Types (st : animations) (e : nat).

Lemma visible_showElement_ne st e e' :
  e <> e' -> visible (showElement e st) e' = visible st e'.
Proof. intros Hne. unfold visible, showElement. by rewrite el_update_ne. Qed.

(** The callback on a batch of entries: the targets left are those that no
    entry reports as intersecting, and the elements visible afterwards are
    those that were visible and those reported. *)
Lemma observerCallback_spec entries : forall st ts,
  observer st = Some ts ->
  observer (observerCallback entries st)
  = Some (filter (fun x => (x, true) ∉ entries) ts)
  /\ forall e, visible (observerCallback entries st) e = true
               <-> visible st e = true \/ reported entries e.
Proof.
  unfold observerCallback, reported.
  induction entries as [|[t b] entries IH]; intros st ts Ho.
  - simpl. split.
    + rewrite Ho. f_equal. clear Ho. induction ts as [|x ts IHts]; [done|].
      rewrite filter_cons_True by apply not_elem_of_nil. by rewrite <- IHts.
    + intros e. split; [by left|]. intros [H|H]; [done|].
      by apply elem_of_nil in H.
  - cbn [foldl fst snd]. destruct b.
    + assert (Ho1 : observer (showElement t st) = Some ts) by done.
      rewrite Ho1.
      destruct (IH (set_observer (Some (unobserve t ts)) (showElement t st))
                  (unobserve t ts) eq_refl) as [Hobs Hvis].
      split.
      * rewrite Hobs. f_equal. unfold unobserve. rewrite list_filter_filter.
        apply list_filter_iff. intros x. rewrite elem_of_cons.
        split.
        -- intros [Hn Hx] [Heq|Hin]; [congruence|done].
        -- intros Hn. split; [intros Hin; apply Hn; by right|].
           intros ->. apply Hn. by left.
      * intros e. rewrite Hvis. rewrite elem_of_cons.
        change (visible (set_observer (Some (unobserve t ts)) (showElement t st)) e)
          with (visible (showElement t st) e).
        destruct (decide (t = e)) as [->|Hne].
        -- rewrite visible_showElement. split; [|by left].
           intros _. right. by left.
        -- rewrite visible_showElement_ne by done. split.
           ++ intros [H|H]; [by left|right; by right].
           ++ intros [H|[H|H]]; [by left| |by right].
              inversion H. congruence.
    + destruct (IH st ts Ho) as [Hobs Hvis]. split.
      * rewrite Hobs. f_equal. apply list_filter_iff. intros x.
        rewrite elem_of_cons. split.
        -- intros Hn [Heq|Hin]; [discriminate Heq|done].
        -- intros Hn Hin. apply Hn. by right.
      * intros e. rewrite Hvis, elem_of_cons. split.
        -- intros [H|H]; [by left|right; by right].
        -- intros [H|[H|H]]; [by left|discriminate H|by right].
Qed.

(** X13: a report of the observer reveals exactly the targets it says are
    intersecting and stops watching them.  After the report a target that an
    entry reports as intersecting is visible and is no target any more; an
    element that no such entry names keeps its visibility and stays a target
    if it was one.  Entries about elements that are not targets are
    ignored. *)
Theorem report_reveals_and_unobserves st (ts : list nat)
  (entries : list (nat * bool)) :
  observer st = Some ts ->
  let st' := deliver entries st in
  (forall e, e ∈ ts -> reported entries e ->
             visible st' e = true /\ ~ observed st' e)
  /\ (forall e, ~ (e ∈ ts /\ reported entries e) ->
             visible st' e = visible st e /\ (observed st' e <-> e ∈ ts)).
Proof.
  intros Ho. cbv zeta. unfold deliver. rewrite Ho.
  set (es := filter (fun entry : nat * bool => fst entry ∈ ts) entries).
  destruct (observerCallback_spec es st ts Ho) as [Hobs Hvis].
  assert (Hes : forall e, reported es e <-> e ∈ ts /\ reported entries e).
  { intros e. unfold reported, es. rewrite list_elem_of_filter. simpl. tauto. }
  split.
  - intros e He Hr. split.
    + apply Hvis. right. by apply Hes.
    + unfold observed. rewrite Hobs. rewrite list_elem_of_filter.
      intros [Hn _]. apply Hn. by apply Hes.
  - intros e Hn. split.
    + destruct (visible st e) eqn:Ev.
      * apply Hvis. by left.
      * apply not_true_iff_false. intros H. apply Hvis in H as [H|H]; [congruence|].
        by apply Hn, Hes.
    + unfold observed. rewrite Hobs, list_elem_of_filter. split; [tauto|].
      intros He. split; [|done]. intros Hr. by apply Hn, Hes.
Qed.

(** *** The [loading] attribute *)

Lemma prepareElement_loading element ty d st e' :
  loading (el (prepareElement element ty d st) e') = loading (el st e').
Proof.
  destruct element as [e|]; [|done]. unfold prepareElement.
  case_bool_decide.
  - destruct (Number.truthy d); [|done].
    destruct (decide (e = e')) as [->|Hne];
      [by rewrite el_update_eq|by rewrite el_update_ne].
  - destruct (negb (truthy_str _)), (Number.truthy d); simpl;
      destruct (observer st); unfold el, update, get; simpl;
      (destruct (decide (e = e')) as [->|Hne];
       [by rewrite ?lookup_insert_eq; simpl; rewrite ?lookup_insert_eq
       |by rewrite ?lookup_insert_ne by done]).
Qed.

Lemma image_step_loading index image s :
  loading (el (image_step index image s) image)
  = Some (loading_after index (loading (el s image)))
  /\ forall e', image <> e' ->
       loading (el (image_step index image s) e') = loading (el s e').
Proof.
  unfold image_step, loading_after. split.
  - rewrite prepareElement_loading.
    destruct (loading (el s image)) as [v|] eqn:E.
    + rewrite bool_decide_eq_true_2 by (by eexists). cbn [negb]. by rewrite E.
    + rewrite bool_decide_eq_false_2 by (intros [? ?]; done). cbn [negb].
      by rewrite el_update_eq.
  - intros e' Hne. rewrite prepareElement_loading.
    destruct (negb _); [|done]. by rewrite el_update_ne.
Qed.

Lemma forEachFrom_loading (l : list nat) : forall k st,
  (forall e, e ∉ l ->
     loading (el (forEachFrom k image_step l st) e) = loading (el st e))
  /\ (forall i e, NoDup l -> l !! i = Some e ->
     loading (el (forEachFrom k image_step l st) e)
     = Some (loading_after (k + i) (loading (el st e)))).
Proof.
  induction l as [|a l IH]; intros k st.
  - split; [done|]. intros i e _ Hi. done.
  - destruct (IH (S k) (image_step k a st)) as [IHo IHi].
    destruct (image_step_loading k a st) as [Ha Hother].
    cbn [forEachFrom]. split.
    + intros e He. apply not_elem_of_cons in He as [Hne He].
      rewrite IHo by done. apply Hother. congruence.
    + intros i e Hnd Hi. apply NoDup_cons in Hnd as [Hal Hnd].
      destruct i as [|i]; simpl in Hi.
      * injection Hi as ->. rewrite IHo by done. by rewrite Nat.add_0_r.
      * assert (a <> e) by (intros ->; apply Hal; by eapply list_elem_of_lookup_2).
        rewrite (IHi i e Hnd Hi). rewrite Hother by done.
        by replace (S k + i)%nat with (k + S i)%nat by lia.
Qed.

(** X14: after [prepareImages] every image of the page has a [loading]
    attribute: the one it came with when it had one, otherwise [eager] for
    the first two images of the document and [lazy] for all others. *)
Theorem images_get_loading (p : page) st index image :
  NoDup (querySelectorAll p "img") ->
  querySelectorAll p "img" !! index = Some image ->
  loading (el (prepareImages p st) image)
  = Some (loading_after index (loading (el st image))).
Proof.
  intros Hnd Hi.
  destruct (forEachFrom_loading (querySelectorAll p "img") 0%nat st) as [_ H].
  exact (H index image Hnd Hi).
Qed.

End DeliveryFacts.

Lemma report_reveals_and_unobserves_witness :
  Reveal.visible (Reveal.deliver [(0%nat, true); (7%nat, true)] one_element) 0 = true
  /\ ~ Lifecycle.observed
         (Reveal.deliver [(0%nat, true); (7%nat, true)] one_element) 0.
Proof.
  destruct (report_reveals_and_unobserves one_element [0%nat]
              [(0%nat, true); (7%nat, true)] eq_refl) as [H _].
  apply H.
  - apply elem_of_cons. by left.
  - apply elem_of_cons. by left.
Defined.

Lemma images_get_loading_witness :
  Dom.loading (Reveal.el gallery 1) = Some "eager"
  /\ Dom.loading (Reveal.el gallery 2) = Some "lazy".
Proof.
  assert (Hnd : NoDup (Dom.querySelectorAll twelve_images "img")).
  { simpl. apply (bool_decide_unpack _). vm_compute. exact I. }
  unfold gallery. split.
  - rewrite (images_get_loading twelve_images (Reveal.initial false true)
               1%nat 1%nat Hnd eq_refl). reflexivity.
  - rewrite (images_get_loading twelve_images (Reveal.initial false true)
               2%nat 2%nat Hnd eq_refl). reflexivity.
Defined.

(* --------------------------------------------------------------------- *)
(** ** More on the carousel                                               *)
(* --------------------------------------------------------------------- *)

Section CarouselMoreFacts.
Import Dom Carousel.
Implicit Types (c : carousel) (l : list (list string)).

Lemma ticks_step c :
  slides c <> [] ->
  currentSlide (step c Tick) = ((currentSlide c + 1) mod length (slides c))%nat
  /\ length (slides (step c Tick)) = length (slides c)
  /\ active (slides (step c Tick)) = [currentSlide (step c Tick)].
Proof.
  intros Hne. unfold step. rewrite bool_decide_eq_false_2 by (by destruct (slides c)).
  unfold nextSlide. simpl. rewrite length_mark, active_mark.
  rewrite bool_decide_eq_true_2; [done|].
  apply Nat.mod_upper_bound. by destruct (slides c).
Qed.

(** X15: the interval cycles through the slides.  After [k] firings of the
    interval the index has advanced by [k] modulo the number of slides, so a
    full round brings the carousel back to the slide it started from; after
    at least one firing exactly the current slide is active. *)
Theorem ticks_advance_modulo c (k : nat) :
  slides c <> [] ->
  (currentSlide c < length (slides c))%nat ->
  let c' := run (repeat Tick k) c in
  currentSlide c' = ((currentSlide c + k) mod length (slides c))%nat
  /\ (k = length (slides c) -> currentSlide c' = currentSlide c)
  /\ ((0 < k)%nat -> active (slides c') = [currentSlide c']).
Proof.
  intros Hne Hcur. cbv zeta.
  assert (H : forall k c0, slides c0 <> [] ->
            currentSlide (run (repeat Tick k) c0)
            = (if k is O then currentSlide c0
               else ((currentSlide c0 + k) mod length (slides c0))%nat)
            /\ length (slides (run (repeat Tick k) c0)) = length (slides c0)
            /\ ((0 < k)%nat ->
                active (slides (run (repeat Tick k) c0))
                = [currentSlide (run (repeat Tick k) c0)])).
  { clear. unfold run. induction k as [|k IH]; intros c0 Hne.
    - simpl. split_and!; [done|done|lia].
    - destruct (ticks_step c0 Hne) as (Hc & Hl & Ha).
      assert (Hne' : slides (step c0 Tick) <> []).
      { intros Hnil. rewrite Hnil in Hl. by destruct (slides c0). }
      destruct (IH (step c0 Tick) Hne') as (IHc & IHl & IHa).
      cbn [repeat foldl]. split_and!.
      + rewrite IHc. destruct k as [|k]; [by rewrite Hc|]. rewrite Hc, Hl.
        rewrite Nat.Div0.add_mod_idemp_l. f_equal. lia.
      + by rewrite IHl.
      + intros _. destruct k as [|k]; [done|]. apply IHa. lia. }
  destruct (H k c Hne) as (Hc & Hl & Ha).
  assert (Hk : currentSlide (run (repeat Tick k) c)
               = ((currentSlide c + k) mod length (slides c))%nat).
  { rewrite Hc. destruct k; [|done].
    by rewrite Nat.add_0_r, Nat.mod_small. }
  split_and!; [done| |done].
  intros ->. rewrite Hk.
  rewrite <- (Nat.mul_1_l (length (slides c))) at 1.
  rewrite Nat.Div0.mod_add. by apply Nat.mod_small.
Qed.

Lemma remove_add t (x : list string) : remove t (add t x) = remove t x.
Proof.
  unfold add. destruct (contains t x); [done|].
  unfold remove. rewrite filter_app, filter_cons_False, filter_nil by (by intros H).
  apply app_nil_r.
Qed.

Lemma remove_remove t (x : list string) : remove t (remove t x) = remove t x.
Proof. unfold remove. apply list_filter_filter_l. done. Qed.

Lemma toggle_toggle t b (x : list string) : toggle t b (toggle t b x) = toggle t b x.
Proof. destruct b; simpl; [apply add_add|apply remove_remove]. Qed.

Lemma remove_toggle t b (x : list string) : remove t (toggle t b x) = remove t x.
Proof. destruct b; simpl; [apply remove_add|apply remove_remove]. Qed.

Lemma mark_mark index l : mark index (mark index l) = mark index l.
Proof.
  apply list_eq. intros i. unfold mark. rewrite !list_lookup_imap.
  destruct (l !! i) as [x|]; [|done]. simpl. by rewrite toggle_toggle.
Qed.

Lemma mark_other_classes index l :
  remove "active" <$> mark index l = remove "active" <$> l.
Proof.
  apply list_eq. intros i. unfold mark.
  rewrite !list_lookup_fmap, list_lookup_imap.
  destruct (l !! i) as [x|]; [|done]. simpl. by rewrite remove_toggle.
Qed.

(** X16: [showSlide] writes the [active] class and nothing else: every
    other class of every slide and dot is kept, in order, and showing the
    same slide again changes nothing. *)
Theorem showSlide_touches_active_only index c :
  remove "active" <$> slides (showSlide index c) = remove "active" <$> slides c
  /\ remove "active" <$> dots (showSlide index c) = remove "active" <$> dots c
  /\ showSlide index (showSlide index c) = showSlide index c.
Proof.
  unfold showSlide. simpl. rewrite !mark_other_classes, !mark_mark. done.
Qed.

(** X17: a click on the dot at position [index], when the page has a slide
    at that position, shows that slide and highlights that dot and no
    other. *)
Theorem dot_click_selects c index :
  (index < length (dots c))%nat ->
  (index < length (slides c))%nat ->
  let c' := step c (DotClick index) in
  currentSlide c' = index
  /\ active (slides c') = [index]
  /\ active (dots c') = [index].
Proof.
  intros Hd Hs. cbv zeta. unfold step.
  rewrite bool_decide_eq_false_2 by lia.
  rewrite bool_decide_eq_true_2 by done.
  unfold dotClick. simpl. rewrite !active_mark.
  by rewrite !bool_decide_eq_true_2.
Qed.

End CarouselMoreFacts.

Lemma ticks_advance_modulo_witness :
  let c := Carousel.Carousel [["hero-slide"; "active"]; ["hero-slide"]; ["hero-slide"]]
             [["dot"; "active"]; ["dot"]; ["dot"]] 0 in
  Carousel.currentSlide (Carousel.run (repeat Carousel.Tick 3) c) = 0%nat.
Proof.
  intros c.
  destruct (ticks_advance_modulo c 3) as (_ & H & _);
    [discriminate|simpl; lia|].
  by apply H.
Defined.

Lemma dot_click_selects_witness :
  let c := Carousel.Carousel [["hero-slide"; "active"]; ["hero-slide"]]
             [["dot"; "active"]; ["dot"]] 0 in
  Carousel.active (Carousel.slides (Carousel.step c (Carousel.DotClick 1))) = [1%nat].
Proof.
  intros c.
  destruct (dot_click_selects c 1) as (_ & H & _); [simpl; lia|simpl; lia|].
  exact H.
Defined.

(* --------------------------------------------------------------------- *)
(** ** The first-load mark                                                *)
(* --------------------------------------------------------------------- *)

Section VisibilityFacts.
Import Dom Session Visibility.
Implicit Types (w : window) (m : main).

Lemma loads_visited w (pages : list (option main)) :
  hasDOM w = true -> visited w ->
  loads w pages = map (fmap (reveal false)) pages.
Proof.
  intros Hdom Hv. induction pages as [|[m|] pages IH]; [done| |].
  - cbn [loads]. unfold setupPageVisibility. rewrite Hdom. cbn [negb].
    rewrite later_call by done. by rewrite IH.
  - cbn [loads]. unfold setupPageVisibility. rewrite Hdom. cbn [negb].
    by rewrite IH.
Qed.


End VisibilityFacts.


(* --------------------------------------------------------------------- *)
(** ** The theme switch                                                   *)
(* --------------------------------------------------------------------- *)

Section ThemeFacts.
Import Dom Theme.
Implicit Types (t : theme).

Lemma contains_add_ne u v (l : list string) :
  u <> v -> contains u (add v l) = contains u l.
Proof.
  intros Hne. unfold add. destruct (contains v l); [done|].
  unfold contains. apply bool_decide_ext. rewrite elem_of_app.
  rewrite list_elem_of_singleton. tauto.
Qed.

Lemma contains_remove_ne u v (l : list string) :
  u <> v -> contains u (remove v l) = contains u l.
Proof.
  intros Hne. unfold contains, remove. apply bool_decide_ext.
  rewrite list_elem_of_filter. tauto.
Qed.

Lemma theme_classes (isDark : bool) (l : list string) :
  let themeClass := if isDark then "dark-theme" else "light-theme" in
  let removeClass := if isDark then "light-theme" else "dark-theme" in
  contains "dark-theme" (add themeClass (remove removeClass l)) = isDark
  /\ contains "light-theme" (add themeClass (remove removeClass l)) = negb isDark.
Proof.
  destruct isDark; simpl.
  - split; [apply contains_add|].
    rewrite contains_add_ne by done. apply contains_remove.
  - split; [|apply contains_add].
    rewrite contains_add_ne by done. apply contains_remove.
Qed.

(** X19: [theme.set] leaves the page with exactly one of the two theme
    classes, the one asked for, on both the root element and the body.  When
    the storage accepts the write the choice is stored under [theme] and
    every toggle announces it; when the storage throws, the classes have
    changed all the same, but the call does not return: the stored theme and
    the toggles stay as they were. *)
Theorem theme_set_switches (isDark : bool) t :
  let t' := fst (set isDark t) in
  contains "dark-theme" (html t') = isDark
  /\ contains "light-theme" (html t') = negb isDark
  /\ contains "dark-theme" (body t') = isDark
  /\ contains "light-theme" (body t') = negb isDark
  /\ (setItem_throws t = false ->
      snd (set isDark t) = true
      /\ storage t' !! "theme" = Some (if isDark then "dark" else "light")
      /\ announced isDark t')
  /\ (setItem_throws t = true ->
      snd (set isDark t) = false
      /\ storage t' = storage t /\ toggles t' = toggles t).
Proof.
  cbv zeta. unfold set. cbn [setItem_throws].
  destruct (theme_classes isDark (html t)) as [Hh Hh'].
  destruct (theme_classes isDark (body t)) as [Hb Hb'].
  cbv zeta in Hh, Hh', Hb, Hb'.
  destruct (setItem_throws t) eqn:E; cbn [fst snd html body storage toggles syncToggles].
  - split_and!; try done.
  - split_and!; try done. intros _. split_and!; [done| |].
    + by rewrite lookup_insert_eq.
    + unfold announced. cbn [toggles]. apply Forall_forall.
      intros s Hs. apply list_elem_of_fmap in Hs as (? & -> & _). done.
Qed.

(** X20: a click on a theme toggle switches between the dark and the light
    theme, whether or not the storage accepts the write, and a second click
    switches back; when the storage works the stored theme names the theme
    shown. *)
Theorem theme_click_flips t :
  let t' := fst (click t) in
  dark t' = negb (dark t)
  /\ dark (fst (click t')) = dark t
  /\ (setItem_throws t = false ->
      storage t' !! "theme" = Some (if dark t' then "dark" else "light")).
Proof.
  cbv zeta. unfold click, dark.
  assert (Hd : forall b t0, contains "dark-theme" (body (fst (set b t0))) = b).
  { intros b t0. unfold set. cbn [setItem_throws].
    destruct (theme_classes b (body t0)) as [Hb _]. cbv zeta in Hb.
    by destruct (setItem_throws t0). }
  split_and!.
  - apply Hd.
  - rewrite !Hd. apply negb_involutive.
  - intros Hs. rewrite Hd. unfold set. cbn [setItem_throws]. rewrite Hs.
    cbn [fst storage syncToggles]. by rewrite lookup_insert_eq.
Qed.

End ThemeFacts.

(* --------------------------------------------------------------------- *)
(** ** The scroll-aware navigation bar                                    *)
(* --------------------------------------------------------------------- *)

Section NavScrollFacts.
Import Dom NavScroll.
Implicit Types (b : bar) (v : viewport) (s : scroller).

Lemma le_true (x y : Q) : le x y = true <-> (x <= y)%Q.
Proof. apply Qle_bool_iff. Qed.

Lemma lt_true (x y : Q) : lt x y = true <-> (x < y)%Q.
Proof.
  unfold lt. rewrite negb_true_iff. split.
  - intros H. apply Qnot_le_lt. intros Hle. apply Qle_bool_iff in Hle. congruence.
  - intros H. apply not_true_iff_false. intros Hle. apply Qle_bool_iff in Hle.
    by apply Qlt_not_le in H.
Qed.

Lemma update_consistent navHeight v b :
  consistent navHeight b -> consistent navHeight (updateNavPosition navHeight v b).
Proof.
  intros (Hh & Hs & _). unfold updateNavPosition, consistent.
  assert (Hlast : (0 <= (if le (currentScroll v) 0 then 0 else currentScroll v))%Q).
  { destruct (le (currentScroll v) 0) eqn:E; [done|].
    apply Qlt_le_weak, lt_true. unfold lt. unfold le in E. by rewrite E. }
  destruct b as [l h t tr]. cbn [lastScrollTop isNavHidden style_transform] in *.
  destruct (lt l (currentScroll v) && lt (navHeight * (3 # 2)) (currentScroll v)).
  - destruct h; cbn [negb isNavHidden style_transform lastScrollTop];
      split_and!; auto; discriminate.
  - destruct (lt (currentScroll v) l || le (currentScroll v) navHeight).
    + destruct (h || le (currentScroll v) navHeight);
        cbn [isNavHidden style_transform lastScrollTop];
        split_and!; auto; discriminate.
    + cbn [isNavHidden style_transform lastScrollTop]. split_and!; auto.
Qed.

(** X21: the flag and the style of the bar never disagree.  From the bar as
    the page loads it, after any sequence of scroll positions the bar is
    flagged hidden exactly when its transform moves it out of view (by its
    height and 50 pixels), it is otherwise untouched or at offset 0, and the
    remembered scroll position is never negative. *)
Theorem nav_flag_matches_style navHeight (vs : list viewport) :
  consistent navHeight
    (foldl (fun b v => updateNavPosition navHeight v b) initial vs).
Proof.
  assert (H : forall b, consistent navHeight b ->
            consistent navHeight
              (foldl (fun b v => updateNavPosition navHeight v b) b vs)).
  { induction vs as [|v vs IH]; intros b Hb; [done|]. simpl.
    by apply IH, update_consistent. }
  apply H. unfold consistent, initial. simpl. split_and!; [done|by left|done].
Qed.

(** X22: when the bar shows and when it hides.  At a scroll position
    within the height of the bar the bar is shown; scrolling up never leaves
    it hidden; and it becomes hidden only while scrolling down beyond one
    and a half times its height, where it always ends up hidden. *)
Theorem nav_hides_only_scrolling_down navHeight v b :
  let b' := updateNavPosition navHeight v b in
  let current := currentScroll v in
  ((current <= navHeight)%Q -> (0 <= navHeight)%Q ->
     isNavHidden b' = false /\ style_transform b' = TranslateY 0)
  /\ ((current < lastScrollTop b)%Q -> isNavHidden b' = false)
  /\ (isNavHidden b = false -> isNavHidden b' = true ->
      (lastScrollTop b < current)%Q /\ (navHeight * (3 # 2) < current)%Q)
  /\ ((lastScrollTop b < current)%Q -> (navHeight * (3 # 2) < current)%Q ->
      isNavHidden b' = true).
Proof.
  cbv zeta. unfold updateNavPosition. cbn [isNavHidden style_transform].
  split_and!.
  - intros Hle Hh.
    assert (Hd : lt (navHeight * (3 # 2)) (currentScroll v) = false).
    { apply not_true_iff_false. intros H. apply lt_true in H.
      apply (Qlt_not_le _ _ H). lra. }
    apply le_true in Hle. rewrite Hd, Hle, andb_false_r, !orb_true_r. done.
  - intros Hup.
    assert (Hd : lt (lastScrollTop b) (currentScroll v) = false).
    { apply not_true_iff_false. intros H. apply lt_true in H. lra. }
    apply lt_true in Hup. rewrite Hd, Hup. cbn [andb orb].
    by destruct (isNavHidden b || le (currentScroll v) navHeight) eqn:E,
      (isNavHidden b) eqn:E'.
  - intros Hb.
    destruct (lt (lastScrollTop b) (currentScroll v)) eqn:E1,
      (lt (navHeight * (3 # 2)) (currentScroll v)) eqn:E2; cbn [andb].
    + intros _. split; by apply lt_true.
    + destruct (_ || _); [|congruence].
      destruct (_ || _); cbn [isNavHidden]; congruence.
    + destruct (_ || _); [|congruence].
      destruct (_ || _); cbn [isNavHidden]; congruence.
    + destruct (_ || _); [|congruence].
      destruct (_ || _); cbn [isNavHidden]; congruence.
  - intros H1 H2. apply lt_true in H1, H2. rewrite H1, H2. cbn [andb].
    destruct (isNavHidden b) eqn:E; cbn [negb isNavHidden]; done.
Qed.

(** Scroll events that arrive while a frame is awaited only move the
    viewport. *)
Lemma scrolls_while_ticking navHeight (vs : list viewport) : forall s,
  ticking s = true ->
  run navHeight (map Scroll vs) s
  = Scroller (nav s) true (queued s) (default (view s) (last vs)).
Proof.
  unfold run. induction vs as [|v vs IH]; intros s Ht.
  - destruct s as [n t q w]. cbn in *. by subst t.
  - cbn [map foldl step]. rewrite Ht. cbn [negb]. rewrite IH by done.
    cbn [nav queued view]. f_equal.
    destruct vs as [|v' vs]; [done|]. rewrite last_cons_cons.
    destruct (last (v' :: vs)) eqn:E; [done|]. by apply last_None in E.
Qed.

(** X23: scroll events are coalesced.  However many scroll events arrive
    before the next animation frame, one callback is queued and the frame
    updates the bar once, from the position of the last event; afterwards
    nothing is queued and the listener is ready again. *)
Theorem scroll_events_coalesce navHeight v0 (vs : list viewport) v b :
  let s := Scroller b false 0 v0 in
  run navHeight (map Scroll (vs ++ [v]) ++ [Frame]) s
  = Scroller (updateNavPosition navHeight v b) false 0 v
  /\ queued (run navHeight (map Scroll (vs ++ [v])) s) = 1%nat.
Proof.
  cbv zeta. unfold run. rewrite foldl_app.
  fold (run navHeight (map Scroll (vs ++ [v])) (Scroller b false 0 v0)).
  assert (H : run navHeight (map Scroll (vs ++ [v])) (Scroller b false 0 v0)
              = Scroller b true 1 v).
  { destruct vs as [|v1 vs]; [done|].
    change (run navHeight (map Scroll ((v1 :: vs) ++ [v])) (Scroller b false 0 v0))
      with (run navHeight (map Scroll (vs ++ [v])) (Scroller b true 1 v1)).
    rewrite scrolls_while_ticking by done. simpl. by rewrite last_snoc. }
  rewrite H. done.
Qed.

End NavScrollFacts.

(* --------------------------------------------------------------------- *)
(** ** The page optimizer                                                 *)
(* --------------------------------------------------------------------- *)

Section LazyImagesFacts.
Import Dom LazyImages.
Implicit Types (o : optimizer) (e : nat).

Lemma img_write_eq o e f : img (write e f o) e = f (img o e).
Proof. unfold img, write. simpl. by rewrite lookup_insert_eq. Qed.

Lemma img_write_ne o e e' f : e <> e' -> img (write e f o) e' = img o e'.
Proof. intros H. unfold img, write. simpl. by rewrite lookup_insert_ne. Qed.

Lemma lazyEach (l : list nat) e : forall o,
  img (foldl (fun s a => write a lazy s) o l) e
  = if bool_decide (e ∈ l) then lazy (img o e) else img o e.
Proof.
  induction l as [|a l IH]; intros o; [done|]. simpl. rewrite IH.
  destruct (decide (a = e)) as [->|Hne].
  - rewrite img_write_eq. rewrite (bool_decide_eq_true_2 (e ∈ e :: l)) by left.
    by destruct (bool_decide (e ∈ l)).
  - rewrite img_write_ne by done.
    apply (f_equal (fun b : bool => if b then lazy (img o e) else img o e)).
    apply bool_decide_ext. rewrite elem_of_cons. split; [by right|].
    intros [Heq|Hin]; [congruence|done].
Qed.

Lemma lazyEach_targets (l : list nat) : forall o,
  targets (foldl (fun s a => write a lazy s) o l) = targets o.
Proof. induction l as [|a l IH]; intros o; [done|]. simpl. by rewrite IH. Qed.

Lemma observeEach_iff (l : list nat) e : forall ts,
  e ∈ foldl (fun ts a => Reveal.observe a ts) ts l <-> e ∈ ts \/ e ∈ l.
Proof.
  induction l as [|a l IH]; intros ts; simpl.
  - rewrite elem_of_nil. tauto.
  - rewrite IH, elem_of_cons. unfold Reveal.observe.
    case_bool_decide as Ha.
    + split; [tauto|]. intros [H|[->|H]]; [by left|by left|by right].
    + rewrite elem_of_app, list_elem_of_singleton. tauto.
Qed.

Lemma optimizeImages_img supports (all : list nat) o a :
  img (fst (optimizeImages supports all o)) a
  = if bool_decide (a ∈ filter (fun e => loading (img o e) = None) all)
    then lazy (img o a) else img o a.
Proof.
  unfold optimizeImages. cbv zeta. destruct supports; cbn [fst];
    exact (lazyEach (filter (fun e => loading (img o e) = None) all) a o).
Qed.

(** X24: after [optimizeImages] every image of the document has a
    [loading] attribute, the one it came with or [lazy], and sources are
    left alone, on every host.  On a host with [IntersectionObserver] the
    call returns and the observer watches exactly the images that have a
    [data-src] attribute; on a host without it the call throws, no image is
    observed, and [init] never adds the preconnect hints. *)
Theorem images_lazy_by_default (supports : bool) (all : list nat) o e :
  e ∈ all ->
  let r := optimizeImages supports all o in
  loading (img (fst r) e) = Some (default "lazy" (loading (img o e)))
  /\ src (img (fst r) e) = src (img o e)
  /\ data_src (img (fst r) e) = data_src (img o e)
  /\ snd r = supports
  /\ (supports = true ->
      (e ∈ targets (fst r) <-> is_Some (data_src (img o e))))
  /\ (supports = false ->
      targets (fst r) = targets o
      /\ forall links, snd (init supports all (o, links)) = links).
Proof.
  intros He. cbv zeta.
  assert (Hd : forall a, data_src (img (fst (optimizeImages supports all o)) a)
                         = data_src (img o a)).
  { intros a. rewrite optimizeImages_img. by destruct (bool_decide _). }
  split_and!.
  - rewrite optimizeImages_img. case_bool_decide as Hin.
    + apply list_elem_of_filter in Hin as [Hl _]. simpl. by rewrite Hl.
    + destruct (loading (img o e)) as [x|] eqn:El; [done|].
      exfalso. apply Hin. by apply list_elem_of_filter.
  - rewrite optimizeImages_img. by destruct (bool_decide _).
  - apply Hd.
  - unfold optimizeImages. by destruct supports.
  - intros ->. specialize (Hd e). revert Hd.
    unfold optimizeImages. cbv zeta. cbn [fst targets]. intros Hd.
    rewrite observeEach_iff, elem_of_nil, list_elem_of_filter.
    change (img (Optimizer
                   (images (foldl (fun s a => write a lazy s) o
                      (filter (fun a => loading (img o a) = None) all)))
                   (foldl (fun ts a => Reveal.observe a ts) []
                      (filter
                         (fun a => is_Some (data_src
                            (img (foldl (fun s a => write a lazy s) o
                               (filter (fun a => loading (img o a) = None) all))
                               a))) all))) e)
      with (img (foldl (fun s a => write a lazy s) o
                   (filter (fun a => loading (img o a) = None) all)) e) in Hd.
    rewrite Hd. tauto.
  - intros ->. split.
    + unfold optimizeImages. cbv zeta. cbn [fst]. apply lazyEach_targets.
    + intros links. reflexivity.
Qed.

Lemma unobserve_absent e (ts : list nat) : e ∉ ts -> Reveal.unobserve e ts = ts.
Proof.
  intros H. unfold Reveal.unobserve. induction ts as [|a ts IH]; [done|].
  apply not_elem_of_cons in H as [Hne H].
  rewrite filter_cons_True by done. f_equal. by apply IH.
Qed.

Lemma deliver_one o e :
  deliver [(e, true)] o
  = if bool_decide (e ∈ targets o) && truthy_str (data_src (img o e))
    then Optimizer
           (<[e := Image (loading (img o e)) (data_src (img o e)) None]> (images o))
           (Reveal.unobserve e (targets o))
    else o.
Proof.
  unfold deliver. rewrite filter_cons, filter_nil. cbn [fst].
  case_bool_decide as He.
  - rewrite decide_True by done. unfold imageCallback. cbn [foldl fst snd andb].
    by destruct (truthy_str (data_src (img o e))).
  - by rewrite decide_False by done.
Qed.

(** X25: the swap.  When the observer reports a target whose [data-src] is
    not empty as intersecting, the image gets that value as its [src],
    loses the [data-src] attribute and is no target any more, and reporting
    it again changes nothing.  A target whose [data-src] is the empty string
    is left as it is and stays a target. *)
Theorem lazy_image_swaps_once o e :
  e ∈ targets o ->
  let o' := deliver [(e, true)] o in
  (truthy_str (data_src (img o e)) = true ->
     src (img o' e) = data_src (img o e)
     /\ data_src (img o' e) = None
     /\ loading (img o' e) = loading (img o e)
     /\ (e ∉ targets o')
     /\ deliver [(e, true)] o' = o')
  /\ (truthy_str (data_src (img o e)) = false -> o' = o).
Proof.
  intros He. cbv zeta. rewrite (deliver_one o e).
  rewrite bool_decide_eq_true_2 by done. cbn [andb]. split.
  - intros Ht. rewrite Ht.
    set (o1 := Optimizer
                 (<[e := Image (loading (img o e)) (data_src (img o e)) None]>
                    (images o))
                 (Reveal.unobserve e (targets o))).
    assert (Hi : img o1 e = Image (loading (img o e)) (data_src (img o e)) None).
    { unfold o1, img. cbn [images]. by rewrite lookup_insert_eq. }
    assert (Hn : e ∉ targets o1).
    { unfold o1. cbn [targets]. unfold Reveal.unobserve.
      rewrite list_elem_of_filter. intros [H _]. by apply H. }
    rewrite Hi. split_and!; try done.
    rewrite (deliver_one o1 e). by rewrite bool_decide_eq_false_2.
  - intros Ht. by rewrite Ht.
Qed.

Lemma hint_has domain (ls : list link) :
  existsb (preconnects domain) (hint domain ls) = true
  /\ (forall d, existsb (preconnects d) ls = true ->
                existsb (preconnects d) (hint domain ls) = true)
  /\ (existsb (preconnects domain) ls = true -> hint domain ls = ls)
  /\ ls `prefix_of` hint domain ls.
Proof.
  unfold hint. destruct (existsb (preconnects domain) ls) eqn:E; cbn [negb].
  - done.
  - split_and!; [|intros d Hd|done|by apply prefix_app_r].
    + rewrite existsb_app. cbn [existsb]. unfold preconnects at 2.
      cbn [rel href].
      rewrite (bool_decide_eq_true_2 (lower "preconnect" = "preconnect"))
        by reflexivity.
      rewrite (bool_decide_eq_true_2 (domain = domain)) by reflexivity.
      by rewrite orb_true_r.
    + rewrite existsb_app, Hd. done.
Qed.

(** X26: [preconnectToExternalDomains] makes sure that each of the two
    domains has a preconnect hint, keeps the links there were, in order and
    in front, and adds no second hint: running it again changes nothing,
    and when both domains had a hint nothing is added. *)
Theorem preconnect_is_idempotent (links : list link) :
  let links' := preconnectToExternalDomains links in
  (forall domain, domain ∈ externalDomains ->
     existsb (preconnects domain) links' = true)
  /\ links `prefix_of` links'
  /\ preconnectToExternalDomains links' = links'
  /\ (Forall (fun domain => existsb (preconnects domain) links = true)
        externalDomains -> links' = links).
Proof.
  cbv zeta.
  assert (E : forall ls, preconnectToExternalDomains ls
                         = hint "https://cdnjs.cloudflare.com"
                             (hint "https://fonts.googleapis.com" ls)) by done.
  rewrite !E.
  set (d1 := "https://fonts.googleapis.com").
  set (d2 := "https://cdnjs.cloudflare.com").
  destruct (hint_has d1 links) as (H1 & K1 & I1 & P1).
  destruct (hint_has d2 (hint d1 links)) as (H2 & K2 & I2 & P2).
  destruct (hint_has d1 (hint d2 (hint d1 links))) as (_ & _ & I3 & _).
  destruct (hint_has d2 (hint d2 (hint d1 links))) as (_ & _ & I4 & _).
  split_and!.
  - intros domain Hd. apply elem_of_cons in Hd as [->|Hd]; [by apply K2|].
    apply list_elem_of_singleton in Hd as ->. done.
  - by transitivity (hint d1 links).
  - rewrite I3 by (by apply K2). by apply I4.
  - intros Hall. apply Forall_cons in Hall as [Ha Hall].
    apply Forall_cons in Hall as [Hb _].
    rewrite (I1 Ha). rewrite (I1 Ha) in I2. by apply I2.
Qed.

(** A link written [rel="PRECONNECT"] in the markup is a hint to the
    selector: the domain gets no second link. *)
Example preconnect_rel_any_case :
  preconnectToExternalDomains
    [Link "PRECONNECT" "https://fonts.googleapis.com"]
  = [Link "PRECONNECT" "https://fonts.googleapis.com";
     Link "preconnect" "https://cdnjs.cloudflare.com"].
Proof. vm_compute. reflexivity. Qed.

End LazyImagesFacts.

Lemma images_lazy_by_default_witness :
  let o := LazyImages.Optimizer
             {[ 0%nat := LazyImages.Image None None (Some "a.jpg");
                1%nat := LazyImages.Image (Some "eager") (Some "b.jpg") None ]} [] in
  LazyImages.loading
    (LazyImages.img (fst (LazyImages.optimizeImages true [0%nat; 1%nat] o)) 0)
  = Some "lazy"
  /\ LazyImages.loading
       (LazyImages.img (fst (LazyImages.optimizeImages false [0%nat; 1%nat] o)) 1)
     = Some "eager"
  /\ LazyImages.targets (fst (LazyImages.optimizeImages false [0%nat; 1%nat] o))
     = [].
Proof.
  intros o. split_and!.
  - destruct (images_lazy_by_default true [0%nat; 1%nat] o 0%nat) as (H & _);
      [apply elem_of_cons; by left|exact H].
  - destruct (images_lazy_by_default false [0%nat; 1%nat] o 1%nat) as (H & _);
      [apply elem_of_cons; right; apply elem_of_cons; by left|exact H].
  - destruct (images_lazy_by_default false [0%nat; 1%nat] o 1%nat)
      as (_ & _ & _ & _ & _ & H);
      [apply elem_of_cons; right; apply elem_of_cons; by left|].
    destruct (H eq_refl) as [Ht _]. exact Ht.
Defined.

Lemma lazy_image_swaps_once_witness :
  let o := LazyImages.Optimizer
             {[ 0%nat := LazyImages.Image (Some "lazy") None (Some "a.jpg") ]}
             [0%nat] in
  LazyImages.src (LazyImages.img (LazyImages.deliver [(0%nat, true)] o) 0)
  = Some "a.jpg".
Proof.
  intros o.
  destruct (lazy_image_swaps_once o 0%nat) as [H _];
    [apply elem_of_cons; by left|].
  destruct (H eq_refl) as (Hsrc & _). exact Hsrc.
Defined.

(* --------------------------------------------------------------------- *)
(** ** Buttons, links and grids                                           *)
(* --------------------------------------------------------------------- *)

Section InteractionsFacts.
Import Dom Interactions.
Implicit Types (d : gmap nat button) (e : nat).

Lemma setup_buttons_btn (l : list nat) e : forall d,
  btn (setupButtonInteractions l d) e
  = if bool_decide (e ∈ l) && negb (marked d e)
    then Button (add "interactive-button" (classList (btn d e))) true
    else btn d e.
Proof.
  unfold setupButtonInteractions.
  induction l as [|a l IH]; intros d; [done|]. cbn [foldl]. rewrite IH. clear IH.
  fold (marked d a). destruct (marked d a) eqn:Ea.
  - destruct (decide (e = a)) as [->|Hne].
    + rewrite Ea. by rewrite !andb_false_r.
    + apply (f_equal (fun b : bool =>
               if b && negb (marked d e)
               then Button (add "interactive-button" (classList (btn d e))) true
               else btn d e)).
      apply bool_decide_ext. rewrite elem_of_cons. split; [by right|].
      intros [Heq|Hin]; [congruence|done].
  - destruct (decide (e = a)) as [->|Hne].
    + assert (Hm : marked (<[a := Button (add "interactive-button"
                                            (classList (btn d a))) true]> d) a = true).
      { unfold marked, btn. rewrite lookup_insert_eq. apply contains_add. }
      rewrite Hm, andb_false_r, Ea.
      rewrite (bool_decide_eq_true_2 (a ∈ a :: l)) by left. cbn [andb negb].
      unfold btn. by rewrite lookup_insert_eq.
    + assert (Hb : btn (<[a := Button (add "interactive-button"
                                         (classList (btn d a))) true]> d) e
                   = btn d e).
      { unfold btn. by rewrite lookup_insert_ne. }
      unfold marked. rewrite Hb.
      apply (f_equal (fun b : bool =>
               if b && negb (contains "interactive-button" (classList (btn d e)))
               then Button (add "interactive-button" (classList (btn d e))) true
               else btn d e)).
      apply bool_decide_ext. rewrite elem_of_cons. split; [by right|].
      intros [Heq|Hin]; [congruence|done].
Qed.

Lemma setup_buttons_marked (l : list nat) : forall d,
  (forall e, e ∈ l -> marked d e = true) -> setupButtonInteractions l d = d.
Proof.
  unfold setupButtonInteractions.
  induction l as [|a l IH]; intros d Hall; [done|]. cbn [foldl].
  fold (marked d a). rewrite (Hall a) by left.
  apply IH. intros e He. apply Hall. by right.
Qed.

(** X27: after [setupButtonInteractions] every matched button carries the
    [interactive-button] class; the ripple listener has been attached to
    exactly those that lacked the class, so a button that carries it in the
    markup gets none; no other button changes; and a second run changes
    nothing. *)
Theorem buttons_set_up_once (matched : list nat) d :
  let d' := setupButtonInteractions matched d in
  (forall e, e ∈ matched ->
     marked d' e = true
     /\ ripples (btn d' e) = ripples (btn d e) || negb (marked d e))
  /\ (forall e, e ∉ matched -> btn d' e = btn d e)
  /\ setupButtonInteractions matched d' = d'.
Proof.
  cbv zeta.
  assert (Hm : forall e, e ∈ matched ->
            marked (setupButtonInteractions matched d) e = true
            /\ ripples (btn (setupButtonInteractions matched d) e)
               = ripples (btn d e) || negb (marked d e)).
  { intros e He. unfold marked at 1. rewrite setup_buttons_btn.
    rewrite bool_decide_eq_true_2 by done. cbn [andb].
    destruct (marked d e) eqn:E; cbn [negb].
    - split; [done|]. by rewrite orb_false_r.
    - split; [apply contains_add|]. by rewrite orb_true_r. }
  split_and!; [done| |].
  - intros e He. rewrite setup_buttons_btn.
    by rewrite bool_decide_eq_false_2.
  - apply setup_buttons_marked. intros e He. by apply Hm.
Qed.

(** X28: which clicks on a link the page transition takes over.  It takes
    the navigation over exactly when no modifier key is held, the [href]
    attribute is not empty and starts with none of [#], [mailto:] and
    [tel:], the destination has the origin of the page, and either the path
    differs or the destination has no fragment while the current address has
    one. *)
Theorem transition_takes_over (current : url) (c : click) :
  intercepts current c = true
  <-> (metaKey c = false /\ ctrlKey c = false /\ shiftKey c = false
       /\ altKey c = false)
      /\ (exists href, attr_href c = Some href
            /\ href <> ""
            /\ String.prefix "#" href = false
            /\ String.prefix "mailto:" href = false
            /\ String.prefix "tel:" href = false)
      /\ origin (destination c) = origin current
      /\ (pathname (destination c) <> pathname current
          \/ (hash (destination c) = "" /\ hash current <> "")).
Proof.
  unfold intercepts.
  destruct (metaKey c), (ctrlKey c), (shiftKey c), (altKey c); cbn [orb];
    try (split; [discriminate|intros ((?&?&?&?)&_); discriminate]).
  destruct (attr_href c) as [href|];
    [|split; [discriminate|intros (_&(?&?&_)&_); discriminate]].
  case_bool_decide as Hh; cbn [orb].
  { split; [discriminate|]. intros (_&(h&Heq&Hne&_)&_).
    injection Heq as <-. done. }
  destruct (String.prefix "#" href) eqn:P1; cbn [orb].
  { split; [discriminate|]. intros (_&(h&Heq&_&Hp&_)&_).
    injection Heq as <-. congruence. }
  destruct (String.prefix "mailto:" href) eqn:P2; cbn [orb].
  { split; [discriminate|]. intros (_&(h&Heq&_&_&Hp&_)&_).
    injection Heq as <-. congruence. }
  destruct (String.prefix "tel:" href) eqn:P3; cbn [orb].
  { split; [discriminate|]. intros (_&(h&Heq&_&_&_&Hp)&_).
    injection Heq as <-. congruence. }
  case_bool_decide as Ho; cbn [negb].
  2:{ split; [discriminate|]. intros (_&_&Heq&_). done. }
  case_bool_decide as Hp.
  - case_bool_decide as Hd; case_bool_decide as Hc; cbn [negb andb].
    + split; [discriminate|]. intros (_&_&_&[H|[_ H]]); [done|congruence].
    + split; [intros _|done].
      split_and!; try done; [by exists href|]. right. split; [done|congruence].
    + split; [discriminate|]. intros (_&_&_&[H|[H _]]); done.
    + split; [discriminate|]. intros (_&_&_&[H|[H _]]); done.
  - split; [intros _|done].
    split_and!; try done; [by exists href|by left].
Qed.

Lemma foldl_max_spec (hs : list Z) : forall h,
  let m := foldl Z.max h hs in
  (h <= m) /\ (forall x, x ∈ hs -> x <= m) /\ (m = h \/ m ∈ hs).
Proof.
  induction hs as [|a hs IH]; intros h; simpl.
  - split_and!; [lia| |by left]. intros x Hx. by apply elem_of_nil in Hx.
  - destruct (IH (Z.max h a)) as (H1 & H2 & H3). split_and!.
    + lia.
    + intros x Hx. apply elem_of_cons in Hx as [->|Hx]; [lia|by apply H2].
    + destruct H3 as [H3|H3]; [|right; by right].
      rewrite H3. destruct (Z.max_spec h a) as [[_ ->]|[_ ->]];
        [right; by left|by left].
Qed.

(** X29: [fixGridAlignment] gives all items of a grid one height, the
    greatest of their natural heights: no item is made shorter than its
    content, and the height is that of one of the items.  A grid without
    items is left alone. *)
Theorem grid_items_share_greatest_height (natural : list Z) :
  length (fixGrid natural) = length natural
  /\ (natural <> [] ->
      exists m, fixGrid natural = replicate (length natural) m
                /\ m ∈ natural
                /\ forall h, h ∈ natural -> h <= m).
Proof.
  destruct natural as [|h hs]; [done|]. split.
  - unfold fixGrid. by rewrite length_map.
  - intros _. destruct (foldl_max_spec hs h) as (H1 & H2 & H3). cbv zeta in *.
    exists (foldl Z.max h hs). split_and!.
    + assert (Hc : forall (m : Z) (l : list Z),
                map (fun _ => m) l = replicate (length l) m).
      { intros m l. induction l as [|x l IH]; [done|]. simpl. by rewrite IH. }
      unfold fixGrid. apply Hc.
    + destruct H3 as [->|H3]; [by left|by right].
    + intros x Hx. apply elem_of_cons in Hx as [->|Hx]; [done|by apply H2].
Qed.

End InteractionsFacts.

Lemma buttons_set_up_once_example :
  let d : gmap nat Interactions.button :=
    {[ 0%nat := Interactions.Button ["cta-button"] false;
       1%nat := Interactions.Button ["cta-button"; "interactive-button"] false ]} in
  Interactions.ripples
    (Interactions.btn (Interactions.setupButtonInteractions [0%nat; 1%nat] d) 0) = true
  /\ Interactions.ripples
       (Interactions.btn (Interactions.setupButtonInteractions [0%nat; 1%nat] d) 1)
     = false.
Proof. vm_compute. done. Qed.

(* --------------------------------------------------------------------- *)
(** ** Headings split into words                                          *)
(* --------------------------------------------------------------------- *)

Section HeadingsFacts.
Import Dom Reveal Headings.
Implicit Types (s : state) (c : content).

Lemma fragment_text (words : list string) : forall index total,
  total = (index + length words)%nat ->
  String.concat "" (map textOf (fragment_from index total words))
  = String.concat " " words.
Proof.
  induction words as [|w rest IH]; intros index total Ht; [done|].
  cbn [fragment_from]. destruct rest as [|w' rest'].
  - simpl in Ht. replace (Z.of_nat index <? Z.of_nat total - 1)%Z with false
      by (symmetry; apply Z.ltb_ge; lia).
    done.
  - replace (Z.of_nat index <? Z.of_nat total - 1)%Z with true
      by (symmetry; apply Z.ltb_lt; simpl in Ht; lia).
    specialize (IH (S index) total ltac:(simpl in *; lia)).
    cbn [fragment_from] in IH |- *. cbn [app map textOf] in IH |- *.
    cbn [String.concat]. cbn [String.concat] in IH.
    change ("" ++ ?x)%string with x. f_equal.
    change (" " ++ "" ++ ?x)%string with (" " ++ x)%string. f_equal.
    exact IH.
Qed.

Lemma fragment_spans (words : list string) : forall index total,
  length (filter (fun n => isSpan n = true) (fragment_from index total words))
  = length words.
Proof.
  induction words as [|w rest IH]; intros index total; [done|].
  cbn [fragment_from]. rewrite filter_cons_True by done.
  rewrite filter_app. cbn [length]. f_equal.
  rewrite length_app, IH.
  destruct (Z.of_nat index <? Z.of_nat total - 1)%Z; done.
Qed.

Lemma length_pos_nonempty (t : string) :
  (0 <? String.length t)%nat = negb (bool_decide (t = "")).
Proof.
  destruct t as [|a t]; [done|].
  by rewrite (bool_decide_eq_false_2 (String a t = "")).
Qed.

(** What [prepareHeading] leaves in the heading it has worked on. *)
Lemma prepareHeading_content js h s :
  headingProcessed (content_of s h) <> Some "true" ->
  content_of (prepareHeading js h s) h
  = Content
      (if negb (existsb (fun n => negb (isText n)) (childNodes (content_of s h)))
          && negb (bool_decide (trim js (textContent (content_of s h)) = ""))
       then fragment (split js (trim js (textContent (content_of s h))))
       else childNodes (content_of s h))
      (Some "true").
Proof.
  intros Hp. unfold prepareHeading. rewrite bool_decide_eq_false_2 by done.
  rewrite length_pos_nonempty.
  destruct (negb (existsb _ _)); cbn [andb];
    [destruct (negb (bool_decide _))|];
    unfold content_of; cbn [contents]; by rewrite ?lookup_insert_eq.
Qed.

(** X30: a heading worked on for the first time is marked as processed and
    registered.  When all its child nodes are text and its trimmed text is
    not empty, its children become one wrapper per word with a single space
    between two wrappers, so that its text is the words joined by single
    spaces, and it gets the [has-split-heading] class; otherwise its children
    are left alone.  Working on it again changes nothing. *)
Theorem heading_split_keeps_words js h s :
  headingProcessed (content_of s h) <> Some "true" ->
  let c := content_of s h in
  let words := split js (trim js (textContent c)) in
  let s' := prepareHeading js h s in
  headingProcessed (content_of s' h) = Some "true"
  /\ h ∈ animatedElements (engine s')
  /\ (existsb (fun n => negb (isText n)) (childNodes c) = false ->
      trim js (textContent c) <> "" ->
      childNodes (content_of s' h) = fragment words
      /\ textContent (content_of s' h) = String.concat " " words
      /\ length (spans (content_of s' h)) = length words
      /\ contains "has-split-heading" (classList (el (engine s') h)) = true)
  /\ (existsb (fun n => negb (isText n)) (childNodes c) = true
      \/ trim js (textContent c) = "" ->
      childNodes (content_of s' h) = childNodes c)
  /\ prepareHeading js h s' = s'.
Proof.
  intros Hp. cbv zeta.
  pose proof (prepareHeading_content js h s Hp) as Hc.
  split_and!.
  - by rewrite Hc.
  - unfold prepareHeading. rewrite bool_decide_eq_false_2 by done.
    cbn [engine]. apply prepareElement_registers.
  - intros Hn Ht. rewrite Hc, Hn. cbn [negb andb].
    rewrite bool_decide_eq_false_2 by done. cbn [negb childNodes].
    split_and!; [done| | |].
    + unfold textContent, fragment. cbn [childNodes]. by apply fragment_text.
    + unfold spans, fragment. cbn [childNodes]. apply fragment_spans.
    + unfold prepareHeading. rewrite bool_decide_eq_false_2 by done.
      rewrite Hn, length_pos_nonempty. cbn [negb].
      rewrite bool_decide_eq_false_2 by done. cbn [negb engine].
      rewrite prepareElement_classList, el_update_eq. apply contains_add.
  - intros Hor. rewrite Hc. destruct Hor as [Hn|Ht].
    + by rewrite Hn.
    + rewrite (bool_decide_eq_true_2 _ Ht). cbn [negb]. by rewrite andb_false_r.
  - unfold prepareHeading at 1. rewrite Hc. cbn [headingProcessed].
    by rewrite bool_decide_eq_true_2.
Qed.

End HeadingsFacts.

(** A host whose [trim] finds nothing to trim and whose [split] returns
    the two words of the heading. *)
Lemma heading_split_keeps_words_witness :
  let js := Headings.Strings (fun t => t) (fun _ => ["Our"; "Services"]) in
  let s := Headings.State (Reveal.initial false true)
             {[ 0%nat := Headings.Content [Headings.Text "Our Services"] None ]} in
  Headings.textContent (Headings.content_of (Headings.prepareHeading js 0 s) 0)
  = "Our Services".
Proof.
  intros js s.
  destruct (heading_split_keeps_words js 0%nat s) as (_ & _ & H & _);
    [discriminate|].
  destruct H as (_ & Ht & _); [reflexivity|discriminate|exact Ht].
Defined.
